(** * Astro-Engine: the astronomical core of [ephemeris.js] and [birthChart.js]

    A shallow embedding of the time conversion, position calculation,
    house-cusp derivation, house placement and aspect detection of the
    engine, followed by the properties its specification states about them.

    Number model.  JavaScript numbers are IEEE-754 doubles; here they are
    idealised as exact rationals ([Q]), so every arithmetic operator of the
    source is the exact operator and no rounding takes place.  Equality of
    numbers is therefore [Qeq] ([==]).  The transcendental functions of the
    JavaScript [Math] object are an interface ([JSMath]) over which the
    position and house calculators are parameterised; a rational reference
    instance ([approxMath]) lets the model run on concrete inputs.

    Where rounding decides a property (the range of [normalizeAngle], the
    order of Julian Days, the zodiac round trip) the functions concerned
    are embedded a second time with every operator followed by its
    rounding ([Rounded]), over an interface for the rounding whose
    instance [binary64] rounds to the nearest double. *)

From Stdlib Require Import ZArith QArith Qround Qabs Lia Lqa List String Bool
  Morphisms.
From Stdlib Require Import DecimalString Ascii.
Import ListNotations.

Local Open Scope Q_scope.

(* ================================================================== *)
(** * JavaScript arithmetic on idealised numbers *)
(* ================================================================== *)

Module JS.

(** [x < y], [x > y], [x >= y] as the boolean tests of the source
    ([x <= y] is [Qle_bool]). *)
Definition ltb (x y : Q) : bool := negb (Qle_bool y x).
Definition gtb (x y : Q) : bool := ltb y x.
Definition geb (x y : Q) : bool := Qle_bool y x.

(** Truncation toward zero, the rounding the [%] operator is built on. *)
Definition trunc (q : Q) : Z := Z.quot (Qnum q) (Zpos (Qden q)).

(** The [%] operator: the remainder has the sign of the dividend,
    [x % y = x - y * trunc (x / y)].  (The source only ever divides by the
    constants 360, 30 and 24.) *)
Definition rem (x y : Q) : Q := x - y * inject_Z (trunc (x / y)).

(** [Math.floor] and [Math.abs]. *)
Definition floor (x : Q) : Q := inject_Z (Qfloor x).
Definition abs (x : Q) : Q := Qabs x.

(** [Math.PI], to the sixteen digits a double holds. *)
Definition PI : Q := 3.141592653589793.

(** Exceptions.  A JavaScript call either returns a value or throws. *)
Inductive exn : Type :=
| InvalidBodyError
| TypeError.

Inductive completion (A : Type) : Type :=
| Return (a : A)
| Throw (e : exn).
Arguments Return {A} a.
Arguments Throw {A} e.

Definition bind {A B : Type} (c : completion A) (k : A -> completion B)
  : completion B :=
  match c with
  | Return a => k a
  | Throw e => Throw e
  end.

(** Decimal rendering of an integer-valued number inside a template
    string. *)
Definition showZ (z : Z) : string := NilZero.string_of_int (Z.to_int z).

End JS.

Notation "x <- c ;; k" := (JS.bind c (fun x => k))
  (at level 61, c at next level, right associativity).

Infix "%%" := JS.rem (at level 40, left associativity).

(** The part of the JavaScript [Math] object whose functions are not
    rational. *)
Class JSMath : Type := {
  Math_sin : Q -> Q;
  Math_cos : Q -> Q;
  Math_tan : Q -> Q;
  Math_sqrt : Q -> Q;
  Math_atan2 : Q -> Q -> Q
}.

(* ================================================================== *)
(** * ephemeris.js: constants *)
(* ================================================================== *)

Module PLANETS.
Definition SUN : Z := 0.
Definition MOON : Z := 1.
Definition MERCURY : Z := 2.
Definition VENUS : Z := 3.
Definition MARS : Z := 4.
Definition JUPITER : Z := 5.
Definition SATURN : Z := 6.
Definition URANUS : Z := 7.
Definition NEPTUNE : Z := 8.
Definition PLUTO : Z := 9.
Definition TRUE_NODE : Z := 11.
Definition CHIRON : Z := 15.

(** [Object.entries(PLANETS)], in declaration order. *)
Definition entries : list (string * Z) :=
  [ ("SUN", SUN); ("MOON", MOON); ("MERCURY", MERCURY); ("VENUS", VENUS);
    ("MARS", MARS); ("JUPITER", JUPITER); ("SATURN", SATURN);
    ("URANUS", URANUS); ("NEPTUNE", NEPTUNE); ("PLUTO", PLUTO);
    ("TRUE_NODE", TRUE_NODE); ("CHIRON", CHIRON) ]%string.

(** The body codes the table knows. *)
Definition recognized (code : Z) : bool :=
  existsb (fun e => Z.eqb (snd e) code) entries.
End PLANETS.

Definition SIGNS : list string :=
  [ "Aries"; "Taurus"; "Gemini"; "Cancer";
    "Leo"; "Virgo"; "Libra"; "Scorpio";
    "Sagittarius"; "Capricorn"; "Aquarius"; "Pisces" ]%string.

Record AspectConfig : Type := {
  cfg_angle : Q;
  cfg_orb : Q;
  cfg_symbol : string;
  cfg_nature : string
}.

(** [Object.entries(ASPECTS)], in declaration order. *)
Definition ASPECTS : list (string * AspectConfig) :=
  [ ("conjunction", {| cfg_angle := 0; cfg_orb := 8;
                       cfg_symbol := "☌"; cfg_nature := "neutral" |});
    ("sextile", {| cfg_angle := 60; cfg_orb := 6;
                   cfg_symbol := "⚹"; cfg_nature := "harmonious" |});
    ("square", {| cfg_angle := 90; cfg_orb := 8;
                  cfg_symbol := "□"; cfg_nature := "challenging" |});
    ("trine", {| cfg_angle := 120; cfg_orb := 8;
                 cfg_symbol := "△"; cfg_nature := "harmonious" |});
    ("opposition", {| cfg_angle := 180; cfg_orb := 8;
                      cfg_symbol := "☍"; cfg_nature := "challenging" |}) ]%string.

Definition DEG_TO_RAD : Q := JS.PI / 180.
Definition RAD_TO_DEG : Q := 180 / JS.PI.
Definition J2000 : Q := 2451545.0.

(* ================================================================== *)
(** * ephemeris.js: time conversion and zodiac decomposition *)
(* ================================================================== *)

(** [dateToJulianDay(year, month, day, hour = 0)]. *)
Definition dateToJulianDay (year month day hour : Q) : Q :=
  let '(year, month) :=
    if Qle_bool month 2 then (year - 1, month + 12) else (year, month) in
  let A := JS.floor (year / 100) in
  let B := 2 - A + JS.floor (A / 4) in
  let JD := JS.floor (365.25 * (year + 4716)) +
            JS.floor (30.6001 * (month + 1)) +
            day + hour / 24 + B - 1524.5 in
  JD.

(** [SIGNS[signIndex]]; an index outside the table reads [undefined]. *)
Definition signName (signIndex : Z) : option string :=
  if (signIndex <? 0)%Z then None else nth_error SIGNS (Z.to_nat signIndex).

Record ZodiacPosition : Type := {
  sign : option string;
  signIndex : Z;
  degree : Z;
  minutes : Z;
  zlongitude : Q;
  formatted : string
}.

(** [getZodiacPosition(longitude)]. *)
Definition getZodiacPosition (longitude : Q) : ZodiacPosition :=
  let normalizedLong := ((longitude %% 360) + 360) %% 360 in
  let signIndex := Qfloor (normalizedLong / 30) in
  let degreeInSign := normalizedLong %% 30 in
  let degree := Qfloor degreeInSign in
  let minutes := Qfloor ((degreeInSign - inject_Z degree) * 60) in
  {| sign := signName signIndex;
     signIndex := signIndex;
     degree := degree;
     minutes := minutes;
     zlongitude := normalizedLong;
     formatted :=
       (JS.showZ degree ++ "°" ++ JS.showZ minutes ++ "' " ++
        match signName signIndex with
        | Some s => s
        | None => "undefined"
        end)%string |}.

(** [normalizeAngle(angle)]. *)
Definition normalizeAngle (angle : Q) : Q :=
  let angle := angle %% 360 in
  if JS.ltb angle 0 then angle + 360 else angle.

(** [timeToDecimal(hours, minutes = 0, seconds = 0)]. *)
Definition timeToDecimal (hours minutes seconds : Q) : Q :=
  hours + minutes / 60 + seconds / 3600.

(* ================================================================== *)
(** * ephemeris.js: the position calculator *)
(* ================================================================== *)

(** What the per-body calculators return. *)
Record Body : Type := {
  longitude : Q;
  latitude : Q;
  distance : Q;
  longitudeSpeed : Q;
  isRetrograde : bool
}.

(** Keplerian elements at J2000 and their rates per century. *)
Record Elements : Type := {
  el_a : Q; el_e : Q; el_i : Q; el_L : Q; el_w : Q; el_O : Q;
  el_aR : Q; el_eR : Q; el_iR : Q; el_LR : Q; el_wR : Q; el_OR : Q
}.

Definition mkElements (a e i L w O aR eR iR LR wR OR : Q) : Elements :=
  {| el_a := a; el_e := e; el_i := i; el_L := L; el_w := w; el_O := O;
     el_aR := aR; el_eR := eR; el_iR := iR; el_LR := LR; el_wR := wR;
     el_OR := OR |}.

(** The [elements] object literal of [calculateOuterPlanet], keyed by body
    code; the lunar node's entry depends on [T]. *)
Definition elements (T : Q) : list (Z * Elements) :=
  [ (PLANETS.MERCURY,
      mkElements 0.387 0.2056 7.00 252.25 77.46 48.33
                 0 0.00002 (-0.003) 149472.67 0.16 (-0.13));
    (PLANETS.VENUS,
      mkElements 0.723 0.0068 3.39 181.98 131.53 76.68
                 0 (-0.00005) (-0.008) 58517.82 0.004 (-0.28));
    (PLANETS.MARS,
      mkElements 1.524 0.0934 1.85 355.43 336.04 49.56
                 0 0.00009 (-0.006) 19140.30 0.45 (-0.29));
    (PLANETS.JUPITER,
      mkElements 5.203 0.0484 1.31 34.33 14.33 100.46
                 0 0.00016 (-0.019) 3034.90 0.22 0.18);
    (PLANETS.SATURN,
      mkElements 9.537 0.0542 2.49 50.08 93.06 113.64
                 0 (-0.00004) 0.004 1222.11 0.54 (-0.25));
    (PLANETS.URANUS,
      mkElements 19.19 0.0472 0.77 314.20 173.00 74.01
                 0 (-0.00003) (-0.001) 428.49 0.09 0.05);
    (PLANETS.NEPTUNE,
      mkElements 30.07 0.0086 1.77 304.22 48.12 131.79
                 0 0.00001 0.003 218.46 0.01 (-0.01));
    (PLANETS.PLUTO,
      mkElements 39.48 0.2488 17.14 238.96 224.09 110.30
                 0 0.00006 0.004 145.18 (-0.01) (-0.03));
    (PLANETS.TRUE_NODE,
      mkElements 1 0 0 (125.08 - 19.34 * T) 0 0
                 0 0 0 (-19.34 * 36525) 0 0);
    (PLANETS.CHIRON,
      mkElements 13.65 0.379 6.93 209.41 339.26 209.26
                 0 0 0 72.22 0 0) ].

(** Property access [table[code]]; a missing key reads [undefined]. *)
Fixpoint lookup {A : Type} (code : Z) (table : list (Z * A)) : option A :=
  match table with
  | [] => None
  | (k, v) :: rest => if Z.eqb k code then Some v else lookup code rest
  end.

(** [a || b] on a possibly undefined object. *)
Definition orElse {A : Type} (a : option A) (b : option A) : option A :=
  match a with
  | Some v => Some v
  | None => b
  end.

(** The zodiac fields spread over a body: [{...result, ...position}].  The
    zodiac's normalised longitude overwrites the body's. *)
Record Position : Type := {
  body : Body;
  zodiac : ZodiacPosition
}.

Definition positionLongitude (p : Position) : Q := zlongitude (zodiac p).

Section PositionCalculator.

Context {M : JSMath}.

(** [calculateSunPosition(JD)]. *)
Definition calculateSunPosition (JD : Q) : Body :=
  let T := (JD - J2000) / 36525 in
  let L0 := 280.4664567 + 360007.6982779 * T + 0.03032028 * T * T in
  let L0 := normalizeAngle L0 in
  let M_ := 357.5291092 + 35999.0502909 * T - 0.0001536 * T * T in
  let M_ := normalizeAngle M_ in
  let Mrad := M_ * DEG_TO_RAD in
  let C := (1.9146 - 0.004817 * T - 0.000014 * T * T) * Math_sin Mrad +
           (0.019993 - 0.000101 * T) * Math_sin (2 * Mrad) +
           0.00029 * Math_sin (3 * Mrad) in
  let longitude := L0 + C in
  let longitude := normalizeAngle longitude in
  {| longitude := longitude;
     latitude := 0;
     distance := 1.00014 - 0.01671 * Math_cos Mrad
                 - 0.00014 * Math_cos (2 * Mrad);
     longitudeSpeed := 360 / 365.25;
     isRetrograde := false |}.

(** [calculateMoonPosition(JD)]. *)
Definition calculateMoonPosition (JD : Q) : Body :=
  let T := (JD - J2000) / 36525 in
  let Lm := 218.3164591 + 481267.88134236 * T - 0.0015786 * T * T in
  let Lm := normalizeAngle Lm in
  let D := 297.8502042 + 445267.1115168 * T - 0.0016300 * T * T in
  let D := normalizeAngle D * DEG_TO_RAD in
  let M_ := 357.5291092 + 35999.0502909 * T in
  let M_ := normalizeAngle M_ * DEG_TO_RAD in
  let Mm := 134.9634114 + 477198.8676313 * T + 0.0089970 * T * T in
  let Mm := normalizeAngle Mm * DEG_TO_RAD in
  let F := 93.2720993 + 483202.0175273 * T - 0.0034029 * T * T in
  let F := normalizeAngle F * DEG_TO_RAD in
  let longitude := Lm +
    6.29 * Math_sin Mm +
    -1.27 * Math_sin (Mm - 2 * D) +
    0.66 * Math_sin (2 * D) +
    0.21 * Math_sin (2 * Mm) +
    -0.19 * Math_sin M_ +
    -0.11 * Math_sin (2 * F) in
  let longitude := normalizeAngle longitude in
  let latitude := 5.13 * Math_sin F +
    0.28 * Math_sin (Mm + F) +
    -0.28 * Math_sin (F - Mm) +
    -0.17 * Math_sin (F - 2 * D) in
  {| longitude := longitude;
     latitude := latitude;
     distance := 385000;
     longitudeSpeed := 360 / 27.32;
     isRetrograde := false |}.

(** The body of [calculateOuterPlanet] once the element set [el] has been
    chosen.  ([sunLongitude] is [sunPos.longitude]; it is bound before the
    local [longitude] hides the field name.) *)
Definition outerPlanetFrom (JD : Q) (planetCode : Z) (el : Elements)
  : Body :=
  let T := (JD - J2000) / 36525 in
  let sunLongitude := longitude (calculateSunPosition JD) in
  let L := normalizeAngle (el_L el + el_LR el * T) in
  let w := normalizeAngle (el_w el + el_wR el * T) in
  let e := el_e el + el_eR el * T in
  let M_ := normalizeAngle (L - w) in
  let Mrad := M_ * DEG_TO_RAD in
  let C := (2 * e - e * e * e / 4) * Math_sin Mrad +
           (5 / 4 * e * e) * Math_sin (2 * Mrad) +
           (13 / 12 * e * e * e) * Math_sin (3 * Mrad) in
  let Cdeg := C * RAD_TO_DEG in
  let v := M_ + Cdeg in
  let longitude := normalizeAngle (v + w) in
  if Z.eqb planetCode PLANETS.TRUE_NODE then
    {| longitude := normalizeAngle (el_L el);
       latitude := 0;
       distance := 1;
       longitudeSpeed := -0.053;
       isRetrograde := true |}
  else
    let dailyMotion :=
      360 / (el_a el * el_a el * Math_sqrt (el_a el) * 365.25) in
    let elongation := normalizeAngle (longitude - sunLongitude) in
    let isRetrograde :=
      Z.ltb PLANETS.MARS planetCode &&
      (JS.gtb elongation 120 && JS.ltb elongation 240) in
    {| longitude := longitude;
       latitude :=
         el_i el * Math_sin ((longitude - el_O el) * DEG_TO_RAD);
       distance := el_a el * (1 - e * Math_cos Mrad);
       longitudeSpeed := dailyMotion * (if isRetrograde then -1 else 1);
       isRetrograde := isRetrograde |}.

(** [calculateOuterPlanet(JD, planetCode)]:
    [el = elements[planetCode] || elements[PLANETS.MARS]].  Reading a
    field of an undefined [el] would throw a [TypeError]; the source has
    no other way to fail. *)
Definition calculateOuterPlanet (JD : Q) (planetCode : Z)
  : JS.completion Body :=
  let T := (JD - J2000) / 36525 in
  match orElse (lookup planetCode (elements T))
               (lookup PLANETS.MARS (elements T)) with
  | Some el => JS.Return (outerPlanetFrom JD planetCode el)
  | None => JS.Throw JS.TypeError
  end.

(** [calculatePlanetPosition(JD, planetCode)]. *)
Definition calculatePlanetPosition (JD : Q) (planetCode : Z)
  : JS.completion Position :=
  result <-
    (if Z.eqb planetCode PLANETS.SUN then
       JS.Return (calculateSunPosition JD)
     else if Z.eqb planetCode PLANETS.MOON then
       JS.Return (calculateMoonPosition JD)
     else calculateOuterPlanet JD planetCode) ;;
  let position := getZodiacPosition (longitude result) in
  JS.Return {| body := result; zodiac := position |}.

End PositionCalculator.

(* ================================================================== *)
(** * ephemeris.js: houses *)
(* ================================================================== *)

(** One entry of the [cusps] object: [{cusp, ...getZodiacPosition(cusp)}]. *)
Record HouseCusp : Type := {
  cusp : Q;
  cuspZodiac : ZodiacPosition
}.

(** What [calculateHouses] returns.  [ascendant] and [mc] are
    [{longitude, ...getZodiacPosition(longitude)}], where the zodiac's
    normalised longitude overwrites the first field; [vertex] is always
    [null] and is left out. *)
Record HouseFrame : Type := {
  cusps : list (Z * HouseCusp);
  ascendant : ZodiacPosition;
  mc : ZodiacPosition;
  armc : Q
}.

(** The values of [i] in [for (let i = 1; i <= 12; i++)]. *)
Definition houseNumbers : list Z := [1; 2; 3; 4; 5; 6; 7; 8; 9; 10; 11; 12]%Z.

(** [normalizeAngle(ascendant + (i - 1) * 30)], the cusp of house [i]. *)
Definition cuspOfHouse (ascendant : Q) (i : Z) : Q :=
  normalizeAngle (ascendant + (inject_Z i - 1) * 30).

(** The loop [for (i = 1; i <= 12; i++) cusps[i] = ...]. *)
Definition houseCusps (ascendant : Q) : list (Z * HouseCusp) :=
  map (fun i : Z =>
         let cusp := cuspOfHouse ascendant i in
         (i, {| cusp := cusp; cuspZodiac := getZodiacPosition cusp |}))
      houseNumbers.

Section HouseSystemCalculator.

Context {M : JSMath}.

(** [calculateHouses(JD, latitude, longitude)]; the [houseSystem]
    argument is never read. *)
Definition calculateHouses (JD latitude longitude : Q) : HouseFrame :=
  let T := (JD - J2000) / 36525 in
  let GMST := 280.46061837 + 360.98564736629 * (JD - J2000) +
              0.000387933 * T * T - T * T * T / 38710000 in
  let LST := normalizeAngle (GMST + longitude) in
  let latRad := latitude * DEG_TO_RAD in
  let obliquity := 23.439 - 0.00013 * T in
  let oblRad := obliquity * DEG_TO_RAD in
  let lstRad := LST * DEG_TO_RAD in
  let ascendant :=
    Math_atan2 (Math_cos lstRad)
               (- (Math_sin lstRad * Math_cos oblRad +
                   Math_tan latRad * Math_sin oblRad)) * RAD_TO_DEG in
  let ascendant := normalizeAngle ascendant in
  let mc := Math_atan2 (Math_sin lstRad)
                       (Math_cos lstRad * Math_cos oblRad) * RAD_TO_DEG in
  let mc := normalizeAngle mc in
  {| cusps := houseCusps ascendant;
     ascendant := getZodiacPosition ascendant;
     mc := getZodiacPosition mc;
     armc := LST |}.

End HouseSystemCalculator.

(** [cuspsArray]: [houseCusps[i].cusp] for [i] from 1 to 12.  Reading
    [.cusp] of a missing entry throws a [TypeError]. *)
Fixpoint cuspsArray (houseCusps : list (Z * HouseCusp)) (keys : list Z)
  : JS.completion (list Q) :=
  match keys with
  | [] => JS.Return []
  | i :: rest =>
      match lookup i houseCusps with
      | Some c => arr <- cuspsArray houseCusps rest ;; JS.Return (cusp c :: arr)
      | None => JS.Throw JS.TypeError
      end
  end.

(** The test of the second loop of [getHousePosition] at one index: does
    the interval from [start] to [end_] hold the longitude? *)
Definition inHouseInterval (planetLongitude start end_ : Q) : bool :=
  if JS.ltb end_ start then
    JS.geb planetLongitude start || JS.ltb planetLongitude end_
  else
    JS.geb planetLongitude start && JS.ltb planetLongitude end_.

(** The second loop of [getHousePosition] over [indices]; [None]
    when it runs to its end without a [return]. *)
Fixpoint houseScan (planetLongitude : Q) (cuspsArray : list Q)
                   (indices : list nat) : option Z :=
  match indices with
  | [] => None
  | i :: rest =>
      let nextIndex := ((i + 1) mod 12)%nat in
      let start := nth i cuspsArray 0 in
      let end_ := nth nextIndex cuspsArray 0 in
      if inHouseInterval planetLongitude start end_
      then Some (Z.of_nat i + 1)%Z
      else houseScan planetLongitude cuspsArray rest
  end.

(** [getHousePosition(planetLongitude, houseCusps)]; the trailing
    [return 1] is the [None] branch. *)
Definition getHousePosition (planetLongitude : Q)
                            (houseCusps : list (Z * HouseCusp))
  : JS.completion Z :=
  arr <- cuspsArray houseCusps houseNumbers ;;
  match houseScan planetLongitude arr (seq 0 12) with
  | Some house => JS.Return house
  | None => JS.Return 1%Z
  end.

(* ================================================================== *)
(** * ephemeris.js: the aspect detector *)
(* ================================================================== *)

Record Aspect : Type := {
  name : string;
  angle : Q;
  orb : Q;
  symbol : string;
  nature : string;
  exact : bool
}.

(** The loop of [calculateAspect] over the entries of the table; [None] is
    the final [return null]. *)
Fixpoint matchAspect (diff : Q) (table : list (string * AspectConfig))
  : option Aspect :=
  match table with
  | [] => None
  | (name, config) :: rest =>
      let orb := JS.abs (diff - cfg_angle config) in
      if Qle_bool orb (cfg_orb config) then
        Some {| name := name;
                angle := cfg_angle config;
                orb := orb;
                symbol := cfg_symbol config;
                nature := cfg_nature config;
                exact := JS.ltb orb 1 |}
      else matchAspect diff rest
  end.

(** The folded separation: [diff] after [if (diff > 180) diff = 360 - diff]. *)
Definition separation (long1 long2 : Q) : Q :=
  let diff := JS.abs (long1 - long2) in
  if JS.gtb diff 180 then 360 - diff else diff.

(** [calculateAspect(long1, long2)]. *)
Definition calculateAspect (long1 long2 : Q) : option Aspect :=
  matchAspect (separation long1 long2) ASPECTS.

(** [getPlanetName] is string formatting only and is not modelled. *)

(* ================================================================== *)
(** * The Gregorian calendar and the built-in [Date] *)
(* ================================================================== *)

Module Calendar.

Local Open Scope Z_scope.

Definition isLeapYear (y : Z) : bool :=
  (y mod 4 =? 0) && (negb (y mod 100 =? 0) || (y mod 400 =? 0)).

(** Length of month [m] (1 to 12) of year [y] in the proleptic Gregorian
    calendar. *)
Definition daysInMonth (y m : Z) : Z :=
  if m =? 2 then (if isLeapYear y then 29 else 28)
  else if (m =? 4) || (m =? 6) || (m =? 9) || (m =? 11) then 30
  else 31.

(** [new Date(year, month, 0).getDate()] for integer arguments, after
    ECMAScript's [MakeDay]: a year from 0 to 99 stands for 1900 + year,
    the zero-based month index is carried into the year, and day 0 is the
    last day of the month before. *)
Definition Date_lastDayBefore (year month : Z) : Z :=
  let yr := if (0 <=? year) && (year <=? 99) then 1900 + year else year in
  let m0 := month - 1 in
  daysInMonth (yr + m0 / 12) (m0 mod 12 + 1).

End Calendar.

(* ================================================================== *)
(** * birthChart.js: local civil time to UTC *)
(* ================================================================== *)

Module BirthChart.

Record BirthData : Type := {
  year : Z;
  month : Z;
  day : Z;
  hour : Q;
  minute : Q;
  latitude : Q;
  longitude : Q;
  timezone : option Q
}.

(** [getDaysInMonth(month, year)]. *)
Definition getDaysInMonth (month year : Z) : Z :=
  Calendar.Date_lastDayBefore year month.

(** A civil instant in UTC: year, month, day and decimal hour. *)
Record UtcInstant : Type := {
  utcYear : Z;
  utcMonth : Z;
  utcDay : Z;
  adjustedUtcHour : Q
}.

(** The opening of [calculateBirthChart]: local time to UTC with the day
    rollover ([birthData.timezone || 0] reads a missing offset as 0). *)
Definition toUtc (birthData : BirthData) : UtcInstant :=
  let tz := match timezone birthData with Some z => z | None => 0 end in
  let utcHour :=
    timeToDecimal (hour birthData) (minute birthData) 0 - tz in
  let '(utcYear, utcMonth, utcDay) :=
    if JS.ltb utcHour 0 then
      let utcDay := (day birthData - 1)%Z in
      if (utcDay <? 1)%Z then
        let utcMonth := (month birthData - 1)%Z in
        let '(utcMonth, utcYear) :=
          if (utcMonth <? 1)%Z then (12%Z, (year birthData - 1)%Z)
          else (utcMonth, year birthData) in
        (utcYear, utcMonth, getDaysInMonth utcMonth utcYear)
      else (year birthData, month birthData, utcDay)
    else if JS.geb utcHour 24 then
      let utcDay := (day birthData + 1)%Z in
      let daysInMonth :=
        getDaysInMonth (month birthData) (year birthData) in
      if (daysInMonth <? utcDay)%Z then
        let utcMonth := (month birthData + 1)%Z in
        if (12 <? utcMonth)%Z then ((year birthData + 1)%Z, 1%Z, 1%Z)
        else (year birthData, utcMonth, 1%Z)
      else (year birthData, month birthData, utcDay)
    else (year birthData, month birthData, day birthData) in
  let adjustedUtcHour := ((utcHour %% 24) + 24) %% 24 in
  {| utcYear := utcYear; utcMonth := utcMonth; utcDay := utcDay;
     adjustedUtcHour := adjustedUtcHour |}.

(** The [julianDay] of [calculateBirthChart]. *)
Definition julianDay (birthData : BirthData) : Q :=
  let u := toUtc birthData in
  dateToJulianDay (inject_Z (utcYear u)) (inject_Z (utcMonth u))
                  (inject_Z (utcDay u)) (adjustedUtcHour u).

End BirthChart.

(* ================================================================== *)
(** * Civil instants *)
(* ================================================================== *)

(** A civil date and time; year, month and day are whole numbers. *)
Record Civil : Type := {
  c_year : Z;
  c_month : Z;
  c_day : Z;
  c_hour : Q
}.

Definition validCivil (c : Civil) : Prop :=
  (1 <= c_month c <= 12)%Z /\
  (1 <= c_day c <= Calendar.daysInMonth (c_year c) (c_month c))%Z /\
  0 <= c_hour c < 24.

(** Chronological order: lexicographic on year, month, day, hour. *)
Definition civil_lt (c1 c2 : Civil) : Prop :=
  (c_year c1 < c_year c2)%Z \/
  (c_year c1 = c_year c2 /\
   ((c_month c1 < c_month c2)%Z \/
    (c_month c1 = c_month c2 /\
     ((c_day c1 < c_day c2)%Z \/
      (c_day c1 = c_day c2 /\ c_hour c1 < c_hour c2))))).

Definition julianDayOf (c : Civil) : Q :=
  dateToJulianDay (inject_Z (c_year c)) (inject_Z (c_month c))
                  (inject_Z (c_day c)) (c_hour c).

(* ================================================================== *)
(** * A rational instance of the [Math] interface *)
(* ================================================================== *)

Module Approx.

(** Twelve decimals are kept, so that numbers stay small. *)
Definition round12 (x : Q) : Q :=
  Qmake (Qfloor (x * 1000000000000)) 1000000000000.

(** Sine: the argument is brought into [[-PI/2, PI/2]], then a Taylor
    polynomial of degree nine. *)
Definition sinTaylor (x : Q) : Q :=
  let x2 := x * x in
  x * (1 - x2 / 6 * (1 - x2 / 20 * (1 - x2 / 42 * (1 - x2 / 72)))).
Definition sin (x : Q) : Q :=
  let twoPi := 2 * JS.PI in
  let r := Qred (x - twoPi * inject_Z (Qfloor (x / twoPi + (1 # 2)))) in
  let r := if JS.ltb (JS.PI / 2) r then JS.PI - r
           else if JS.ltb r (- JS.PI / 2) then - JS.PI - r
           else r in
  round12 (sinTaylor (Qred r)).
Definition cos (x : Q) : Q := sin (x + JS.PI / 2).
Definition tan (x : Q) : Q := round12 (sin x / cos x).

(** Square root: Heron's iteration. *)
Fixpoint heron (n : nat) (x g : Q) : Q :=
  match n with
  | O => g
  | S n => heron n x (Qred ((g + x / g) / 2))
  end.
Definition sqrt (x : Q) : Q :=
  if Qle_bool x 0 then 0 else heron 6 x (if Qle_bool x 1 then 1 else x).

(** Arc tangent of a ratio of size at most one, and the quadrant
    bookkeeping of [atan2]. *)
Definition atan (z : Q) : Q := z / (1 + 0.28 * z * z).
Definition atan2 (y x : Q) : Q :=
  round12
    (if Qle_bool (Qabs y) (Qabs x) then
       if Qeq_bool x 0 then 0
       else if JS.ltb 0 x then atan (Qred (y / x))
       else if Qle_bool 0 y then atan (Qred (y / x)) + JS.PI
       else atan (Qred (y / x)) - JS.PI
     else
       if JS.ltb 0 y then JS.PI / 2 - atan (Qred (x / y))
       else - JS.PI / 2 - atan (Qred (x / y))).

End Approx.

#[export] Instance approxMath : JSMath := {|
  Math_sin := Approx.sin;
  Math_cos := Approx.cos;
  Math_tan := Approx.tan;
  Math_sqrt := Approx.sqrt;
  Math_atan2 := Approx.atan2
|}.

(* ================================================================== *)
(** * JavaScript strings and objects *)
(* ================================================================== *)

Module JSString.

(** [toLowerCase] and [toUpperCase] on one character; the names handled by
    the source are ASCII. *)
Definition lowerChar (c : ascii) : ascii :=
  let n := nat_of_ascii c in
  if ((65 <=? n) && (n <=? 90))%nat then ascii_of_nat (n + 32) else c.

Definition upperChar (c : ascii) : ascii :=
  let n := nat_of_ascii c in
  if ((97 <=? n) && (n <=? 122))%nat then ascii_of_nat (n - 32) else c.

Fixpoint toLowerCase (s : string) : string :=
  match s with
  | EmptyString => EmptyString
  | String c rest => String (lowerChar c) (toLowerCase rest)
  end.

Fixpoint toUpperCase (s : string) : string :=
  match s with
  | EmptyString => EmptyString
  | String c rest => String (upperChar c) (toUpperCase rest)
  end.

(** [s.charAt(0)] and [s.slice(1)]. *)
Definition charAt0 (s : string) : string :=
  match s with
  | EmptyString => EmptyString
  | String c _ => String c EmptyString
  end.

Definition slice1 (s : string) : string :=
  match s with
  | EmptyString => EmptyString
  | String _ rest => rest
  end.

(** [s.replace(from, to)] for one-character strings: the first occurrence
    only. *)
Fixpoint replace1 (from to_ : ascii) (s : string) : string :=
  match s with
  | EmptyString => EmptyString
  | String c rest =>
      if Ascii.eqb c from then String to_ rest
      else String c (replace1 from to_ rest)
  end.

(** [list.includes(s)]. *)
Definition includes (list : list string) (s : string) : bool :=
  existsb (String.eqb s) list.

End JSString.

(** A JavaScript object with string keys, as the list of its entries in
    insertion order.  [setKey] is the assignment [o[k] = v]: an existing
    key keeps its place, a new one goes last. *)
Fixpoint setKey {A : Type} (k : string) (v : A) (o : list (string * A))
  : list (string * A) :=
  match o with
  | [] => [(k, v)]
  | (k', v') :: rest =>
      if String.eqb k' k then (k, v) :: rest
      else (k', v') :: setKey k v rest
  end.

(** [o[k]]; a missing key reads [undefined]. *)
Fixpoint getKey {A : Type} (k : string) (o : list (string * A)) : option A :=
  match o with
  | [] => None
  | (k', v) :: rest => if String.eqb k' k then Some v else getKey k rest
  end.

(** [Object.keys(o)]. *)
Definition keys {A : Type} (o : list (string * A)) : list string :=
  map fst o.

(* ================================================================== *)
(** * ephemeris.js: names *)
(* ================================================================== *)

Definition HOUSES : list (Z * string) :=
  [ (1%Z, "Identity & Self"); (2%Z, "Finances & Values");
    (3%Z, "Communication & Learning"); (4%Z, "Home & Family");
    (5%Z, "Creativity & Romance"); (6%Z, "Health & Daily Work");
    (7%Z, "Partnerships & Relationships");
    (8%Z, "Transformation & Shared Resources");
    (9%Z, "Higher Learning & Travel"); (10%Z, "Career & Public Image");
    (11%Z, "Friends & Goals");
    (12%Z, "Spirituality & Subconscious") ]%string.

(** The loop of [getPlanetName] over [Object.entries(PLANETS)]. *)
Fixpoint findPlanetName (planetCode : Z) (entries : list (string * Z))
  : option string :=
  match entries with
  | [] => None
  | (name, code) :: rest =>
      if Z.eqb code planetCode then
        Some (JSString.charAt0 name ++
              JSString.replace1 "_" " "
                (JSString.toLowerCase (JSString.slice1 name)))%string
      else findPlanetName planetCode rest
  end.

(** [getPlanetName(planetCode)]. *)
Definition getPlanetName (planetCode : Z) : string :=
  match findPlanetName planetCode PLANETS.entries with
  | Some name => name
  | None => "Unknown"%string
  end.

(* ================================================================== *)
(** * birthChart.js: the chart assembler *)
(* ================================================================== *)

Module NatalChart.

(** [houses.ascendant] and [houses.mc], named here before the chart's own
    fields take the names. *)
Definition frameAscendant (houses : HouseFrame) : ZodiacPosition :=
  ascendant houses.
Definition frameMc (houses : HouseFrame) : ZodiacPosition := mc houses.

(** One entry of [planets]: [{...position, house, houseName}]. *)
Record PlanetEntry : Type := {
  position : Position;
  house : Z;
  houseName : option string
}.

(** One entry of [aspects]: [{planet1, planet2, ...aspect, description}]. *)
Record ChartAspect : Type := {
  planet1 : string;
  planet2 : string;
  aspect : Aspect;
  description : string
}.

(** What [calculateBirthChart] returns; [birthData] carries the added
    [julianDay]. *)
Record Chart : Type := {
  birthData : BirthChart.BirthData;
  julianDay : Q;
  planets : list (string * PlanetEntry);
  houses : HouseFrame;
  ascendant : ZodiacPosition;
  midheaven : ZodiacPosition;
  aspects : list ChartAspect
}.

(** [formatPlanetName(name)]. *)
Definition formatPlanetName (name : string) : string :=
  (JSString.toUpperCase (JSString.charAt0 name) ++
   JSString.replace1 "_" " " (JSString.slice1 name))%string.

(** The body of the [try] block for one entry of [PLANETS]. *)
Definition planetEntry {M : JSMath} (julianDay : Q)
                       (cusps : list (Z * HouseCusp)) (code : Z)
  : JS.completion PlanetEntry :=
  position <- calculatePlanetPosition julianDay code ;;
  houseNum <- getHousePosition (positionLongitude position) cusps ;;
  JS.Return {| position := position;
               house := houseNum;
               houseName := lookup houseNum HOUSES |}.

(** The loop over [Object.entries(ephemeris.PLANETS)]; the [catch] branch
    warns and goes on, leaving the body out. *)
Fixpoint collectPlanets {M : JSMath} (julianDay : Q)
                        (cusps : list (Z * HouseCusp))
                        (entries : list (string * Z))
                        (planets : list (string * PlanetEntry))
  : list (string * PlanetEntry) :=
  match entries with
  | [] => planets
  | (name, code) :: rest =>
      match planetEntry julianDay cusps code with
      | JS.Return entry =>
          collectPlanets julianDay cusps rest
            (setKey (JSString.toLowerCase name) entry planets)
      | JS.Throw _ => collectPlanets julianDay cusps rest planets
      end
  end.

(** The inner loop of [calculateAllAspects]: [planet1] against each later
    name.  Reading [.longitude] of a missing entry throws. *)
Fixpoint aspectsWith (planets : list (string * PlanetEntry))
                     (planet1 : string) (later : list string)
                     (aspects : list ChartAspect)
  : JS.completion (list ChartAspect) :=
  match later with
  | [] => JS.Return aspects
  | planet2 :: rest =>
      match getKey planet1 planets, getKey planet2 planets with
      | Some p1, Some p2 =>
          match calculateAspect (positionLongitude (position p1))
                                (positionLongitude (position p2)) with
          | Some a =>
              aspectsWith planets planet1 rest
                (aspects ++
                 [{| planet1 := planet1;
                     planet2 := planet2;
                     aspect := a;
                     description :=
                       (formatPlanetName planet1 ++ " " ++ symbol a ++ " " ++
                        formatPlanetName planet2)%string |}])
          | None => aspectsWith planets planet1 rest aspects
          end
      | _, _ => JS.Throw JS.TypeError
      end
  end.

(** The outer loop of [calculateAllAspects] over the names from index
    [i] on. *)
Fixpoint aspectsLoop (planets : list (string * PlanetEntry))
                     (planetNames : list string)
                     (aspects : list ChartAspect)
  : JS.completion (list ChartAspect) :=
  match planetNames with
  | [] => JS.Return aspects
  | planet1 :: rest =>
      aspects' <- aspectsWith planets planet1 rest aspects ;;
      aspectsLoop planets rest aspects'
  end.

(** [calculateAllAspects(planets)]. *)
Definition calculateAllAspects (planets : list (string * PlanetEntry))
  : JS.completion (list ChartAspect) :=
  aspectsLoop planets (keys planets) [].

(** [calculateBirthChart(birthData)]. *)
Definition calculateBirthChart {M : JSMath}
                               (birthData : BirthChart.BirthData)
  : JS.completion Chart :=
  let julianDay := BirthChart.julianDay birthData in
  let houses := calculateHouses julianDay
                  (BirthChart.latitude birthData)
                  (BirthChart.longitude birthData) in
  let planets := collectPlanets julianDay (cusps houses)
                   PLANETS.entries [] in
  aspects <- calculateAllAspects planets ;;
  JS.Return {| birthData := birthData;
               julianDay := julianDay;
               planets := planets;
               houses := houses;
               ascendant := frameAscendant houses;
               midheaven := frameMc houses;
               aspects := aspects |}.

(** [getPlanetsInHouse(chart, houseNumber)]: the entries
    [{name: formatPlanetName(name), ...planet}]. *)
Definition getPlanetsInHouse (chart : Chart) (houseNumber : Z)
  : list (string * PlanetEntry) :=
  map (fun e => (formatPlanetName (fst e), snd e))
      (filter (fun e => Z.eqb (house (snd e)) houseNumber) (planets chart)).

(** [getAspectsToplanet(chart, planetName)]. *)
Definition getAspectsToplanet (chart : Chart) (planetName : string)
  : list ChartAspect :=
  let normalizedName := JSString.toLowerCase planetName in
  filter (fun a => String.eqb (planet1 a) normalizedName ||
                   String.eqb (planet2 a) normalizedName)
         (aspects chart).

(** The [signRulers] table of [getHouseRuler]. *)
Definition signRulers : list (string * string) :=
  [ ("Aries", "mars"); ("Taurus", "venus"); ("Gemini", "mercury");
    ("Cancer", "moon"); ("Leo", "sun"); ("Virgo", "mercury");
    ("Libra", "venus"); ("Scorpio", "pluto"); ("Sagittarius", "jupiter");
    ("Capricorn", "saturn"); ("Aquarius", "uranus");
    ("Pisces", "neptune") ]%string.

Record HouseRuler : Type := {
  rulerHouse : Z;
  cuspSign : option string;
  rulerPlanet : option string;
  rulerPosition : option PlanetEntry
}.

(** [table[key]] where the key itself may be [undefined], which reads the
    key ["undefined"]. *)
Definition getKeyOf {A : Type} (k : option string) (o : list (string * A))
  : option A :=
  match k with
  | Some s => getKey s o
  | None => getKey "undefined" o
  end.

(** [getHouseRuler(chart, houseNumber)]; reading [.sign] of a missing cusp
    throws. *)
Definition getHouseRuler (chart : Chart) (houseNumber : Z)
  : JS.completion HouseRuler :=
  match lookup houseNumber (cusps (houses chart)) with
  | None => JS.Throw JS.TypeError
  | Some houseCusp =>
      let rulerName := getKeyOf (sign (cuspZodiac houseCusp)) signRulers in
      JS.Return {| rulerHouse := houseNumber;
                   cuspSign := sign (cuspZodiac houseCusp);
                   rulerPlanet := rulerName;
                   rulerPosition := getKeyOf rulerName (planets chart) |}
  end.

End NatalChart.

(* ================================================================== *)
(** * transits.js: the transit sampler *)
(* ================================================================== *)

Module Transits.

(** What [calculateTransits] returns. *)
Record TransitSample : Type := {
  date : Q * Q * Q;
  julianDay : Q;
  planets : list (string * Position)
}.

(** The loop of [calculateTransits] over [Object.entries(PLANETS)]. *)
Fixpoint collectTransits {M : JSMath} (julianDay : Q)
                         (entries : list (string * Z))
                         (transits : list (string * Position))
  : list (string * Position) :=
  match entries with
  | [] => transits
  | (name, code) :: rest =>
      match calculatePlanetPosition julianDay code with
      | JS.Return position =>
          collectTransits julianDay rest
            (setKey (JSString.toLowerCase name) position transits)
      | JS.Throw _ => collectTransits julianDay rest transits
      end
  end.

(** [calculateTransits(year, month, day)]: the sky at noon. *)
Definition calculateTransits {M : JSMath} (year month day : Q)
  : TransitSample :=
  let julianDay := dateToJulianDay year month day 12 in
  {| date := (year, month, day);
     julianDay := julianDay;
     planets := collectTransits julianDay PLANETS.entries [] |}.

(** [getMonthName(month)]: [months[month]]. *)
Definition getMonthName (month : Z) : option string :=
  if (month <? 0)%Z then None
  else nth_error
         [ ""; "January"; "February"; "March"; "April"; "May"; "June";
           "July"; "August"; "September"; "October"; "November";
           "December" ]%string
         (Z.to_nat month).

Record MonthlyTransit : Type := {
  monthIndex : Z;
  year : Z;
  month : Z;
  monthName : option string;
  transitsStart : TransitSample;
  transitsMid : TransitSample
}.

(** The loop of [calculate12MonthTransits]: [n] rounds are left, [i] is
    the loop counter. *)
Fixpoint monthsLoop {M : JSMath} (n : nat) (i : Z) (year month : Z)
                    (monthlyTransits : list MonthlyTransit)
  : list MonthlyTransit :=
  match n with
  | O => monthlyTransits
  | S n' =>
      let firstOfMonth :=
        calculateTransits (inject_Z year) (inject_Z month) 1 in
      let midMonth :=
        calculateTransits (inject_Z year) (inject_Z month) 15 in
      let entry := {| monthIndex := i;
                      year := year;
                      month := month;
                      monthName := getMonthName month;
                      transitsStart := firstOfMonth;
                      transitsMid := midMonth |} in
      let month := (month + 1)%Z in
      let '(month, year) :=
        if (12 <? month)%Z then (1%Z, (year + 1)%Z) else (month, year) in
      monthsLoop n' (i + 1)%Z year month (monthlyTransits ++ [entry])
  end.

(** [calculate12MonthTransits(startYear, startMonth)]. *)
Definition calculate12MonthTransits {M : JSMath} (startYear startMonth : Z)
  : list MonthlyTransit :=
  monthsLoop 12 0%Z startYear startMonth [].

(** [formatName(name)]. *)
Definition formatName (name : string) : string :=
  (JSString.toUpperCase (JSString.charAt0 name) ++
   JSString.replace1 "_" " " (JSString.slice1 name))%string.

(** One entry of the list [analyzeTransitsToNatal] builds; the entries for
    the Ascendant and the Midheaven carry no positions. *)
Record TransitAspect : Type := {
  transitPlanet : string;
  natalPlanet : string;
  transitPosition : option Position;
  natalPosition : option NatalChart.PlanetEntry;
  aspect : Aspect;
  description : string
}.

(** The inner loop of [analyzeTransitsToNatal] over the natal planets. *)
Fixpoint natalLoop (transitPlanet : string) (transitPos : Position)
                   (natal : list (string * NatalChart.PlanetEntry))
                   (transitAspects : list TransitAspect)
  : list TransitAspect :=
  match natal with
  | [] => transitAspects
  | (natalPlanet, natalPos) :: rest =>
      match calculateAspect
              (positionLongitude transitPos)
              (positionLongitude (NatalChart.position natalPos)) with
      | Some a =>
          natalLoop transitPlanet transitPos rest
            (transitAspects ++
             [{| transitPlanet := transitPlanet;
                 natalPlanet := natalPlanet;
                 transitPosition := Some transitPos;
                 natalPosition := Some natalPos;
                 aspect := a;
                 description :=
                   ("Transiting " ++ formatName transitPlanet ++ " " ++
                    symbol a ++ " Natal " ++ formatName natalPlanet)%string
              |}])
      | None => natalLoop transitPlanet transitPos rest transitAspects
      end
  end.

(** The aspect of a transiting planet to the Ascendant or the Midheaven,
    pushed when there is one. *)
Definition anglePush (transitPlanet : string) (transitPos : Position)
                     (point : ZodiacPosition) (label title : string)
                     (transitAspects : list TransitAspect)
  : list TransitAspect :=
  match calculateAspect (positionLongitude transitPos) (zlongitude point) with
  | Some a =>
      transitAspects ++
      [{| transitPlanet := transitPlanet;
          natalPlanet := label;
          transitPosition := None;
          natalPosition := None;
          aspect := a;
          description :=
            ("Transiting " ++ formatName transitPlanet ++ " " ++
             symbol a ++ " " ++ title)%string |}]
  | None => transitAspects
  end.

(** The outer loop of [analyzeTransitsToNatal] over the transiting
    planets. *)
Fixpoint transitLoop (natalChart : NatalChart.Chart)
                     (transits : list (string * Position))
                     (transitAspects : list TransitAspect)
  : list TransitAspect :=
  match transits with
  | [] => transitAspects
  | (transitPlanet, transitPos) :: rest =>
      let acc := natalLoop transitPlanet transitPos
                   (NatalChart.planets natalChart) transitAspects in
      let acc := anglePush transitPlanet transitPos
                   (NatalChart.ascendant natalChart)
                   "ascendant" "Ascendant" acc in
      let acc := anglePush transitPlanet transitPos
                   (NatalChart.midheaven natalChart)
                   "midheaven" "Midheaven" acc in
      transitLoop natalChart rest acc
  end.

(** [analyzeTransitsToNatal(natalChart, transits)]. *)
Definition analyzeTransitsToNatal (natalChart : NatalChart.Chart)
                                  (transits : TransitSample)
  : list TransitAspect :=
  transitLoop natalChart (planets transits) [].

Record HousePlacement : Type := {
  house : Z;
  houseName : option string;
  position : Position
}.

(** The loop of [getTransitHousePlacements]; a throw of
    [getHousePosition] is not caught here. *)
Fixpoint placementsLoop (cusps : list (Z * HouseCusp))
                        (transits : list (string * Position))
                        (housePlacements : list (string * HousePlacement))
  : JS.completion (list (string * HousePlacement)) :=
  match transits with
  | [] => JS.Return housePlacements
  | (planet, position) :: rest =>
      house <- getHousePosition (positionLongitude position) cusps ;;
      placementsLoop cusps rest
        (setKey planet
           {| house := house;
              houseName := lookup house HOUSES;
              position := position |}
           housePlacements)
  end.

(** [getTransitHousePlacements(natalChart, transits)]. *)
Definition getTransitHousePlacements (natalChart : NatalChart.Chart)
                                     (transits : TransitSample)
  : JS.completion (list (string * HousePlacement)) :=
  placementsLoop (cusps (NatalChart.houses natalChart))
                 (planets transits) [].

Definition significantTransitPlanets : list string :=
  [ "jupiter"; "saturn"; "uranus"; "neptune"; "pluto" ]%string.

Definition significantNatalPoints : list string :=
  [ "sun"; "moon"; "mercury"; "venus"; "mars"; "ascendant";
    "midheaven" ]%string.

(** [getSignificantTransits(transitAspects)]. *)
Definition getSignificantTransits (transitAspects : list TransitAspect)
  : list TransitAspect :=
  filter (fun a =>
            JSString.includes significantTransitPlanets (transitPlanet a) &&
            JSString.includes significantNatalPoints (natalPlanet a))
         transitAspects.

End Transits.

(* ================================================================== *)
(** * Further definitions used to state the properties *)
(* ================================================================== *)

(** The day after a civil date in the proleptic Gregorian calendar. *)
Definition nextDay (c : Civil) : Civil :=
  if (c_day c <? Calendar.daysInMonth (c_year c) (c_month c))%Z then
    {| c_year := c_year c; c_month := c_month c;
       c_day := (c_day c + 1)%Z; c_hour := c_hour c |}
  else if (c_month c <? 12)%Z then
    {| c_year := c_year c; c_month := (c_month c + 1)%Z;
       c_day := 1%Z; c_hour := c_hour c |}
  else
    {| c_year := (c_year c + 1)%Z; c_month := 1%Z;
       c_day := 1%Z; c_hour := c_hour c |}.

(** The unwrapped UTC hour of [calculateBirthChart], [utcHour]. *)
Definition utcHourOf (b : BirthChart.BirthData) : Q :=
  timeToDecimal (BirthChart.hour b) (BirthChart.minute b) 0
  - match BirthChart.timezone b with Some z => z | None => 0 end.

(** An entry of a chart's aspect list is well founded in the object
    [planets]: its two names are keys, and it carries the aspect
    [calculateAspect] finds between the longitudes of the two entries. *)
Definition aspectOfPair (planets : list (string * NatalChart.PlanetEntry))
                        (a : NatalChart.ChartAspect) : Prop :=
  exists e1 e2,
    getKey (NatalChart.planet1 a) planets = Some e1 /\
    getKey (NatalChart.planet2 a) planets = Some e2 /\
    calculateAspect (positionLongitude (NatalChart.position e1))
                    (positionLongitude (NatalChart.position e2))
      = Some (NatalChart.aspect a).


(** The strings the model of [toLowerCase] and [toUpperCase] speaks for:
    every character is below 128. *)
Fixpoint asciiOnly (s : string) : bool :=
  match s with
  | EmptyString => true
  | String c rest => (nat_of_ascii c <? 128)%nat && asciiOnly rest
  end.

(** A birth used to run the definitions: 15 June 1990, 14:30 at UTC+5:30,
    28.6 N 77.2 E. *)
Definition sampleBirth : BirthChart.BirthData :=
  {| BirthChart.year := 1990; BirthChart.month := 6;
     BirthChart.day := 15; BirthChart.hour := 14;
     BirthChart.minute := 30; BirthChart.latitude := 28.6;
     BirthChart.longitude := 77.2;
     BirthChart.timezone := Some 5.5 |}.

(** The test of [getSignificantTransits]. *)
Definition isSignificant (a : Transits.TransitAspect) : bool :=
  JSString.includes Transits.significantTransitPlanets
                    (Transits.transitPlanet a) &&
  JSString.includes Transits.significantNatalPoints
                    (Transits.natalPlanet a).

(** What one entry of the list stands for: an aspect of a transiting body
    to a natal body, to the Ascendant or to the Midheaven. *)
Definition transitAspectOf (natalChart : NatalChart.Chart)
                           (transits : list (string * Position))
                           (a : Transits.TransitAspect) : Prop :=
  exists pos,
    In (Transits.transitPlanet a, pos) transits /\
    ((Transits.transitPosition a = Some pos /\
      exists e,
        In (Transits.natalPlanet a, e) (NatalChart.planets natalChart) /\
        Transits.natalPosition a = Some e /\
        calculateAspect (positionLongitude pos)
                        (positionLongitude (NatalChart.position e))
          = Some (Transits.aspect a)) \/
     (Transits.natalPlanet a = "ascendant"%string /\
      Transits.transitPosition a = None /\
      Transits.natalPosition a = None /\
      calculateAspect (positionLongitude pos)
                      (zlongitude (NatalChart.ascendant natalChart))
        = Some (Transits.aspect a)) \/
     (Transits.natalPlanet a = "midheaven"%string /\
      Transits.transitPosition a = None /\
      Transits.natalPosition a = None /\
      calculateAspect (positionLongitude pos)
                      (zlongitude (NatalChart.midheaven natalChart))
        = Some (Transits.aspect a))).
(* ================================================================== *)
(** * Rounding to a double *)
(* ================================================================== *)

(** The idealised model above lets no operator round.  Where rounding
    decides a property, the functions concerned are embedded once more
    with the rounding of every arithmetic operator made explicit
    ([Rounded], below), over an interface for the rounding. *)
Class Rounding : Type := { rnd : Q -> Q }.

Module Binary64.

(** The integer nearest to [u], the even one on a tie. *)
Definition roundHalfEven (u : Q) : Z :=
  let f := Qfloor u in
  match Qcompare (u - inject_Z f) (1 # 2) with
  | Lt => f
  | Gt => (f + 1)%Z
  | Eq => if Z.even f then f else (f + 1)%Z
  end.

(** Every finite double is a whole multiple of [2^-1074]; counted in that
    unit, a double is an integer with at most 53 significant bits.  The
    spacing of such integers around [t >= 0]: *)
Definition quantum (t : Q) : Z := (2 ^ Z.max 0 (Z.log2 (Qfloor t) - 52))%Z.

(** [t >= 0], in units of [2^-1074], rounded to the nearest such
    integer. *)
Definition roundUnits (t : Q) : Z :=
  (roundHalfEven (t / inject_Z (quantum t)) * quantum t)%Z.

Definition scale : Z := (2 ^ 1074)%Z.

(** Round to nearest, ties to even, as IEEE-754 binary64 does for every
    result that does not overflow. *)
Definition rnd64 (q : Q) : Q :=
  let v := Qred (inject_Z (roundUnits (Qabs q * inject_Z scale))
                 / inject_Z scale) in
  if Qle_bool 0 q then v else - v.

End Binary64.

(** The rounding of a double. *)
Definition binary64 : Rounding := {| rnd := Binary64.rnd64 |}.

(* ================================================================== *)
(** * ephemeris.js once more, every operator rounded *)
(* ================================================================== *)

Module Rounded.

Section Functions.

Context {Rd : Rounding}.

(** The operators of the source, each followed by the one rounding a
    double operation makes.  [%], [Math.floor] and the comparisons are
    exact on doubles and stay as they are. *)
Definition add (x y : Q) : Q := rnd (x + y).
Definition sub (x y : Q) : Q := rnd (x - y).
Definition mul (x y : Q) : Q := rnd (x * y).
Definition div (x y : Q) : Q := rnd (x / y).

(** A decimal literal of the source is the double nearest to it. *)
Definition lit (q : Q) : Q := rnd q.

(** [normalizeAngle(angle)]. *)
Definition normalizeAngle (angle : Q) : Q :=
  let angle := angle %% 360 in
  if JS.ltb angle 0 then add angle 360 else angle.

(** [dateToJulianDay(year, month, day, hour = 0)]; the sum is evaluated
    from left to right. *)
Definition dateToJulianDay (year month day hour : Q) : Q :=
  let '(year, month) :=
    if Qle_bool month 2 then (sub year 1, add month 12) else (year, month) in
  let A := JS.floor (div year 100) in
  let B := add (sub 2 A) (JS.floor (div A 4)) in
  let JD := sub (add (add (add (add (JS.floor (mul (lit 365.25)
                                                   (add year 4716)))
                                    (JS.floor (mul (lit 30.6001)
                                                   (add month 1))))
                               day)
                          (div hour 24))
                     B)
                (lit 1524.5) in
  JD.

(** [getZodiacPosition(longitude)]. *)
Definition getZodiacPosition (longitude : Q) : ZodiacPosition :=
  let normalizedLong := (add (longitude %% 360) 360) %% 360 in
  let signIndex := Qfloor (div normalizedLong 30) in
  let degreeInSign := normalizedLong %% 30 in
  let degree := Qfloor degreeInSign in
  let minutes := Qfloor (mul (sub degreeInSign (inject_Z degree)) 60) in
  {| sign := signName signIndex;
     signIndex := signIndex;
     degree := degree;
     minutes := minutes;
     zlongitude := normalizedLong;
     formatted :=
       (JS.showZ degree ++ "°" ++ JS.showZ minutes ++ "' " ++
        match signName signIndex with
        | Some s => s
        | None => "undefined"
        end)%string |}.

End Functions.

End Rounded.

(** What the properties below ask of a rounding, and what rounding to the
    nearest double gives: it keeps the order, and it leaves every
    [k / 2^e] with [|k| < 2^53] and [0 <= e <= 1074], a double, as it
    is. *)
Definition roundsToDoubles (Rd : Rounding) : Prop :=
  (forall x y : Q, x <= y -> rnd x <= rnd y) /\
  (forall k e : Z,
     (Z.abs k < 2 ^ 53)%Z -> (0 <= e <= 1074)%Z ->
     rnd (inject_Z k / inject_Z (2 ^ e)) == inject_Z k / inject_Z (2 ^ e)).

(* ================================================================== *)
(** * Definitions used to state and prove the properties *)
(* ================================================================== *)

(** The whole-day part of [dateToJulianDay] on integer arguments: the
    floors of the source written with integer division. *)
Definition dayNumber (y m d : Z) : Z :=
  let '(y', m') := if (m <=? 2)%Z then (y - 1, m + 12)%Z else (y, m) in
  let A := (y' / 100)%Z in
  ((36525 * (y' + 4716)) / 100 + (306001 * (m' + 1)) / 10000 + d
   + (2 - A + A / 4))%Z.

(** The entry [elements[PLANETS.MARS]]. *)
Definition marsElements : Elements :=
  mkElements 1.524 0.0934 1.85 355.43 336.04 49.56
             0 0.00009 (-0.006) 19140.30 0.45 (-0.29).

(** The house after house [i], going round. *)
Definition nextHouse (i : Z) : Z := if (i =? 12)%Z then 1%Z else (i + 1)%Z.

(** The test [houseScan] makes at index [j] of the cusp array. *)
Definition hit (p : Q) (arr : list Q) (j : nat) : bool :=
  inHouseInterval p (nth j arr 0) (nth ((j + 1) mod 12)%nat arr 0).

(** The half-open interval from [start] to [end_], wrapping at 360 when
    [end_] lies below [start]. *)
Definition inWrappedInterval (p start end_ : Q) : Prop :=
  (end_ < start /\ (start <= p \/ p < end_)) \/
  (start <= end_ /\ start <= p /\ p < end_).


(** The Julian Day of a civil instant as the doubles give it. *)
Definition roundedJulianDayOf {Rd : Rounding} (c : Civil) : Q :=
  Rounded.dateToJulianDay (inject_Z (c_year c)) (inject_Z (c_month c))
                          (inject_Z (c_day c)) (c_hour c).

(** The term [B] of [dateToJulianDay] on whole arguments. *)
Definition centuryTerm (y m : Z) : Z :=
  let y' := if (m <=? 2)%Z then (y - 1)%Z else y in
  (2 - y' / 100 + y' / 100 / 4)%Z.

(* ================================================================== *)
(** * Comparisons, truncation and the remainder *)
(* ================================================================== *)

Lemma ltb_lt (x y : Q) : JS.ltb x y = true <-> x < y.
Proof.
  unfold JS.ltb. rewrite negb_true_iff, <- not_true_iff_false, Qle_bool_iff.
  split; [apply Qnot_le_lt | apply Qlt_not_le].
Qed.

Lemma ltb_ge (x y : Q) : JS.ltb x y = false <-> y <= x.
Proof.
  unfold JS.ltb. rewrite negb_false_iff. apply Qle_bool_iff.
Qed.

Lemma geb_ge (x y : Q) : JS.geb x y = true <-> y <= x.
Proof. apply Qle_bool_iff. Qed.

Lemma leb_gt (x y : Q) : Qle_bool x y = false <-> y < x.
Proof.
  rewrite <- not_true_iff_false, Qle_bool_iff.
  split; [apply Qnot_le_lt | apply Qlt_not_le].
Qed.

Lemma Qfloor_unique (q : Q) (k : Z) :
  inject_Z k <= q -> q < inject_Z (k + 1) -> Qfloor q = k.
Proof.
  intros Hlo Hhi.
  pose proof (Qfloor_le q) as Hf. pose proof (Qlt_floor q) as Hc.
  assert (inject_Z (Qfloor q) < inject_Z (k + 1)) as H1 by lra.
  assert (inject_Z k < inject_Z (Qfloor q + 1)) as H2 by lra.
  rewrite <- Zlt_Qlt in H1, H2. lia.
Qed.

Lemma trunc_nonneg (q : Q) : 0 <= q -> JS.trunc q = Qfloor q.
Proof.
  destruct q as [n d]. unfold Qle, JS.trunc, Qfloor. simpl. intros H.
  apply Z.quot_div_nonneg; lia.
Qed.

Lemma trunc_opp (q : Q) : JS.trunc (- q) = (- JS.trunc q)%Z.
Proof.
  destruct q as [n d]. unfold JS.trunc. simpl. apply Z.quot_opp_l.
  discriminate.
Qed.

Lemma trunc_nonpos (q : Q) : q <= 0 -> JS.trunc q = Qceiling q.
Proof.
  intros H. unfold Qceiling. rewrite <- trunc_nonneg by lra.
  rewrite trunc_opp. lia.
Qed.

Lemma trunc_comp (x y : Q) : x == y -> JS.trunc x = JS.trunc y.
Proof.
  intros E. destruct (Qlt_le_dec x 0) as [Hx | Hx].
  - rewrite !trunc_nonpos by lra. now apply Qceiling_comp.
  - rewrite !trunc_nonneg by lra. now apply Qfloor_comp.
Qed.

#[export] Instance rem_comp : Proper (Qeq ==> Qeq ==> Qeq) JS.rem.
Proof.
  intros x x' Ex y y' Ey. unfold JS.rem.
  assert (JS.trunc (x / y) = JS.trunc (x' / y')) as ->
    by (apply trunc_comp; now rewrite Ex, Ey).
  now rewrite Ex, Ey.
Qed.

#[export] Instance ltb_comp : Proper (Qeq ==> Qeq ==> eq) JS.ltb.
Proof.
  intros x x' Ex y y' Ey. unfold JS.ltb. now rewrite Ex, Ey.
Qed.

(** A non-negative dividend leaves a remainder in [[0, m)]. *)
Lemma rem_nonneg (x m : Q) : 0 < m -> 0 <= x -> 0 <= x %% m /\ x %% m < m.
Proof.
  intros Hm Hx. unfold JS.rem.
  assert (0 <= x / m) as Hq by (apply Qle_shift_div_l; lra).
  rewrite trunc_nonneg by exact Hq.
  pose proof (Qfloor_le (x / m)) as Hf. pose proof (Qlt_floor (x / m)) as Hc.
  rewrite inject_Z_plus in Hc. change (inject_Z 1) with 1 in Hc.
  assert (x == m * (x / m)) as Ex by (field; lra).
  set (k := inject_Z (Qfloor (x / m))) in *.
  set (q := x / m) in *.
  assert (0 <= m * (q - k)) by (apply Qmult_le_0_compat; lra).
  assert (0 < m * (k + 1 - q)) by (apply Qmult_lt_0_compat; lra).
  split; lra.
Qed.

(** A non-positive dividend leaves a remainder in [(-m, 0]]. *)
Lemma rem_nonpos (x m : Q) : 0 < m -> x <= 0 -> - m < x %% m /\ x %% m <= 0.
Proof.
  intros Hm Hx. unfold JS.rem.
  assert (x / m <= 0) as Hq by (apply Qle_shift_div_r; lra).
  rewrite trunc_nonpos by exact Hq.
  pose proof (Qle_ceiling (x / m)) as Hf.
  pose proof (Qceiling_lt (x / m)) as Hc.
  unfold Z.sub in Hc. rewrite inject_Z_plus in Hc.
  assert (x == m * (x / m)) as Ex by (field; lra).
  set (k := inject_Z (Qceiling (x / m))) in *.
  set (q := x / m) in *. change (inject_Z (Z.opp 1)) with (Qopp 1) in Hc.
  assert (0 <= m * (k - q)) by (apply Qmult_le_0_compat; lra).
  assert (0 < m * (q - (k + -1))) by (apply Qmult_lt_0_compat; lra).
  split; lra.
Qed.

(** A dividend between [k * m] and [(k + 1) * m] loses [k] multiples. *)
Lemma rem_window (x m : Q) (k : Z) :
  0 < m -> 0 <= x -> inject_Z k * m <= x -> x < inject_Z (k + 1) * m ->
  x %% m == x - m * inject_Z k.
Proof.
  intros Hm Hx Hlo Hhi. unfold JS.rem.
  assert (0 <= x / m) as Hq by (apply Qle_shift_div_l; lra).
  rewrite trunc_nonneg by exact Hq.
  rewrite (Qfloor_unique (x / m) k); [reflexivity | |].
  - apply Qle_shift_div_l; lra.
  - apply Qlt_shift_div_r; lra.
Qed.

Lemma rem_small (x m : Q) : 0 <= x -> x < m -> x %% m == x.
Proof.
  intros Hx Hm. rewrite (rem_window x m 0).
  - change (inject_Z 0) with 0. lra.
  - lra.
  - lra.
  - change (inject_Z 0) with 0. lra.
  - change (inject_Z (0 + 1)) with 1. lra.
Qed.

(* ================================================================== *)
(** * normalizeAngle *)
(* ================================================================== *)

Lemma normalizeAngle_range (x : Q) :
  0 <= normalizeAngle x /\ normalizeAngle x < 360.
Proof.
  unfold normalizeAngle.
  destruct (JS.ltb (x %% 360) 0) eqn:E.
  - apply ltb_lt in E. destruct (Qlt_le_dec x 0) as [Hx | Hx].
    + destruct (rem_nonpos x 360) as [H1 H2]; lra.
    + destruct (rem_nonneg x 360) as [H1 H2]; lra.
  - apply ltb_ge in E. destruct (Qlt_le_dec x 0) as [Hx | Hx].
    + destruct (rem_nonpos x 360) as [H1 H2]; lra.
    + destruct (rem_nonneg x 360) as [H1 H2]; lra.
Qed.

Lemma normalizeAngle_id (x : Q) : 0 <= x -> x < 360 -> normalizeAngle x == x.
Proof.
  intros H0 H1. unfold normalizeAngle.
  pose proof (rem_small x 360 H0 H1) as E.
  destruct (JS.ltb (x %% 360) 0) eqn:L.
  - apply ltb_lt in L. lra.
  - exact E.
Qed.

Lemma normalizeAngle_over (x : Q) :
  360 <= x -> x < 720 -> normalizeAngle x == x - 360.
Proof.
  intros H0 H1. unfold normalizeAngle.
  assert (x %% 360 == x - 360) as E.
  { rewrite (rem_window x 360 1).
    - change (inject_Z 1) with 1. lra.
    - lra.
    - lra.
    - change (inject_Z 1) with 1. lra.
    - change (inject_Z (1 + 1)) with 2. lra. }
  destruct (JS.ltb (x %% 360) 0) eqn:L.
  - apply ltb_lt in L. lra.
  - exact E.
Qed.

(* ================================================================== *)
(** * Zodiac decomposition *)
(* ================================================================== *)

Lemma zodiac_longitude_range (l : Q) :
  0 <= zlongitude (getZodiacPosition l) /\
  zlongitude (getZodiacPosition l) < 360.
Proof.
  unfold getZodiacPosition. cbn [zlongitude].
  destruct (Qlt_le_dec l 0) as [Hl | Hl].
  - destruct (rem_nonpos l 360) as [H1 H2]; [lra | lra |].
    apply rem_nonneg; lra.
  - destruct (rem_nonneg l 360) as [H1 H2]; [lra | lra |].
    apply rem_nonneg; lra.
Qed.

(* ================================================================== *)
(** * The aspect detector *)
(* ================================================================== *)

Lemma separation_sym (a b : Q) : separation a b = separation b a.
Proof.
  unfold separation, JS.abs. now rewrite (Qabs_Qminus a b).
Qed.

(** C8. [calculateAspect(a, b)] and [calculateAspect(b, a)] return the
    same result: the same aspect record, field for field, or no aspect in
    both cases. *)
Theorem calculateAspect_symmetric (a b : Q) :
  calculateAspect a b = calculateAspect b a.
Proof.
  unfold calculateAspect. now rewrite separation_sym.
Qed.

Lemma matchAspect_none_comp (table : list (string * AspectConfig))
                            (d d' : Q) :
  d == d' -> matchAspect d' table = None -> matchAspect d table = None.
Proof.
  intros E. induction table as [| [n c] rest IH]; cbn [matchAspect]; [tauto |].
  assert (Qle_bool (JS.abs (d - cfg_angle c)) (cfg_orb c) =
          Qle_bool (JS.abs (d' - cfg_angle c)) (cfg_orb c)) as ->.
  { apply Qleb_comp; [| reflexivity]. unfold JS.abs. now rewrite E. }
  destruct (Qle_bool _ _); [discriminate | exact IH].
Qed.

(** C4. Two longitudes whose folded separation is exactly 90 degrees give
    the square aspect with orb 0 and [exact = true]; two longitudes whose
    folded separation is 98.5 degrees give no aspect. *)
Theorem calculateAspect_square_boundary (a1 b1 a2 b2 : Q) :
  separation a1 b1 == 90 ->
  separation a2 b2 == 98.5 ->
  (exists a, calculateAspect a1 b1 = Some a /\
             name a = "square"%string /\ orb a == 0 /\ exact a = true /\
             angle a == 90 /\ nature a = "challenging"%string) /\
  calculateAspect a2 b2 = None.
Proof.
  unfold calculateAspect. intros E E'. split.
  - set (d := separation a1 b1) in *. clearbody d.
    assert (forall o, Qabs (d - o) == Qabs (90 - o)) as Habs
      by (intros o; now rewrite E).
    unfold matchAspect, ASPECTS, JS.abs.
    cbn [cfg_angle cfg_orb cfg_symbol cfg_nature].
    rewrite (Qleb_comp _ _ (Habs 0) 8 8 (Qeq_refl 8)).
    rewrite (Qleb_comp _ _ (Habs 60) 6 6 (Qeq_refl 6)).
    rewrite (Qleb_comp _ _ (Habs 90) 8 8 (Qeq_refl 8)).
    change (Qle_bool (Qabs (90 - 0)) 8) with false.
    change (Qle_bool (Qabs (90 - 60)) 6) with false.
    change (Qle_bool (Qabs (90 - 90)) 8) with true.
    cbv iota. eexists. split; [reflexivity |].
    cbn [name orb exact angle nature].
    split; [reflexivity |]. split; [now rewrite (Habs 90) |].
    split; [| split; reflexivity].
    rewrite (ltb_comp _ _ (Habs 90) 1 1 (Qeq_refl 1)). reflexivity.
  - apply (matchAspect_none_comp ASPECTS _ 98.5 E'). reflexivity.
Qed.

Lemma calculateAspect_square_boundary_witness :
  (exists a, calculateAspect 350 80 = Some a /\
             name a = "square"%string /\ orb a == 0 /\ exact a = true /\
             angle a == 90 /\ nature a = "challenging"%string) /\
  calculateAspect 10 108.5 = None.
Proof.
  apply (calculateAspect_square_boundary 350 80 10 108.5).
  - vm_compute. reflexivity.
  - vm_compute. reflexivity.
Defined.

(* ================================================================== *)
(** * Julian Day conversion *)
(* ================================================================== *)

Section DayNumber.

Local Open Scope Z_scope.

Lemma leap_cases (y : Z) :
  (Calendar.isLeapYear y = true /\
   (y mod 4 = 0 /\ (y mod 100 <> 0 \/ y mod 400 = 0))) \/
  (Calendar.isLeapYear y = false /\
   (y mod 4 <> 0 \/ (y mod 100 = 0 /\ y mod 400 <> 0))).
Proof.
  unfold Calendar.isLeapYear.
  destruct (Z.eqb_spec (y mod 4) 0), (Z.eqb_spec (y mod 100) 0),
           (Z.eqb_spec (y mod 400) 0); simpl; lia.
Qed.

Lemma dayNumber_early (y m d : Z) :
  m <= 2 ->
  dayNumber y m d =
  (36525 * (y - 1 + 4716)) / 100 + (306001 * (m + 12 + 1)) / 10000 + d
  + (2 - (y - 1) / 100 + (y - 1) / 100 / 4).
Proof.
  intros H. unfold dayNumber. destruct (Z.leb_spec m 2); [reflexivity | lia].
Qed.

Lemma dayNumber_late (y m d : Z) :
  2 < m ->
  dayNumber y m d =
  (36525 * (y + 4716)) / 100 + (306001 * (m + 1)) / 10000 + d
  + (2 - y / 100 + y / 100 / 4).
Proof.
  intros H. unfold dayNumber. destruct (Z.leb_spec m 2); [lia | reflexivity].
Qed.

Lemma dayNumber_day (y m d : Z) : dayNumber y m d = dayNumber y m 0 + d.
Proof.
  unfold dayNumber. destruct (m <=? 2); lia.
Qed.

Lemma daysInMonth_bounds (y m : Z) : 28 <= Calendar.daysInMonth y m <= 31.
Proof.
  unfold Calendar.daysInMonth.
  destruct (m =? 2); [destruct (Calendar.isLeapYear y); lia |].
  destruct ((m =? 4) || (m =? 6) || (m =? 9) || (m =? 11))%bool; lia.
Qed.

(** The first of January never comes earlier in a later year. *)
Lemma dayNumber_jan_mono (y1 y2 : Z) :
  y1 <= y2 -> dayNumber y1 1 1 <= dayNumber y2 1 1.
Proof.
  intros H. rewrite !dayNumber_early by lia.
  Z.div_mod_to_equations; lia.
Qed.

(** New Year's Eve is followed by New Year's Day. *)
Lemma dayNumber_year_step (y : Z) : dayNumber y 12 31 < dayNumber (y + 1) 1 1.
Proof.
  rewrite (dayNumber_late y 12), (dayNumber_early (y + 1) 1) by lia.
  Z.div_mod_to_equations; lia.
Qed.

(** A month's day 0 plus its length is the next month's day 0. *)
Lemma dayNumber_month_step (y m : Z) :
  1 <= m -> m <= 11 ->
  dayNumber y m 0 + Calendar.daysInMonth y m = dayNumber y (m + 1) 0.
Proof.
  intros H1 H2.
  assert (m = 1 \/ m = 2 \/ m = 3 \/ m = 4 \/ m = 5 \/ m = 6 \/
          m = 7 \/ m = 8 \/ m = 9 \/ m = 10 \/ m = 11) as C by lia.
  unfold Calendar.daysInMonth.
  destruct (leap_cases y) as [[-> L] | [-> L]];
    repeat (destruct C as [C | C]); subst m;
    match goal with
    | |- context [dayNumber y 1 0] =>
        rewrite (dayNumber_early y 1), (dayNumber_early y (1 + 1)) by lia
    | |- context [dayNumber y 2 0] =>
        rewrite (dayNumber_early y 2), (dayNumber_late y (2 + 1)) by lia
    | |- context [dayNumber y ?k 0] =>
        rewrite (dayNumber_late y k), (dayNumber_late y (k + 1)) by lia
    end;
    cbv [Z.eqb Pos.eqb Datatypes.orb];
    Z.div_mod_to_equations; lia.
Qed.

Lemma dayNumber_month_mono (y : Z) (n : nat) : forall m,
  1 <= m -> m + Z.of_nat n <= 12 ->
  dayNumber y m 0 <= dayNumber y (m + Z.of_nat n) 0.
Proof.
  induction n as [| n IH]; intros m H1 H2.
  - rewrite Z.add_0_r. lia.
  - rewrite Nat2Z.inj_succ in *.
    replace (m + Z.succ (Z.of_nat n)) with ((m + 1) + Z.of_nat n) by lia.
    pose proof (dayNumber_month_step y m H1 ltac:(lia)) as S.
    pose proof (daysInMonth_bounds y m).
    specialize (IH (m + 1) ltac:(lia) ltac:(lia)). lia.
Qed.

Lemma dayNumber_month_lt (y m1 m2 d1 d2 : Z) :
  1 <= m1 -> m1 < m2 -> m2 <= 12 ->
  d1 <= Calendar.daysInMonth y m1 -> 1 <= d2 ->
  dayNumber y m1 d1 < dayNumber y m2 d2.
Proof.
  intros H1 H12 H2 Hd1 Hd2.
  rewrite (dayNumber_day y m1 d1), (dayNumber_day y m2 d2).
  pose proof (dayNumber_month_step y m1 H1 ltac:(lia)) as S.
  pose proof (dayNumber_month_mono y (Z.to_nat (m2 - (m1 + 1))) (m1 + 1)
                ltac:(lia) ltac:(lia)) as Mo.
  replace (m1 + 1 + Z.of_nat (Z.to_nat (m2 - (m1 + 1)))) with m2 in Mo by lia.
  lia.
Qed.

Lemma dayNumber_year_lt (y1 y2 m1 m2 d1 d2 : Z) :
  y1 < y2 -> 1 <= m1 <= 12 -> 1 <= m2 <= 12 ->
  d1 <= Calendar.daysInMonth y1 m1 -> 1 <= d2 ->
  dayNumber y1 m1 d1 < dayNumber y2 m2 d2.
Proof.
  intros Hy Hm1 Hm2 Hd1 Hd2.
  assert (dayNumber y1 m1 d1 <= dayNumber y1 12 31) as A.
  { assert (m1 < 12 \/ m1 = 12) as [C | ->] by lia.
    - pose proof (dayNumber_month_lt y1 m1 12 d1 31). lia.
    - rewrite (dayNumber_day y1 12 d1), (dayNumber_day y1 12 31).
      change (Calendar.daysInMonth y1 12) with 31 in Hd1. lia. }
  pose proof (dayNumber_year_step y1) as B.
  pose proof (dayNumber_jan_mono (y1 + 1) y2 ltac:(lia)) as C.
  assert (dayNumber y2 1 1 <= dayNumber y2 m2 d2) as D.
  { assert (1 < m2 \/ m2 = 1) as [E | ->] by lia.
    - pose proof (dayNumber_month_lt y2 1 m2 1 d2).
      pose proof (daysInMonth_bounds y2 1). lia.
    - rewrite (dayNumber_day y2 1 1), (dayNumber_day y2 1 d2). lia. }
  lia.
Qed.

End DayNumber.

Lemma floor_ratio (q : Q) (n d : Z) :
  q == inject_Z n / inject_Z d -> JS.floor q = inject_Z (n / d).
Proof.
  intros E. unfold JS.floor. f_equal.
  rewrite (Qfloor_comp _ _ E). symmetry. apply Zdiv_Qdiv.
Qed.

(** On whole year, month and day, [dateToJulianDay] is the day number plus
    the fraction of the day, less 1524.5. *)
Lemma dateToJulianDay_dayNumber (y m d : Z) (h : Q) :
  dateToJulianDay (inject_Z y) (inject_Z m) (inject_Z d) h ==
  inject_Z (dayNumber y m d) + h / 24 - 1524.5.
Proof.
  unfold dateToJulianDay.
  assert (Qle_bool (inject_Z m) 2 = (m <=? 2)%Z) as ->.
  { destruct (Z.leb_spec m 2) as [L | L].
    - apply Qle_bool_iff. change 2 with (inject_Z 2). now rewrite <- Zle_Qle.
    - apply leb_gt. change 2 with (inject_Z 2). now rewrite <- Zlt_Qlt. }
  destruct (Z.leb_spec m 2) as [L | L].
  - rewrite dayNumber_early by exact L. cbv beta iota zeta.
    rewrite (floor_ratio ((inject_Z y - 1) / 100) (y - 1) 100).
    2:{ unfold Z.sub. rewrite inject_Z_plus, inject_Z_opp.
        change (inject_Z 1) with 1. change (inject_Z 100) with 100.
        field. }
    rewrite (floor_ratio (inject_Z ((y - 1) / 100) / 4) ((y - 1) / 100) 4)
      by reflexivity.
    rewrite (floor_ratio (365.25 * (inject_Z y - 1 + 4716))
                         (36525 * (y - 1 + 4716)) 100).
    2:{ unfold Z.sub. rewrite inject_Z_mult, !inject_Z_plus, inject_Z_opp.
        change (inject_Z 36525) with 36525. change (inject_Z 1) with 1.
        change (inject_Z 4716) with 4716. change (inject_Z 100) with 100.
        field. }
    rewrite (floor_ratio (30.6001 * (inject_Z m + 12 + 1))
                         (306001 * (m + 12 + 1)) 10000).
    2:{ rewrite inject_Z_mult, !inject_Z_plus.
        change (inject_Z 306001) with 306001. change (inject_Z 12) with 12.
        change (inject_Z 1) with 1. change (inject_Z 10000) with 10000.
        field. }
    unfold Z.sub. rewrite !inject_Z_plus, inject_Z_opp.
    change (inject_Z 2) with 2. lra.
  - rewrite dayNumber_late by exact L. cbv beta iota zeta.
    rewrite (floor_ratio (inject_Z y / 100) y 100) by reflexivity.
    rewrite (floor_ratio (inject_Z (y / 100) / 4) (y / 100) 4) by reflexivity.
    rewrite (floor_ratio (365.25 * (inject_Z y + 4716))
                         (36525 * (y + 4716)) 100).
    2:{ rewrite inject_Z_mult, !inject_Z_plus.
        change (inject_Z 36525) with 36525.
        change (inject_Z 4716) with 4716. change (inject_Z 100) with 100.
        field. }
    rewrite (floor_ratio (30.6001 * (inject_Z m + 1))
                         (306001 * (m + 1)) 10000).
    2:{ rewrite inject_Z_mult, !inject_Z_plus.
        change (inject_Z 306001) with 306001.
        change (inject_Z 1) with 1. change (inject_Z 10000) with 10000.
        field. }
    unfold Z.sub. rewrite !inject_Z_plus, inject_Z_opp.
    change (inject_Z 2) with 2. lra.
Qed.

Example dateToJulianDay_J2000 : dateToJulianDay 2000 1 1 12 == J2000.
Proof. vm_compute. reflexivity. Qed.

(* ================================================================== *)
(** * Local civil time to UTC *)
(* ================================================================== *)

Section LocalToUtc.

Import BirthChart.

Lemma isLeapYear_1900 (y : Z) :
  (1 <= y <= 99)%Z -> Calendar.isLeapYear (1900 + y) = Calendar.isLeapYear y.
Proof.
  intros H.
  destruct (leap_cases (1900 + y)) as [[-> L] | [-> L]],
           (leap_cases y) as [[-> L'] | [-> L']];
    try reflexivity; exfalso; Z.div_mod_to_equations; lia.
Qed.

(** Outside year 0, [getDaysInMonth] is the Gregorian month length. *)
Lemma getDaysInMonth_gregorian (m y : Z) :
  (1 <= m <= 12)%Z -> y <> 0%Z ->
  getDaysInMonth m y = Calendar.daysInMonth y m.
Proof.
  intros Hm Hy. unfold getDaysInMonth, Calendar.Date_lastDayBefore.
  assert (((m - 1) / 12 = 0)%Z) as -> by (apply Z.div_small; lia).
  assert (((m - 1) mod 12 + 1 = m)%Z) as -> by (rewrite Z.mod_small; lia).
  rewrite Z.add_0_r.
  destruct ((0 <=? y)%Z && (y <=? 99)%Z) eqn:E; [| reflexivity].
  apply andb_true_iff in E. destruct E as [E1 E2].
  apply Z.leb_le in E1, E2.
  unfold Calendar.daysInMonth. now rewrite isLeapYear_1900 by lia.
Qed.

(** In year 0 the built-in [Date] reads the year as 1900, which has no
    29 February. *)
Example getDaysInMonth_year_0 :
  getDaysInMonth 2 0 = 28%Z /\ Calendar.daysInMonth 0 2 = 29%Z.
Proof. split; reflexivity. Qed.




End LocalToUtc.

(* ================================================================== *)
(** * The position calculator *)
(* ================================================================== *)

Lemma lookup_unrecognized (T : Q) (code : Z) :
  PLANETS.recognized code = false -> lookup code (elements T) = None.
Proof.
  unfold PLANETS.recognized, PLANETS.entries, existsb. cbn [snd].
  intros H. repeat (apply orb_false_iff in H; destruct H as [? H]).
  unfold elements, lookup.
  repeat match goal with
         | E : Z.eqb ?k code = false |- _ => rewrite E; clear E
         end.
  reflexivity.
Qed.

Lemma lookup_mars (T : Q) :
  lookup PLANETS.MARS (elements T) = Some marsElements.
Proof. reflexivity. Qed.

Section PositionFacts.

Context {M : JSMath}.

(** An unrecognised code makes [calculateOuterPlanet] read Mars's entry. *)
Lemma calculateOuterPlanet_unrecognized (JD : Q) (code : Z) :
  PLANETS.recognized code = false ->
  calculateOuterPlanet JD code =
  JS.Return (outerPlanetFrom JD code marsElements).
Proof.
  intros H. unfold calculateOuterPlanet.
  rewrite (lookup_unrecognized _ code H), lookup_mars. reflexivity.
Qed.

Lemma calculatePlanetPosition_unrecognized (JD : Q) (code : Z) :
  PLANETS.recognized code = false ->
  calculatePlanetPosition JD code =
  JS.Return
    {| body := outerPlanetFrom JD code marsElements;
       zodiac := getZodiacPosition
                   (longitude (outerPlanetFrom JD code marsElements)) |}.
Proof.
  intros H. unfold calculatePlanetPosition.
  rewrite (calculateOuterPlanet_unrecognized JD code H).
  unfold PLANETS.recognized, PLANETS.entries, existsb in H. cbn [snd] in H.
  repeat (apply orb_false_iff in H; destruct H as [? H]).
  rewrite !(Z.eqb_sym code).
  repeat match goal with
         | E : Z.eqb ?k code = false |- _ => rewrite ?E; clear E
         end.
  reflexivity.
Qed.

(** C1, as amended.  For a body identifier that is not one of the
    recognised codes the position calculator does not fail: it returns the
    position computed from Mars's orbital elements, with the longitude,
    latitude and distance of Mars. *)
Theorem unrecognized_body_uses_mars_elements (JD : Q) (code : Z) :
  PLANETS.recognized code = false ->
  let b := outerPlanetFrom JD code marsElements in
  calculateOuterPlanet JD code = JS.Return b /\
  calculatePlanetPosition JD code =
    JS.Return {| body := b; zodiac := getZodiacPosition (longitude b) |} /\
  (forall mars, calculateOuterPlanet JD PLANETS.MARS = JS.Return mars ->
     longitude b = longitude mars /\ latitude b = latitude mars /\
     distance b = distance mars).
Proof.
  intros H b.
  split; [exact (calculateOuterPlanet_unrecognized JD code H) |].
  split; [exact (calculatePlanetPosition_unrecognized JD code H) |].
  assert (Z.eqb code PLANETS.TRUE_NODE = false) as Hn.
  { unfold PLANETS.recognized, PLANETS.entries, existsb in H. cbn [snd] in H.
    repeat (apply orb_false_iff in H; destruct H as [? H]).
    rewrite (Z.eqb_sym code). assumption. }
  intros mars Em. unfold calculateOuterPlanet in Em.
  rewrite lookup_mars in Em. cbn [orElse] in Em.
  injection Em as <-. subst b. unfold outerPlanetFrom.
  rewrite Hn. change (Z.eqb PLANETS.MARS PLANETS.TRUE_NODE) with false.
  cbv beta iota zeta. cbn [longitude latitude distance].
  split; [reflexivity |]. split; reflexivity.
Qed.

End PositionFacts.

Lemma unrecognized_body_uses_mars_elements_witness :
  PLANETS.recognized 10 = false /\
  calculateOuterPlanet (M := approxMath) 2451545 10 =
  JS.Return (outerPlanetFrom 2451545 10 marsElements).
Proof.
  split; [reflexivity |].
  exact (proj1 (unrecognized_body_uses_mars_elements
                  (M := approxMath) 2451545 10 eq_refl)).
Defined.

(** C1 as the specification words it fails: code 10 is not a recognised
    body, and the position calculator returns a position for it instead of
    failing with [InvalidBodyError]. *)
Lemma unrecognized_body_returns_position :
  PLANETS.recognized 10 = false /\
  calculatePlanetPosition (M := approxMath) 2451545 10
    <> JS.Throw JS.InvalidBodyError /\
  exists p, calculatePlanetPosition (M := approxMath) 2451545 10
            = JS.Return p /\
            body p = outerPlanetFrom 2451545 10 marsElements.
Proof.
  split; [reflexivity |].
  rewrite (calculatePlanetPosition_unrecognized (M := approxMath)
             2451545 10 eq_refl).
  split; [discriminate |]. eexists. split; reflexivity.
Qed.

(* ================================================================== *)
(** * Retrograde determination *)
(* ================================================================== *)

Section Retrograde.

Context {M : JSMath}.

(** [Math.sqrt] of a positive number is positive. *)
Hypothesis sqrt_pos : forall x : Q, 0 < x -> 0 < Math_sqrt x.

(** Away from the lunar node, the result of [calculateOuterPlanet] is a
    longitude, a latitude and a distance, with flag and speed decided by
    the elongation from the Sun. *)
Lemma outerPlanetFrom_shape (JD : Q) (code : Z) (el : Elements) :
  code <> PLANETS.TRUE_NODE ->
  exists lon lat dist : Q,
    let elongation :=
      normalizeAngle (lon - longitude (calculateSunPosition JD)) in
    let retro := Z.ltb PLANETS.MARS code &&
                 (JS.gtb elongation 120 && JS.ltb elongation 240) in
    outerPlanetFrom JD code el =
    {| longitude := lon; latitude := lat; distance := dist;
       longitudeSpeed :=
         360 / (el_a el * el_a el * Math_sqrt (el_a el) * 365.25)
         * (if retro then -1 else 1);
       isRetrograde := retro |}.
Proof.
  intros Hn. apply Z.eqb_neq in Hn. unfold outerPlanetFrom. rewrite Hn.
  do 3 eexists. cbv zeta. reflexivity.
Qed.

Lemma outerPlanetFrom_retrograde (JD : Q) (code : Z) (el : Elements) :
  0 < el_a el -> (PLANETS.MARS < code)%Z -> code <> PLANETS.TRUE_NODE ->
  let b := outerPlanetFrom JD code el in
  let elongation :=
    normalizeAngle (longitude b - longitude (calculateSunPosition JD)) in
  (isRetrograde b = true <-> 120 < elongation /\ elongation < 240) /\
  (isRetrograde b = true -> longitudeSpeed b < 0) /\
  (isRetrograde b = false -> 0 < longitudeSpeed b).
Proof.
  intros Ha Hc Hn.
  destruct (outerPlanetFrom_shape JD code el Hn) as (lon & lat & dist & E).
  cbv zeta in E. cbv zeta. rewrite E. clear E.
  apply Z.ltb_lt in Hc. rewrite Hc.
  cbn [longitude isRetrograde longitudeSpeed andb].
  set (elong := normalizeAngle (lon - longitude (calculateSunPosition JD))).
  clearbody elong.
  assert (0 < el_a el * el_a el * Math_sqrt (el_a el) * 365.25) as Hden.
  { pose proof (sqrt_pos _ Ha).
    repeat apply Qmult_lt_0_compat; lra. }
  set (den := el_a el * el_a el * Math_sqrt (el_a el) * 365.25) in *.
  assert (0 < 360 / den) as Hdm by (apply Qlt_shift_div_l; lra).
  set (dm := 360 / den) in *. clearbody dm.
  unfold JS.gtb. split; [| split].
  - rewrite andb_true_iff, !ltb_lt. tauto.
  - intros ->. lra.
  - intros ->. lra.
Qed.

(** C3. For each planet beyond Mars (Jupiter, Saturn, Uranus, Neptune,
    Pluto) and every Julian Day, the position calculator returns a
    position whose retrograde flag is set exactly when the elongation from
    the Sun (planet longitude minus Sun longitude, normalised to
    [[0, 360)]) lies strictly between 120 and 240 degrees; the speed is
    negative when the flag is set and positive when it is not. *)
Theorem retrograde_beyond_mars (JD : Q) (code : Z) :
  In code [PLANETS.JUPITER; PLANETS.SATURN; PLANETS.URANUS;
           PLANETS.NEPTUNE; PLANETS.PLUTO] ->
  exists b,
    calculateOuterPlanet JD code = JS.Return b /\
    calculatePlanetPosition JD code =
      JS.Return {| body := b; zodiac := getZodiacPosition (longitude b) |} /\
    let elongation :=
      normalizeAngle (longitude b - longitude (calculateSunPosition JD)) in
    (isRetrograde b = true <-> 120 < elongation /\ elongation < 240) /\
    (isRetrograde b = true -> longitudeSpeed b < 0) /\
    (isRetrograde b = false -> 0 < longitudeSpeed b).
Proof.
  intros Hin.
  assert (exists el, lookup code (elements ((JD - J2000) / 36525)) = Some el
                     /\ 0 < el_a el /\ (PLANETS.MARS < code)%Z
                     /\ code <> PLANETS.TRUE_NODE
                     /\ Z.eqb code PLANETS.SUN = false
                     /\ Z.eqb code PLANETS.MOON = false)
    as (el & El & Ha & Hc & Hn & Hs & Hm).
  { cbn [In] in Hin.
    destruct Hin as [<- | [<- | [<- | [<- | [<- | []]]]]];
      (eexists; split; [reflexivity |]);
      (split; [reflexivity |]); (split; [reflexivity |]);
      (split; [discriminate |]); split; reflexivity. }
  assert (calculateOuterPlanet JD code =
          JS.Return (outerPlanetFrom JD code el)) as Eo.
  { unfold calculateOuterPlanet. rewrite El. reflexivity. }
  exists (outerPlanetFrom JD code el). split; [exact Eo |]. split.
  - unfold calculatePlanetPosition. rewrite Hs, Hm, Eo. reflexivity.
  - exact (outerPlanetFrom_retrograde JD code el Ha Hc Hn).
Qed.

End Retrograde.

Lemma heron_pos (n : nat) (x g : Q) :
  0 < x -> 0 < g -> 0 < Approx.heron n x g.
Proof.
  intros Hx. revert g.
  induction n as [| n IH]; intros g Hg; cbn [Approx.heron].
  - exact Hg.
  - apply IH. rewrite Qred_correct.
    assert (0 < x / g) by (apply Qlt_shift_div_l; lra).
    assert ((g + x / g) / 2 == (g + x / g) * (1 # 2)) as -> by (field; lra).
    lra.
Qed.

(** The rational instance meets the assumption on [Math.sqrt]. *)
Lemma approx_sqrt_pos (x : Q) :
  0 < x -> 0 < Math_sqrt (JSMath := approxMath) x.
Proof.
  intros Hx. cbn [Math_sqrt approxMath]. unfold Approx.sqrt.
  destruct (Qle_bool x 0) eqn:E; [apply Qle_bool_iff in E; lra |].
  apply heron_pos; [exact Hx |]. destruct (Qle_bool x 1); lra.
Qed.

Lemma retrograde_beyond_mars_witness :
  exists b,
    calculateOuterPlanet (M := approxMath) 2451545 PLANETS.JUPITER
      = JS.Return b /\
    (isRetrograde b = true -> longitudeSpeed b < 0) /\
    (isRetrograde b = false -> 0 < longitudeSpeed b).
Proof.
  destruct (retrograde_beyond_mars (M := approxMath) approx_sqrt_pos 2451545
              PLANETS.JUPITER) as (b & Eb & _ & _ & Hneg & Hpos).
  - cbn [In]. left. reflexivity.
  - exists b. split; [exact Eb |]. split; assumption.
Defined.

(* ================================================================== *)
(** * House placement *)
(* ================================================================== *)

Lemma cuspsArray_houseCusps (a : Q) :
  cuspsArray (houseCusps a) houseNumbers =
  JS.Return (map (cuspOfHouse a) houseNumbers).
Proof. reflexivity. Qed.

Lemma nth_cusps (a : Q) (j : nat) :
  (j < 12)%nat ->
  nth j (map (cuspOfHouse a) houseNumbers) 0 = cuspOfHouse a (Z.of_nat j + 1).
Proof.
  intros H. do 12 (destruct j as [| j]; [reflexivity |]). lia.
Qed.

Lemma next_index (j : nat) :
  (j < 12)%nat ->
  (Z.of_nat ((j + 1) mod 12) + 1 = nextHouse (Z.of_nat j + 1))%Z.
Proof.
  intros H. do 12 (destruct j as [| j]; [reflexivity |]). lia.
Qed.


Lemma hit_cusps (a p : Q) (j : nat) :
  (j < 12)%nat ->
  hit p (map (cuspOfHouse a) houseNumbers) j =
  inHouseInterval p (cuspOfHouse a (Z.of_nat j + 1))
                    (cuspOfHouse a (nextHouse (Z.of_nat j + 1))).
Proof.
  intros H. unfold hit. rewrite !nth_cusps.
  - now rewrite next_index.
  - apply Nat.mod_upper_bound. discriminate.
  - exact H.
Qed.

Lemma cuspOfHouse_low (a : Q) (i : Z) :
  0 <= a -> (1 <= i)%Z -> a + (inject_Z i - 1) * 30 < 360 ->
  cuspOfHouse a i == a + (inject_Z i - 1) * 30.
Proof.
  intros Ha Hi H. apply normalizeAngle_id; [| exact H].
  rewrite Zle_Qle in Hi. change (inject_Z 1) with 1 in Hi. lra.
Qed.

Lemma cuspOfHouse_high (a : Q) (i : Z) :
  a < 360 -> (i <= 12)%Z -> 360 <= a + (inject_Z i - 1) * 30 ->
  cuspOfHouse a i == a + (inject_Z i - 1) * 30 - 360.
Proof.
  intros Ha Hi H. apply normalizeAngle_over; [exact H |].
  rewrite Zle_Qle in Hi. change (inject_Z 12) with 12 in Hi. lra.
Qed.


(** The test of the source is membership in the half-open wrapped
    interval. *)
Lemma inHouseInterval_spec (p s e : Q) :
  inHouseInterval p s e = true <-> inWrappedInterval p s e.
Proof.
  unfold inHouseInterval, inWrappedInterval.
  destruct (JS.ltb e s) eqn:W.
  - apply ltb_lt in W. rewrite orb_true_iff, geb_ge, ltb_lt. split.
    + intros H. left. split; assumption.
    + intros [[_ H] | [H _]]; [exact H | lra].
  - apply ltb_ge in W. rewrite andb_true_iff, geb_ge, ltb_lt. split.
    + intros H. right. split; [exact W | exact H].
    + intros [[H _] | [_ H]]; [lra | exact H].
Qed.




(** When one index alone passes the test, the scan returns it. *)
Lemma houseScan_unique (p : Q) (arr : list Q) (l : list nat) (i0 : nat) :
  In i0 l -> hit p arr i0 = true ->
  (forall j, In j l -> hit p arr j = true -> j = i0) ->
  houseScan p arr l = Some (Z.of_nat i0 + 1)%Z.
Proof.
  intros Hin Hhit Huniq. induction l as [| j rest IH]; [destruct Hin |].
  cbn [houseScan]. fold (hit p arr j).
  destruct (hit p arr j) eqn:Ej.
  - rewrite (Huniq j (or_introl eq_refl) Ej). reflexivity.
  - apply IH.
    + destruct Hin as [-> | Hin]; [congruence | exact Hin].
    + intros k Hk. apply Huniq. right. exact Hk.
Qed.

Lemma getHousePosition_scan (a p : Q) (h : Z) :
  houseScan p (map (cuspOfHouse a) houseNumbers) (seq 0 12) = Some h ->
  getHousePosition p (houseCusps a) = JS.Return h.
Proof.
  intros H. unfold getHousePosition.
  rewrite cuspsArray_houseCusps. cbn [JS.bind]. rewrite H. reflexivity.
Qed.

Section HouseFacts.

Context {M : JSMath}.

(** The cusps of a computed frame lie thirty degrees apart, starting from
    an Ascendant in [[0, 360)]. *)
Lemma calculateHouses_cusps (JD lat lon : Q) :
  exists a, 0 <= a /\ a < 360 /\
            cusps (calculateHouses JD lat lon) = houseCusps a.
Proof.
  unfold calculateHouses. cbv zeta. cbn [cusps].
  eexists. split; [| split; [| reflexivity]]; apply normalizeAngle_range.
Qed.


(** C7. In a house frame produced by [calculateHouses] whose interval from
    cusp 12 to cusp 1 crosses the 360/0 boundary (cusp 1 lies below cusp
    12), a planet longitude in that wrapped interval, at or after cusp 12
    or before cusp 1, is placed in house 12: [getHousePosition] returns 12,
    it neither throws nor falls back to house 1. *)
Theorem getHousePosition_wraparound (JD lat lon p : Q)
                                    (c1 c12 : HouseCusp) :
  let frame := calculateHouses JD lat lon in
  lookup 1%Z (cusps frame) = Some c1 ->
  lookup 12%Z (cusps frame) = Some c12 ->
  cusp c1 < cusp c12 ->
  cusp c12 <= p \/ p < cusp c1 ->
  getHousePosition p (cusps frame) = JS.Return 12%Z.
Proof.
  intros frame.
  destruct (calculateHouses_cusps JD lat lon) as (a & Ha0 & Ha1 & Ec).
  subst frame. rewrite Ec. clear Ec.
  intros E1 E12 Hwrap Hp.
  change (lookup 1%Z (houseCusps a)) with
    (Some {| cusp := cuspOfHouse a 1;
             cuspZodiac := getZodiacPosition (cuspOfHouse a 1) |}) in E1.
  change (lookup 12%Z (houseCusps a)) with
    (Some {| cusp := cuspOfHouse a 12;
             cuspZodiac := getZodiacPosition (cuspOfHouse a 12) |}) in E12.
  injection E1 as <-. injection E12 as <-. cbn [cusp] in Hwrap, Hp.
  assert (cuspOfHouse a 1 == a) as F1.
  { rewrite cuspOfHouse_low; try lia; change (inject_Z 1) with 1; lra. }
  assert (a < 30) as Hlow.
  { destruct (Qlt_le_dec a 30) as [L | L]; [exact L |].
    rewrite (cuspOfHouse_high a 12) in Hwrap; try lia;
      change (inject_Z 12) with 12; try lra.
    change (inject_Z 12) with 12 in Hwrap. lra. }
  assert (forall i, (1 <= i <= 12)%Z ->
            cuspOfHouse a i == a + (inject_Z i - 1) * 30) as Fi.
  { intros i Hi. apply cuspOfHouse_low; [exact Ha0 | lia |].
    assert (inject_Z i <= 12)
      by (change 12 with (inject_Z 12); rewrite <- Zle_Qle; lia).
    lra. }
  apply (getHousePosition_scan a p).
  change (Some 12%Z) with (Some (Z.of_nat 11 + 1)%Z).
  apply houseScan_unique.
  - apply in_seq. lia.
  - rewrite hit_cusps by lia. apply inHouseInterval_spec.
    change (nextHouse (Z.of_nat 11 + 1)) with 1%Z.
    change (Z.of_nat 11 + 1)%Z with 12%Z. left. split; [lra | lra].
  - intros j Hj Hhit. apply in_seq in Hj.
    assert (j = 11 \/ j < 11)%nat as [-> | Hlt] by lia; [reflexivity |].
    exfalso. rewrite hit_cusps in Hhit by lia.
    apply inHouseInterval_spec in Hhit. unfold inWrappedInterval in Hhit.
    replace (nextHouse (Z.of_nat j + 1)) with (Z.of_nat j + 1 + 1)%Z in Hhit
      by (unfold nextHouse; destruct (Z.eqb_spec (Z.of_nat j + 1) 12); lia).
    pose proof (Fi (Z.of_nat j + 1)%Z ltac:(lia)) as G1.
    pose proof (Fi (Z.of_nat j + 1 + 1)%Z ltac:(lia)) as G2.
    pose proof (Fi 12%Z ltac:(lia)) as G12.
    rewrite (inject_Z_plus (Z.of_nat j + 1) 1) in G2.
    change (inject_Z 1) with 1 in G2. change (inject_Z 12) with 12 in G12.
    assert (1 <= inject_Z (Z.of_nat j + 1) /\
            inject_Z (Z.of_nat j + 1) <= 11) as [HI1 HI2].
    { split.
      - change 1 with (inject_Z 1). rewrite <- Zle_Qle. lia.
      - change 11 with (inject_Z 11). rewrite <- Zle_Qle. lia. }
    set (I := inject_Z (Z.of_nat j + 1)) in *.
    set (c := cuspOfHouse a (Z.of_nat j + 1)) in *.
    set (c' := cuspOfHouse a (Z.of_nat j + 1 + 1)) in *.
    set (k1 := cuspOfHouse a 1) in *. set (k12 := cuspOfHouse a 12) in *.
    clearbody I c c' k1 k12. lra.
Qed.

End HouseFacts.


Lemma getHousePosition_wraparound_witness :
  getHousePosition 350 (cusps (calculateHouses (M := approxMath)
                                 2451545 0 0)) = JS.Return 12%Z.
Proof.
  destruct (lookup 1%Z (cusps (calculateHouses (M := approxMath)
                                 2451545 0 0))) as [c1 |] eqn:E1;
    [| vm_compute in E1; discriminate E1].
  destruct (lookup 12%Z (cusps (calculateHouses (M := approxMath)
                                  2451545 0 0))) as [c12 |] eqn:E12;
    [| vm_compute in E12; discriminate E12].
  apply (getHousePosition_wraparound (M := approxMath)
           2451545 0 0 350 c1 c12 E1 E12).
  - vm_compute in E1. vm_compute in E12.
    injection E1 as <-. injection E12 as <-. vm_compute. reflexivity.
  - left. vm_compute in E12. injection E12 as <-.
    vm_compute. discriminate.
Defined.

(* ================================================================== *)
(** * The model at work *)
(* ================================================================== *)

(** 280.5 degrees is 10 degrees 30 minutes of Capricorn. *)
Example getZodiacPosition_capricorn :
  let z := getZodiacPosition 280.5 in
  sign z = Some "Capricorn"%string /\ signIndex z = 9%Z /\
  degree z = 10%Z /\ minutes z = 30%Z /\
  formatted z = "10°30' Capricorn"%string.
Proof. vm_compute. repeat split. Qed.

(** At the J2000.0 epoch the Sun stands near 280 degrees, in Capricorn
    (with the rational [Math] instance). *)
Example sun_at_J2000 :
  exists p, calculatePlanetPosition (M := approxMath) J2000 PLANETS.SUN
            = JS.Return p /\
            Qfloor (positionLongitude p) = 280%Z /\
            sign (zodiac p) = Some "Capricorn"%string /\
            isRetrograde (body p) = false.
Proof.
  eexists. split; [reflexivity |]. vm_compute. repeat split.
Qed.

(** The lunar node is always flagged retrograde. *)
Example true_node_retrograde :
  exists b, calculateOuterPlanet (M := approxMath) J2000 PLANETS.TRUE_NODE
            = JS.Return b /\
            isRetrograde b = true /\ longitudeSpeed b == -0.053.
Proof.
  eexists. split; [reflexivity |]. split; vm_compute; reflexivity.
Qed.

(** 23:00 on New Year's Eve at offset -5.5 is 04:30 UTC on New Year's
    Day. *)
Example toUtc_new_year :
  let u := BirthChart.toUtc
             {| BirthChart.year := 2023; BirthChart.month := 12;
                BirthChart.day := 31; BirthChart.hour := 23;
                BirthChart.minute := 0; BirthChart.latitude := 0;
                BirthChart.longitude := 0;
                BirthChart.timezone := Some (-5.5) |} in
  BirthChart.utcYear u = 2024%Z /\ BirthChart.utcMonth u = 1%Z /\
  BirthChart.utcDay u = 1%Z /\ BirthChart.adjustedUtcHour u == 4.5.
Proof.
  cbv zeta. split; [reflexivity |]. split; [reflexivity |].
  split; [reflexivity |]. vm_compute. reflexivity.
Qed.

(** A separation of 175 degrees is an opposition with orb 5; 30 degrees is
    no aspect. *)
Example calculateAspect_samples :
  (exists a, calculateAspect 0 175 = Some a /\
             name a = "opposition"%string /\ orb a == 5 /\ exact a = false)
  /\ calculateAspect 0 30 = None.
Proof.
  split; [| reflexivity].
  eexists. split; [reflexivity |]. split; [reflexivity |].
  split; [vm_compute; reflexivity | reflexivity].
Qed.


(* ================================================================== *)
(** * Zodiac placement *)
(* ================================================================== *)

Lemma Qfloor_range (q : Q) (lo hi : Z) :
  inject_Z lo <= q -> q < inject_Z (hi + 1) -> (lo <= Qfloor q <= hi)%Z.
Proof.
  intros Hlo Hhi.
  pose proof (Qfloor_le q) as F0. pose proof (Qlt_floor q) as F1.
  assert (inject_Z lo < inject_Z (Qfloor q + 1)) as H1 by lra.
  assert (inject_Z (Qfloor q) < inject_Z (hi + 1)) as H2 by lra.
  rewrite <- Zlt_Qlt in H1, H2. lia.
Qed.

(** The index of the sign is one of 0 to 11. *)
Lemma zodiac_signIndex_range (l : Q) :
  (0 <= signIndex (getZodiacPosition l) <= 11)%Z.
Proof.
  pose proof (zodiac_longitude_range l) as [R0 R1].
  unfold getZodiacPosition in *. cbn [zlongitude signIndex] in *.
  set (nl := (l %% 360 + 360) %% 360) in *.
  apply Qfloor_range.
  - change (inject_Z 0) with 0. apply Qle_shift_div_l; lra.
  - change (inject_Z (11 + 1)) with 12. apply Qlt_shift_div_r; lra.
Qed.

(** An index from 0 to 11 names a sign of the table. *)
Lemma signName_some (i : Z) :
  (0 <= i <= 11)%Z ->
  exists s, signName i = Some s /\ nth_error SIGNS (Z.to_nat i) = Some s.
Proof.
  intros H. unfold signName.
  destruct (Z.ltb_spec i 0) as [L | L]; [lia |].
  destruct (nth_error SIGNS (Z.to_nat i)) as [s |] eqn:E.
  - exists s. split; reflexivity.
  - apply nth_error_None in E. cbn [SIGNS List.length] in E. lia.
Qed.

(** Every longitude falls in a sign of the table. *)
Lemma zodiac_sign_some (l : Q) :
  exists s, sign (getZodiacPosition l) = Some s /\ In s SIGNS.
Proof.
  destruct (signName_some _ (zodiac_signIndex_range l)) as (s & Es & En).
  exists s. split; [exact Es | exact (nth_error_In _ _ En)].
Qed.

(** X2. Whatever the longitude, the zodiac decomposition is well formed:
    the sign index is one of 0 to 11 and names a sign of the table, the
    degree is one of 0 to 29 and the minutes one of 0 to 59. *)
Theorem getZodiacPosition_ranges (l : Q) :
  let z := getZodiacPosition l in
  (0 <= signIndex z <= 11)%Z /\
  (0 <= degree z <= 29)%Z /\
  (0 <= minutes z <= 59)%Z /\
  exists s, sign z = Some s /\
            nth_error SIGNS (Z.to_nat (signIndex z)) = Some s.
Proof.
  intros z.
  pose proof (zodiac_longitude_range l) as [R0 R1]. fold z in R0, R1.
  subst z. unfold getZodiacPosition in *.
  cbn [zlongitude signIndex degree minutes sign] in *.
  set (nl := (l %% 360 + 360) %% 360) in *.
  assert ((0 <= Qfloor (nl / 30) <= 11)%Z) as Hs.
  { apply Qfloor_range.
    - change (inject_Z 0) with 0. apply Qle_shift_div_l; lra.
    - change (inject_Z (11 + 1)) with 12. apply Qlt_shift_div_r; lra. }
  destruct (rem_nonneg nl 30) as [D0 D1]; [lra | lra |].
  set (dis := nl %% 30) in *.
  assert ((0 <= Qfloor dis <= 29)%Z) as Hd.
  { apply Qfloor_range.
    - change (inject_Z 0) with 0. exact D0.
    - change (inject_Z (29 + 1)) with 30. exact D1. }
  pose proof (Qfloor_le dis) as F0. pose proof (Qlt_floor dis) as F1.
  rewrite inject_Z_plus in F1. change (inject_Z 1) with 1 in F1.
  assert ((0 <= Qfloor ((dis - inject_Z (Qfloor dis)) * 60) <= 59)%Z) as Hm.
  { apply Qfloor_range.
    - change (inject_Z 0) with 0. lra.
    - change (inject_Z (59 + 1)) with 60. lra. }
  split; [exact Hs |]. split; [exact Hd |]. split; [exact Hm |].
  apply signName_some. exact Hs.
Qed.

(* ================================================================== *)
(** * Every body gets a position *)
(* ================================================================== *)

Lemma lookup_In {A : Type} (k : Z) (t : list (Z * A)) (v : A) :
  lookup k t = Some v -> In (k, v) t.
Proof.
  induction t as [| [k' v'] rest IH]; cbn [lookup]; [discriminate |].
  destruct (Z.eqb_spec k' k) as [-> | Hne].
  - intros [= ->]. left. reflexivity.
  - intros H. right. exact (IH H).
Qed.

(** Every entry of the element table has a positive semi-major axis. *)
Lemma elements_axis_positive (T : Q) (k : Z) (el : Elements) :
  In (k, el) (elements T) -> 0 < el_a el.
Proof.
  unfold elements. cbn [In].
  intros H.
  repeat (destruct H as [H | H];
          [injection H as _ <-; reflexivity |]).
  destruct H.
Qed.

Section EveryBody.

Context {M : JSMath}.

(** The fallback to Mars's entry leaves no code without elements. *)
Lemma calculateOuterPlanet_returns (JD : Q) (code : Z) :
  exists el, 0 < el_a el /\
             calculateOuterPlanet JD code =
             JS.Return (outerPlanetFrom JD code el).
Proof.
  unfold calculateOuterPlanet.
  destruct (lookup code (elements ((JD - J2000) / 36525))) as [el |] eqn:E.
  - exists el. split; [| reflexivity].
    exact (elements_axis_positive _ _ _ (lookup_In _ _ _ E)).
  - rewrite lookup_mars. exists marsElements. split; reflexivity.
Qed.

Lemma calculatePlanetPosition_cases (JD : Q) (code : Z) :
  exists b,
    calculatePlanetPosition JD code =
      JS.Return {| body := b; zodiac := getZodiacPosition (longitude b) |} /\
    ((code = PLANETS.SUN /\ b = calculateSunPosition JD) \/
     (code = PLANETS.MOON /\ b = calculateMoonPosition JD) \/
     (code <> PLANETS.SUN /\ code <> PLANETS.MOON /\
      exists el, 0 < el_a el /\ b = outerPlanetFrom JD code el)).
Proof.
  unfold calculatePlanetPosition.
  destruct (Z.eqb_spec code PLANETS.SUN) as [Hs | Hs].
  - eexists. split; [reflexivity |]. left. split; [exact Hs | reflexivity].
  - destruct (Z.eqb_spec code PLANETS.MOON) as [Hm | Hm].
    + eexists. split; [reflexivity |]. right. left.
      split; [exact Hm | reflexivity].
    + destruct (calculateOuterPlanet_returns JD code) as (el & Ha & ->).
      eexists. split; [reflexivity |]. right. right.
      split; [exact Hs |]. split; [exact Hm |].
      exists el. split; [exact Ha | reflexivity].
Qed.

Lemma outerPlanetFrom_longitude_range (JD : Q) (code : Z) (el : Elements) :
  0 <= longitude (outerPlanetFrom JD code el) /\
  longitude (outerPlanetFrom JD code el) < 360.
Proof.
  unfold outerPlanetFrom.
  destruct (Z.eqb code PLANETS.TRUE_NODE); cbv zeta; cbn [longitude];
    apply normalizeAngle_range.
Qed.

(** X4. [calculatePlanetPosition] returns a position for every body code
    and every Julian Day and never throws.  The longitude it computes lies
    between 0 and 360 (with doubles [normalizeAngle] can return 360
    itself); the longitude of the merged result is
    the zodiac's normalisation of the computed one, which overwrites it,
    and lies in [[0, 360)]. *)
Theorem calculatePlanetPosition_total (JD : Q) (code : Z) :
  exists p,
    calculatePlanetPosition JD code = JS.Return p /\
    0 <= longitude (body p) /\ longitude (body p) <= 360 /\
    positionLongitude p
      = zlongitude (getZodiacPosition (longitude (body p))) /\
    0 <= positionLongitude p /\ positionLongitude p < 360.
Proof.
  destruct (calculatePlanetPosition_cases JD code) as (b & E & Hb).
  eexists. split; [exact E |].
  unfold positionLongitude. cbn [body zodiac].
  assert (0 <= longitude b /\ longitude b < 360) as [B0 B1].
  { destruct Hb as [[_ ->] | [[_ ->] | (_ & _ & el & _ & ->)]].
    - unfold calculateSunPosition. cbv zeta. cbn [longitude].
      apply normalizeAngle_range.
    - unfold calculateMoonPosition. cbv zeta. cbn [longitude].
      apply normalizeAngle_range.
    - apply outerPlanetFrom_longitude_range. }
  split; [exact B0 |]. split; [now apply Qlt_le_weak |].
  split; [reflexivity |]. apply zodiac_longitude_range.
Qed.

(** X5. A body whose code is at most Mars's (the Sun, the Moon, Mercury,
    Venus, Mars, and any unrecognised code below them) is never flagged
    retrograde; the lunar node always is, with speed -0.053, latitude 0
    and the normalised mean longitude [125.08 - 19.34 * T]. *)
Theorem retrograde_never_and_always (JD : Q) :
  (forall code, (code <= PLANETS.MARS)%Z ->
     exists p, calculatePlanetPosition JD code = JS.Return p /\
               isRetrograde (body p) = false) /\
  (exists p, calculatePlanetPosition JD PLANETS.TRUE_NODE = JS.Return p /\
             isRetrograde (body p) = true /\
             longitudeSpeed (body p) == -0.053 /\
             latitude (body p) == 0 /\
             longitude (body p) ==
             normalizeAngle (125.08 - 19.34 * ((JD - J2000) / 36525))).
Proof.
  split.
  - intros code Hc.
    destruct (calculatePlanetPosition_cases JD code) as (b & E & Hb).
    eexists. split; [exact E |]. cbn [body].
    destruct Hb as [[_ ->] | [[_ ->] | (_ & _ & el & _ & ->)]];
      [reflexivity | reflexivity |].
    unfold outerPlanetFrom.
    destruct (Z.eqb_spec code PLANETS.TRUE_NODE) as [-> | _];
      [exfalso; revert Hc; unfold PLANETS.MARS, PLANETS.TRUE_NODE; lia |].
    cbv zeta. cbn [isRetrograde].
    assert (Z.ltb PLANETS.MARS code = false) as -> by (apply Z.ltb_ge; lia).
    reflexivity.
  - eexists. split; [reflexivity |]. cbn [body].
    unfold outerPlanetFrom.
    change (Z.eqb PLANETS.TRUE_NODE PLANETS.TRUE_NODE) with true.
    cbv beta iota zeta.
    cbn [isRetrograde longitudeSpeed latitude longitude el_L mkElements].
    repeat split; reflexivity.
Qed.

Hypothesis sqrt_pos : forall x : Q, 0 < x -> 0 < Math_sqrt x.

(** X6. For every body code, recognised or not, the retrograde flag and the
    sign of the speed agree: the flag is set exactly when the longitudinal
    speed is negative, and the speed is never zero. *)
Theorem retrograde_iff_negative_speed (JD : Q) (code : Z) :
  exists p,
    calculatePlanetPosition JD code = JS.Return p /\
    (isRetrograde (body p) = true <-> longitudeSpeed (body p) < 0) /\
    (isRetrograde (body p) = false <-> 0 < longitudeSpeed (body p)).
Proof.
  destruct (calculatePlanetPosition_cases JD code) as (b & E & Hb).
  eexists. split; [exact E |]. cbn [body].
  destruct Hb as [[_ ->] | [[_ ->] | (_ & _ & el & Ha & ->)]].
  - unfold calculateSunPosition. cbv zeta.
    cbn [isRetrograde longitudeSpeed].
    split; split; intros H; try discriminate H; reflexivity.
  - unfold calculateMoonPosition. cbv zeta.
    cbn [isRetrograde longitudeSpeed].
    split; split; intros H; try discriminate H; reflexivity.
  - destruct (Z.eqb_spec code PLANETS.TRUE_NODE) as [-> | Hn].
    + unfold outerPlanetFrom.
      change (Z.eqb PLANETS.TRUE_NODE PLANETS.TRUE_NODE) with true.
      cbv beta iota zeta. cbn [isRetrograde longitudeSpeed].
      split; split; intros H; try discriminate H; reflexivity.
    + destruct (outerPlanetFrom_shape JD code el Hn)
        as (lon & lat & dist & Es).
      cbv zeta in Es. rewrite Es. clear Es.
      cbn [isRetrograde longitudeSpeed].
      assert (0 < el_a el * el_a el * Math_sqrt (el_a el) * 365.25) as Hden.
      { pose proof (sqrt_pos _ Ha).
        repeat apply Qmult_lt_0_compat; lra. }
      set (den := el_a el * el_a el * Math_sqrt (el_a el) * 365.25) in *.
      assert (0 < 360 / den) as Hdm by (apply Qlt_shift_div_l; lra).
      set (dm := 360 / den) in *. clearbody dm.
      destruct (Z.ltb PLANETS.MARS code && _);
        split; split; intros H; try discriminate H; try reflexivity; lra.
Qed.

End EveryBody.

Lemma retrograde_iff_negative_speed_witness :
  exists p,
    calculatePlanetPosition (M := approxMath) 2451545 PLANETS.CHIRON
      = JS.Return p /\
    (isRetrograde (body p) = true <-> longitudeSpeed (body p) < 0).
Proof.
  destruct (retrograde_iff_negative_speed (M := approxMath) approx_sqrt_pos
              2451545 PLANETS.CHIRON) as (p & E & H & _).
  exists p. split; [exact E | exact H].
Defined.

Lemma retrograde_never_and_always_witness :
  exists p,
    calculatePlanetPosition (M := approxMath) 2451545 PLANETS.VENUS
      = JS.Return p /\ isRetrograde (body p) = false.
Proof.
  destruct (retrograde_never_and_always (M := approxMath) 2451545)
    as [H _].
  apply (H PLANETS.VENUS). unfold PLANETS.VENUS, PLANETS.MARS. lia.
Defined.

(* ================================================================== *)
(** * The aspect windows *)
(* ================================================================== *)

Lemma abs_le_iff (x o : Q) : Qle_bool (JS.abs x) o = true <-> - o <= x <= o.
Proof.
  unfold JS.abs. rewrite Qle_bool_iff. apply Qabs_Qle_condition.
Qed.

Lemma abs_gt_iff (x o : Q) :
  Qle_bool (JS.abs x) o = false <-> ~ (- o <= x <= o).
Proof.
  rewrite <- not_true_iff_false, abs_le_iff. tauto.
Qed.

(** X7. What [calculateAspect] returns is decided by the folded separation
    alone.  A returned aspect is an entry of the table: its orb is the
    distance of the separation from the entry's angle, lies between 0 and
    the entry's tolerance, and [exact] says whether it is below 1; no
    other entry of the table holds the separation within its tolerance, so
    the order of the table never decides.  [null] is returned exactly when
    no entry holds the separation within its tolerance. *)
Theorem calculateAspect_sound_complete (long1 long2 : Q) :
  let d := separation long1 long2 in
  match calculateAspect long1 long2 with
  | Some a =>
      exists config,
        In (name a, config) ASPECTS /\
        angle a = cfg_angle config /\ symbol a = cfg_symbol config /\
        nature a = cfg_nature config /\
        orb a = Qabs (d - cfg_angle config) /\
        0 <= orb a /\ orb a <= cfg_orb config /\
        (exact a = true <-> orb a < 1) /\
        (forall name' config',
           In (name', config') ASPECTS ->
           Qabs (d - cfg_angle config') <= cfg_orb config' ->
           name' = name a)
  | None =>
      forall name' config',
        In (name', config') ASPECTS ->
        cfg_orb config' < Qabs (d - cfg_angle config')
  end.
Proof.
  intros d. unfold calculateAspect. fold d. clearbody d.
  unfold ASPECTS, matchAspect. cbn [cfg_angle cfg_orb cfg_symbol cfg_nature].
  repeat match goal with
         | |- context [Qle_bool (JS.abs (d - ?a)) ?o] =>
             let H := fresh "W" in
             destruct (Qle_bool (JS.abs (d - a)) o) eqn:H;
             [apply abs_le_iff in H | apply abs_gt_iff in H]
         end;
    try (eexists; cbn [name angle orb symbol nature exact In];
         split; [tauto |];
         split; [reflexivity |]; split; [reflexivity |];
         split; [reflexivity |]; split; [reflexivity |];
         split; [apply Qabs_nonneg |];
         split; [apply Qabs_Qle_condition; assumption |];
         split; [apply ltb_lt |];
         intros n' c' Hin Hle;
         apply Qabs_Qle_condition in Hle;
         repeat (destruct Hin as [Hin | Hin];
                 [injection Hin as <- <-;
                  cbn [cfg_angle cfg_orb] in Hle;
                  first [reflexivity | exfalso; lra] |]);
         destruct Hin).
  cbn [In]. intros n' c' Hin.
  apply Qnot_le_lt. intros Hle. apply Qabs_Qle_condition in Hle.
  repeat (destruct Hin as [Hin | Hin];
          [injection Hin as <- <-; cbn [cfg_angle cfg_orb] in Hle; tauto |]).
  destruct Hin.
Qed.

(** X8. For two longitudes in [[0, 360)] the folded separation lies in
    [[0, 180]]. *)
Theorem separation_range (long1 long2 : Q) :
  0 <= long1 -> long1 < 360 -> 0 <= long2 -> long2 < 360 ->
  0 <= separation long1 long2 /\ separation long1 long2 <= 180.
Proof.
  intros A0 A1 B0 B1. unfold separation, JS.gtb, JS.abs.
  pose proof (Qabs_nonneg (long1 - long2)) as N.
  assert (Qabs (long1 - long2) <= 360) as U
    by (apply Qabs_Qle_condition; split; lra).
  destruct (JS.ltb 180 (Qabs (long1 - long2))) eqn:E;
    [apply ltb_lt in E | apply ltb_ge in E]; split; lra.
Qed.

Lemma separation_range_witness :
  0 <= separation 350 10 /\ separation 350 10 <= 180.
Proof.
  apply separation_range; lra.
Defined.

(* ================================================================== *)
(** * The house frame *)
(* ================================================================== *)

Section HouseFrameFacts.

Context {M : JSMath}.

(** X9. A frame computed by [calculateHouses] has exactly the twelve
    cusps 1 to 12, each between 0 and 360 and carrying the zodiac placement
    of its own longitude.  The zodiac longitudes of the Ascendant and of
    the Midheaven lie in [[0, 360)], the sidereal time between 0 and 360
    (with doubles [normalizeAngle] can return 360 itself). *)
Theorem calculateHouses_frame (JD lat lon : Q) :
  let frame := calculateHouses JD lat lon in
  map fst (cusps frame) = houseNumbers /\
  (forall i, In i houseNumbers <->
             exists c, lookup i (cusps frame) = Some c) /\
  (forall i c, lookup i (cusps frame) = Some c ->
     0 <= cusp c /\ cusp c <= 360 /\
     cuspZodiac c = getZodiacPosition (cusp c)) /\
  (0 <= zlongitude (ascendant frame) /\ zlongitude (ascendant frame) < 360) /\
  (0 <= zlongitude (mc frame) /\ zlongitude (mc frame) < 360) /\
  (0 <= armc frame /\ armc frame <= 360).
Proof.
  intros frame.
  assert (exists a, cusps frame = houseCusps a /\
                    ascendant frame = getZodiacPosition a) as (a & Ec & Ea).
  { subst frame. unfold calculateHouses. cbv zeta. cbn [cusps ascendant].
    eexists. split; reflexivity. }
  rewrite Ec, Ea.
  split; [reflexivity |]. split.
  { intros i. split.
    - unfold houseNumbers. cbn [In]. intros Hi.
      repeat (destruct Hi as [<- | Hi]; [eexists; reflexivity |]).
      destruct Hi.
    - intros (c & Hl). apply lookup_In in Hl.
      apply (in_map fst) in Hl. exact Hl. }
  split.
  { intros i c Hl. apply lookup_In in Hl.
    unfold houseCusps, houseNumbers in Hl. cbn [map In] in Hl.
    repeat (destruct Hl as [Hl | Hl];
            [injection Hl as _ <-; cbn [cusp cuspZodiac];
             split; [apply normalizeAngle_range |];
             split; [apply Qlt_le_weak, normalizeAngle_range
                    | reflexivity] |]).
    destruct Hl. }
  split; [apply zodiac_longitude_range |].
  subst frame. unfold calculateHouses. cbv zeta. cbn [mc armc].
  split; [apply zodiac_longitude_range |].
  split; [apply normalizeAngle_range
         | apply Qlt_le_weak, normalizeAngle_range].
Qed.

End HouseFrameFacts.

(* ================================================================== *)
(** * House placement on any set of cusps *)
(* ================================================================== *)

Lemma cuspsArray_complete (hc : list (Z * HouseCusp)) (ks : list Z) :
  (forall i, In i ks -> exists c, lookup i hc = Some c) ->
  exists arr, cuspsArray hc ks = JS.Return arr /\
              List.length arr = List.length ks.
Proof.
  induction ks as [| k rest IH]; intros H; cbn [cuspsArray].
  - exists []. split; reflexivity.
  - destruct (H k (or_introl eq_refl)) as (c & ->).
    destruct IH as (arr & -> & Hl); [intros i Hi; apply H; right; exact Hi |].
    exists (cusp c :: arr). cbn [JS.bind List.length].
    split; [reflexivity | now rewrite Hl].
Qed.

Lemma cuspsArray_missing (hc : list (Z * HouseCusp)) (ks : list Z) (i : Z) :
  In i ks -> lookup i hc = None -> cuspsArray hc ks = JS.Throw JS.TypeError.
Proof.
  induction ks as [| k rest IH]; intros Hin Hl; [destruct Hin |].
  cbn [cuspsArray]. destruct (lookup k hc) as [c |] eqn:E; [| reflexivity].
  destruct Hin as [-> | Hin]; [congruence |].
  rewrite (IH Hin Hl). reflexivity.
Qed.

Lemma houseScan_bounds (p : Q) (arr : list Q) (l : list nat) (h : Z) :
  houseScan p arr l = Some h ->
  exists i, In i l /\ h = (Z.of_nat i + 1)%Z.
Proof.
  induction l as [| i rest IH]; cbn [houseScan]; [discriminate |].
  destruct (inHouseInterval _ _ _).
  - intros [= <-]. exists i. split; [left |]; reflexivity.
  - intros H. destruct (IH H) as (j & Hj & ->).
    exists j. split; [right; exact Hj | reflexivity].
Qed.

Lemma houseScan_none (p : Q) (arr : list Q) (l : list nat) :
  (forall i, In i l -> hit p arr i = false) -> houseScan p arr l = None.
Proof.
  induction l as [| i rest IH]; intros H; cbn [houseScan]; [reflexivity |].
  fold (hit p arr i). rewrite (H i (or_introl eq_refl)).
  apply IH. intros j Hj. apply H. right. exact Hj.
Qed.

(** With all the cusps 1 to 12 at hand [getHousePosition] returns a house
    from 1 to 12. *)
Lemma getHousePosition_complete (p : Q) (hc : list (Z * HouseCusp)) :
  (forall i, In i houseNumbers -> exists c, lookup i hc = Some c) ->
  exists h, getHousePosition p hc = JS.Return h /\ (1 <= h <= 12)%Z.
Proof.
  intros H. unfold getHousePosition.
  destruct (cuspsArray_complete hc houseNumbers H) as (arr & -> & _).
  cbn [JS.bind].
  destruct (houseScan p arr (seq 0 12)) as [h |] eqn:E.
  - exists h. split; [reflexivity |].
    destruct (houseScan_bounds _ _ _ _ E) as (i & Hi & ->).
    apply in_seq in Hi. lia.
  - exists 1%Z. split; [reflexivity | lia].
Qed.

(** X10. On any cusp table [getHousePosition] either throws or returns a
    house from 1 to 12.  It returns when the table has all the cusps 1 to
    12 and throws a [TypeError] when one of them is missing; when no
    interval holds the longitude, as with twelve equal cusps, it falls
    back to house 1. *)
Theorem getHousePosition_any_cusps (p : Q) (hc : list (Z * HouseCusp)) :
  ((forall i, In i houseNumbers -> exists c, lookup i hc = Some c) ->
   exists h, getHousePosition p hc = JS.Return h /\ (1 <= h <= 12)%Z) /\
  ((exists i, In i houseNumbers /\ lookup i hc = None) ->
   getHousePosition p hc = JS.Throw JS.TypeError) /\
  (forall x : Q,
     (forall i, In i houseNumbers ->
        exists c, lookup i hc = Some c /\ cusp c = x) ->
     getHousePosition p hc = JS.Return 1%Z).
Proof.
  split; [| split].
  - apply getHousePosition_complete.
  - intros (i & Hi & Hl). unfold getHousePosition.
    rewrite (cuspsArray_missing hc houseNumbers i Hi Hl). reflexivity.
  - intros x H. unfold getHousePosition.
    assert (cuspsArray hc houseNumbers = JS.Return (repeat x 12)) as ->.
    { unfold houseNumbers. cbn [cuspsArray].
      repeat match goal with
             | |- context [lookup ?k hc] =>
                 let c := fresh "c" in let E := fresh "E" in
                 let Ex := fresh "Ex" in
                 destruct (H k) as (c & E & Ex);
                 [unfold houseNumbers; cbn [In]; tauto |];
                 rewrite E, Ex; clear E Ex c
             end.
      reflexivity. }
    cbn [JS.bind]. rewrite houseScan_none; [reflexivity |].
    intros i Hi. apply in_seq in Hi. unfold hit.
    assert (nth i (repeat x 12) 0 = x) as ->
      by (do 12 (destruct i as [| i]; [reflexivity |]); lia).
    assert (nth ((i + 1) mod 12) (repeat x 12) 0 = x) as ->.
    { pose proof (Nat.mod_upper_bound (i + 1) 12 ltac:(discriminate)) as Hb.
      set (j := ((i + 1) mod 12)%nat) in *. clearbody j.
      do 12 (destruct j as [| j]; [reflexivity |]). lia. }
    unfold inHouseInterval.
    assert (JS.ltb x x = false) as -> by (apply ltb_ge; lra).
    apply andb_false_iff.
    destruct (JS.ltb p x) eqn:L; [| right; reflexivity].
    left. apply ltb_lt in L. unfold JS.geb. apply leb_gt. exact L.
Qed.

Lemma getHousePosition_any_cusps_witness :
  getHousePosition 100 [] = JS.Throw JS.TypeError.
Proof.
  apply (getHousePosition_any_cusps 100 []).
  exists 1%Z. split; [left; reflexivity | reflexivity].
Defined.

(* ================================================================== *)
(** * Days and the Julian Day *)
(* ================================================================== *)

Lemma dayNumber_year_step_eq (y : Z) :
  (dayNumber (y + 1) 1 1 = dayNumber y 12 31 + 1)%Z.
Proof.
  rewrite (dayNumber_late y 12), (dayNumber_early (y + 1) 1) by lia.
  Z.div_mod_to_equations; lia.
Qed.

Lemma daysInMonth_december (y : Z) : Calendar.daysInMonth y 12 = 31%Z.
Proof. reflexivity. Qed.

Lemma nextDay_dayNumber (c : Civil) :
  validCivil c ->
  (dayNumber (c_year (nextDay c)) (c_month (nextDay c)) (c_day (nextDay c))
   = dayNumber (c_year c) (c_month c) (c_day c) + 1)%Z.
Proof.
  intros (Hm & Hd & _). unfold nextDay.
  destruct (Z.ltb_spec (c_day c)
              (Calendar.daysInMonth (c_year c) (c_month c))) as [L | L];
    cbn [c_year c_month c_day].
  - rewrite (dayNumber_day _ _ (c_day c + 1)),
            (dayNumber_day _ _ (c_day c)). lia.
  - destruct (Z.ltb_spec (c_month c) 12) as [L' | L'];
      cbn [c_year c_month c_day].
    + pose proof (dayNumber_month_step (c_year c) (c_month c)
                    ltac:(lia) ltac:(lia)) as S.
      rewrite (dayNumber_day _ (c_month c + 1) 1),
              (dayNumber_day _ (c_month c) (c_day c)). lia.
    + assert (c_month c = 12%Z) as E12 by lia. rewrite E12 in *.
      rewrite daysInMonth_december in *.
      rewrite dayNumber_year_step_eq.
      rewrite (dayNumber_day _ 12 (c_day c)), (dayNumber_day _ 12 31). lia.
Qed.

Lemma nextDay_valid (c : Civil) : validCivil c -> validCivil (nextDay c).
Proof.
  intros (Hm & Hd & Hh). unfold nextDay, validCivil.
  destruct (Z.ltb_spec (c_day c)
              (Calendar.daysInMonth (c_year c) (c_month c))) as [L | L];
    cbn [c_year c_month c_day c_hour].
  - split; [lia |]. split; [lia | exact Hh].
  - destruct (Z.ltb_spec (c_month c) 12) as [L' | L'];
      cbn [c_year c_month c_day c_hour].
    + pose proof (daysInMonth_bounds (c_year c) (c_month c + 1)).
      split; [lia |]. split; [lia | exact Hh].
    + pose proof (daysInMonth_bounds (c_year c + 1) 1).
      split; [lia |]. split; [lia | exact Hh].
Qed.

(** The Julian Day of noon on a civil date with whole year, month and day
    is a whole number. *)
Lemma dateToJulianDay_noon_whole (y m d : Z) :
  dateToJulianDay (inject_Z y) (inject_Z m) (inject_Z d) 12 ==
  inject_Z (dayNumber y m d - 1524).
Proof.
  rewrite dateToJulianDay_dayNumber. unfold Z.sub.
  rewrite inject_Z_plus. change (inject_Z (- (1524))) with (-1524). 
  assert (12 / 24 == 1 # 2) as -> by reflexivity. lra.
Qed.

(* ================================================================== *)
(** * Local time to UTC: a valid date and hour *)
(* ================================================================== *)

Lemma wrap24_range (u : Q) :
  0 <= (u %% 24 + 24) %% 24 /\ (u %% 24 + 24) %% 24 < 24.
Proof.
  destruct (Qlt_le_dec u 0) as [Hu | Hu].
  - destruct (rem_nonpos u 24) as [H1 H2]; [lra | lra |].
    apply rem_nonneg; lra.
  - destruct (rem_nonneg u 24) as [H1 H2]; [lra | lra |].
    apply rem_nonneg; lra.
Qed.

Section UtcInstant.

Import BirthChart.

(** The date part of [toUtc]: the day before, the same day or the day
    after, by the sign of the unwrapped hour. *)
Lemma toUtc_date (b : BirthData) :
  (1 <= month b <= 12)%Z ->
  (1 <= day b <= Calendar.daysInMonth (year b) (month b))%Z ->
  year b <> 0%Z ->
  let u := toUtc b in
  (1 <= utcMonth u <= 12)%Z /\
  (1 <= utcDay u <= Calendar.daysInMonth (utcYear u) (utcMonth u))%Z /\
  dayNumber (utcYear u) (utcMonth u) (utcDay u) =
  (dayNumber (year b) (month b) (day b)
   + (if JS.ltb (utcHourOf b) 0 then -1
      else if JS.geb (utcHourOf b) 24 then 1 else 0))%Z.
Proof.
  intros Hm Hd Hy. unfold toUtc. fold (utcHourOf b).
  destruct (JS.ltb (utcHourOf b) 0).
  - destruct (Z.ltb_spec (day b - 1) 1) as [L | L].
    + assert (day b = 1%Z) as Ed by lia.
      destruct (Z.ltb_spec (month b - 1) 1) as [L' | L'];
        cbv beta iota zeta; cbn [utcYear utcMonth utcDay].
      * assert (month b = 1%Z) as Em by lia.
        assert (getDaysInMonth 12 (year b - 1) = 31%Z) as ->.
        { assert (year b - 1 = 0 \/ year b - 1 <> 0)%Z as [-> | Hn] by lia;
            [reflexivity |].
          now rewrite getDaysInMonth_gregorian by lia. }
        rewrite Ed, Em.
        pose proof (dayNumber_year_step_eq (year b - 1)) as S.
        replace (year b - 1 + 1)%Z with (year b) in S by lia.
        split; [lia |]. split; [rewrite daysInMonth_december; lia | lia].
      * rewrite getDaysInMonth_gregorian by lia.
        pose proof (daysInMonth_bounds (year b) (month b - 1)).
        pose proof (dayNumber_month_step (year b) (month b - 1)
                      ltac:(lia) ltac:(lia)) as S.
        replace (month b - 1 + 1)%Z with (month b) in S by lia.
        rewrite Ed.
        rewrite (dayNumber_day _ (month b - 1) _),
                (dayNumber_day _ (month b) 1).
        split; [lia |]. split; [lia | lia].
    + cbv beta iota zeta. cbn [utcYear utcMonth utcDay].
      rewrite (dayNumber_day _ _ (day b - 1)), (dayNumber_day _ _ (day b)).
      split; [lia |]. split; [lia | lia].
  - destruct (JS.geb (utcHourOf b) 24).
    + rewrite getDaysInMonth_gregorian by lia.
      pose proof (nextDay_dayNumber
                    {| c_year := year b; c_month := month b;
                       c_day := day b; c_hour := 0 |}) as N.
      pose proof (nextDay_valid
                    {| c_year := year b; c_month := month b;
                       c_day := day b; c_hour := 0 |}) as V.
      unfold validCivil, nextDay in N, V.
      cbn [c_year c_month c_day c_hour] in N, V.
      assert ((1 <= month b <= 12)%Z /\
              (1 <= day b <= Calendar.daysInMonth (year b) (month b))%Z /\
              0 <= 0 /\ 0 < 24) as Hv
        by (split; [lia |]; split; [lia |]; split; lra).
      specialize (N Hv). specialize (V Hv).
      destruct (Z.ltb_spec (Calendar.daysInMonth (year b) (month b))
                           (day b + 1)) as [L | L].
      * destruct (Z.ltb_spec (day b)
                    (Calendar.daysInMonth (year b) (month b))) as [L1 | L1];
          [lia |].
        destruct (Z.ltb_spec 12 (month b + 1)) as [L' | L'];
          destruct (Z.ltb_spec (month b) 12) as [L2 | L2]; try lia;
          cbv beta iota zeta; cbn [utcYear utcMonth utcDay];
          cbn [c_year c_month c_day c_hour] in N, V;
          destruct V as (V1 & V2 & _);
          (split; [lia |]); (split; [lia | exact N]).
      * destruct (Z.ltb_spec (day b)
                    (Calendar.daysInMonth (year b) (month b))) as [L1 | L1];
          [| lia].
        cbv beta iota zeta. cbn [utcYear utcMonth utcDay].
        cbn [c_year c_month c_day c_hour] in N, V.
        destruct V as (V1 & V2 & _).
        split; [lia |]. split; [lia | exact N].
    + cbv beta iota zeta. cbn [utcYear utcMonth utcDay].
      split; [lia |]. split; [lia | lia].
Qed.

Lemma toUtc_hour (b : BirthData) :
  adjustedUtcHour (toUtc b) = (utcHourOf b %% 24 + 24) %% 24.
Proof.
  unfold toUtc. fold (utcHourOf b).
  repeat match goal with
         | |- context [if ?c then _ else _] => destruct c
         end;
    reflexivity.
Qed.

(** X12. [toUtc] turns a valid local civil date (year other than 0) into a
    valid UTC instant, whatever the time and the offset: month from 1 to
    12, a day that exists in that month, and an hour in [[0, 24)]. *)
Theorem toUtc_valid (b : BirthData) :
  (1 <= month b <= 12)%Z ->
  (1 <= day b <= Calendar.daysInMonth (year b) (month b))%Z ->
  year b <> 0%Z ->
  let u := toUtc b in
  validCivil {| c_year := utcYear u; c_month := utcMonth u;
                c_day := utcDay u; c_hour := adjustedUtcHour u |}.
Proof.
  intros Hm Hd Hy u. unfold validCivil. cbn [c_year c_month c_day c_hour].
  destruct (toUtc_date b Hm Hd Hy) as (V1 & V2 & _). fold u in V1, V2.
  split; [exact V1 |]. split; [exact V2 |].
  subst u. rewrite toUtc_hour. apply wrap24_range.
Qed.

Lemma toUtc_valid_witness :
  let u := toUtc {| year := 2023; month := 12; day := 31; hour := 23;
                    minute := 30; latitude := 0; longitude := 0;
                    timezone := Some (-5.5) |} in
  validCivil {| c_year := utcYear u; c_month := utcMonth u;
                c_day := utcDay u; c_hour := adjustedUtcHour u |}.
Proof.
  apply toUtc_valid; cbn; lia.
Defined.

End UtcInstant.

(* ================================================================== *)
(** * Objects and names *)
(* ================================================================== *)

Lemma setKey_fresh {A : Type} (k : string) (v : A) (o : list (string * A)) :
  ~ In k (keys o) -> setKey k v o = o ++ [(k, v)].
Proof.
  induction o as [| [k' v'] rest IH]; intros H; cbn [setKey app];
    [reflexivity |].
  destruct (String.eqb_spec k' k) as [-> | Hne].
  - exfalso. apply H. left. reflexivity.
  - f_equal. apply IH. intros Hin. apply H. right. exact Hin.
Qed.

Lemma getKey_In {A : Type} (k : string) (o : list (string * A)) (v : A) :
  getKey k o = Some v -> In (k, v) o.
Proof.
  induction o as [| [k' v'] rest IH]; cbn [getKey]; [discriminate |].
  destruct (String.eqb_spec k' k) as [-> | Hne].
  - intros [= ->]. left. reflexivity.
  - intros H. right. exact (IH H).
Qed.

Lemma getKey_keys {A : Type} (k : string) (o : list (string * A)) :
  In k (keys o) -> exists v, getKey k o = Some v.
Proof.
  induction o as [| [k' v'] rest IH]; cbn [keys map In getKey];
    [intros [] |].
  destruct (String.eqb_spec k' k) as [-> | Hne].
  - intros _. exists v'. reflexivity.
  - intros [H | H]; [contradiction | exact (IH H)].
Qed.

Lemma getKey_NoDup {A : Type} (k : string) (v : A) (o : list (string * A)) :
  NoDup (keys o) -> In (k, v) o -> getKey k o = Some v.
Proof.
  induction o as [| [k' v'] rest IH]; intros Hnd Hin; [destruct Hin |].
  cbn [keys map] in Hnd. inversion Hnd as [| ? ? Hnot Hrest]; subst.
  cbn [getKey]. destruct Hin as [[= -> ->] | Hin].
  - now rewrite String.eqb_refl.
  - destruct (String.eqb_spec k' k) as [-> | Hne].
    + exfalso. apply Hnot. change (In (fst (k, v)) (map fst rest)).
      apply in_map. exact Hin.
    + apply IH; assumption.
Qed.

Lemma recognized_In (code : Z) :
  PLANETS.recognized code = true <-> In code (map snd PLANETS.entries).
Proof.
  unfold PLANETS.recognized. rewrite existsb_exists, in_map_iff. split.
  - intros ([n c] & Hin & E). cbn [snd] in E. apply Z.eqb_eq in E.
    subst c. exists (n, code). split; [reflexivity | exact Hin].
  - intros ([n c] & E & Hin). cbn [snd] in E. subst c.
    exists (n, code). split; [exact Hin | apply Z.eqb_refl].
Qed.

Lemma findPlanetName_none (code : Z) (entries : list (string * Z)) :
  ~ In code (map snd entries) -> findPlanetName code entries = None.
Proof.
  induction entries as [| [n c] rest IH]; intros H; cbn [findPlanetName];
    [reflexivity |].
  destruct (Z.eqb_spec c code) as [-> | Hne].
  - exfalso. apply H. left. reflexivity.
  - apply IH. intros Hin. apply H. right. exact Hin.
Qed.

(** X14. [getPlanetName] answers ["Unknown"] exactly for the codes that
    are not in [PLANETS], and tells the recognised bodies apart: two codes
    with the same name, one of them recognised, are the same code. *)
Theorem getPlanetName_unknown_iff (code : Z) :
  (getPlanetName code = "Unknown"%string <->
   PLANETS.recognized code = false) /\
  (forall code', PLANETS.recognized code = true ->
                 getPlanetName code' = getPlanetName code -> code' = code).
Proof.
  assert (forall c, In c (map snd PLANETS.entries) ->
                    getPlanetName c <> "Unknown"%string) as Hknown.
  { intros c Hin. cbn [PLANETS.entries map snd In] in Hin.
    repeat (destruct Hin as [<- | Hin]; [vm_compute; discriminate |]).
    destruct Hin. }
  assert (forall c, ~ In c (map snd PLANETS.entries) ->
                    getPlanetName c = "Unknown"%string) as Hunknown.
  { intros c Hn. unfold getPlanetName.
    now rewrite (findPlanetName_none c PLANETS.entries Hn). }
  split.
  - rewrite <- not_true_iff_false, recognized_In. split.
    + intros E Hin. exact (Hknown code Hin E).
    + exact (Hunknown code).
  - intros code' Hr E. apply recognized_In in Hr.
    destruct (in_dec Z.eq_dec code' (map snd PLANETS.entries)) as [Hin | Hn].
    + cbn [PLANETS.entries map snd In] in Hr, Hin.
      repeat (destruct Hr as [<- | Hr];
              [repeat (destruct Hin as [<- | Hin];
                       [first [reflexivity
                              | exfalso; vm_compute in E; discriminate E] |]);
               destruct Hin |]).
      destruct Hr.
    + exfalso. rewrite (Hunknown code' Hn) in E.
      exact (Hknown code Hr (eq_sym E)).
Qed.

Lemma getPlanetName_unknown_iff_witness :
  getPlanetName 10 = "Unknown"%string /\
  getPlanetName PLANETS.TRUE_NODE = "True node"%string.
Proof.
  split.
  - apply (proj1 (getPlanetName_unknown_iff 10)). reflexivity.
  - reflexivity.
Defined.

(* ================================================================== *)
(** * The natal chart *)
(* ================================================================== *)

Lemma lookup_HOUSES (h : Z) :
  (1 <= h <= 12)%Z -> exists s, lookup h HOUSES = Some s.
Proof.
  intros H.
  assert (h = 1 \/ h = 2 \/ h = 3 \/ h = 4 \/ h = 5 \/ h = 6 \/ h = 7 \/
          h = 8 \/ h = 9 \/ h = 10 \/ h = 11 \/ h = 12)%Z as C by lia.
  repeat (destruct C as [-> | C]; [eexists; reflexivity |]).
  subst h. eexists. reflexivity.
Qed.

Lemma houseCusps_complete (a : Q) (i : Z) :
  In i houseNumbers -> exists c, lookup i (houseCusps a) = Some c.
Proof.
  unfold houseNumbers. cbn [In]. intros H.
  repeat (destruct H as [<- | H]; [eexists; reflexivity |]).
  destruct H.
Qed.

(** The lower-cased names of [PLANETS], the keys of a full chart. *)
Lemma planet_keys_NoDup :
  NoDup (map (fun e => JSString.toLowerCase (fst e)) PLANETS.entries).
Proof.
  vm_compute. repeat constructor; cbn [In]; intuition discriminate.
Qed.

Section ChartFacts.

Context {M : JSMath}.

Import NatalChart.

(** With all twelve cusps at hand the [try] block never throws. *)
Lemma planetEntry_total (jd : Q) (cusps : list (Z * HouseCusp)) (code : Z) :
  (forall i, In i houseNumbers -> exists c, lookup i cusps = Some c) ->
  exists e, planetEntry jd cusps code = JS.Return e /\
            calculatePlanetPosition jd code = JS.Return (position e) /\
            getHousePosition (positionLongitude (position e)) cusps
              = JS.Return (house e) /\
            (1 <= house e <= 12)%Z /\
            houseName e = lookup (house e) HOUSES /\
            exists s, houseName e = Some s.
Proof.
  intros Hc. unfold planetEntry.
  destruct (calculatePlanetPosition_cases jd code) as (b & Ep & _).
  rewrite Ep. cbn [JS.bind].
  match goal with
  | |- context [getHousePosition (positionLongitude ?p) cusps] =>
      destruct (getHousePosition_complete (positionLongitude p) cusps Hc)
        as (h & Eh & Hh)
  end.
  rewrite Eh. cbn [JS.bind].
  eexists. split; [reflexivity |]. cbn [position house houseName].
  split; [reflexivity |]. split; [exact Eh |]. split; [exact Hh |].
  split; [reflexivity | exact (lookup_HOUSES h Hh)].
Qed.

Lemma collectPlanets_all (jd : Q) (cusps : list (Z * HouseCusp))
      (entries : list (string * Z)) :
  (forall i, In i houseNumbers -> exists c, lookup i cusps = Some c) ->
  forall acc,
    NoDup (keys acc ++
           map (fun e => JSString.toLowerCase (fst e)) entries) ->
    exists es,
      collectPlanets jd cusps entries acc = acc ++ es /\
      keys es = map (fun e => JSString.toLowerCase (fst e)) entries /\
      Forall2 (fun ent ke => planetEntry jd cusps (snd ent)
                             = JS.Return (snd ke)) entries es.
Proof.
  intros Hc. induction entries as [| [n c] rest IH]; intros acc Hnd.
  - exists []. cbn [collectPlanets]. rewrite app_nil_r.
    split; [reflexivity |]. split; [reflexivity | constructor].
  - cbn [collectPlanets].
    destruct (planetEntry_total jd cusps c Hc) as (e & Ee & _).
    rewrite Ee.
    cbn [map fst] in Hnd.
    assert (~ In (JSString.toLowerCase n) (keys acc)) as Hfresh.
    { apply NoDup_remove_2 in Hnd. intros Hin. apply Hnd.
      apply in_or_app. left. exact Hin. }
    rewrite (setKey_fresh _ e acc Hfresh).
    destruct (IH (acc ++ [(JSString.toLowerCase n, e)]))
      as (es & E1 & E2 & E3).
    { unfold keys. rewrite map_app. cbn [map fst]. rewrite <- app_assoc.
      exact Hnd. }
    exists ((JSString.toLowerCase n, e) :: es).
    rewrite E1, <- app_assoc. split; [reflexivity |].
    cbn [keys map fst]. split; [f_equal; exact E2 |].
    constructor; [exact Ee | exact E3].
Qed.

(** The inner and the outer loop of [calculateAllAspects] never throw when
    the names are keys of the object. *)
Lemma aspectsWith_returns (planets : list (string * PlanetEntry))
      (planet1 : string) (later : list string) :
  In planet1 (keys planets) ->
  (forall n, In n later -> In n (keys planets)) ->
  forall acc, exists added,
    aspectsWith planets planet1 later acc = JS.Return (acc ++ added) /\
    (List.length added <= List.length later)%nat /\
    (forall a, In a added ->
       NatalChart.planet1 a = planet1 /\ In (planet2 a) later /\
       aspectOfPair planets a).
Proof.
  intros H1. induction later as [| n rest IH]; intros Hl acc.
  - exists []. cbn [aspectsWith]. rewrite app_nil_r.
    split; [reflexivity |]. split; [apply Nat.le_refl | intros a []].
  - cbn [aspectsWith].
    destruct (getKey_keys _ _ H1) as (e1 & E1). rewrite E1.
    destruct (getKey_keys n planets (Hl n (or_introl eq_refl))) as (e2 & E2).
    rewrite E2.
    assert (forall m, In m rest -> In m (keys planets)) as Hrest
      by (intros m Hm; apply Hl; right; exact Hm).
    destruct (calculateAspect _ _) as [a |] eqn:Ea.
    + match goal with
      | |- context [aspectsWith planets planet1 rest (acc ++ [?x])] =>
          destruct (IH Hrest (acc ++ [x])) as (added & Er & Hlen & Hin)
      end.
      eexists (_ :: added). rewrite Er, <- app_assoc.
      split; [reflexivity |]. cbn [List.length].
      split; [lia |].
      intros x [<- | Hx].
      * cbn [NatalChart.planet1 planet2].
        split; [reflexivity |]. split; [left; reflexivity |].
        exists e1, e2. cbn [NatalChart.planet1 planet2 aspect].
        split; [exact E1 |]. split; [exact E2 | exact Ea].
      * destruct (Hin x Hx) as (P1 & P2 & P3).
        split; [exact P1 |]. split; [right; exact P2 | exact P3].
    + destruct (IH Hrest acc) as (added & Er & Hlen & Hin).
      exists added. split; [exact Er |]. cbn [List.length].
      split; [lia |].
      intros x Hx. destruct (Hin x Hx) as (P1 & P2 & P3).
      split; [exact P1 |]. split; [right; exact P2 | exact P3].
Qed.

Lemma aspectsLoop_returns (planets : list (string * PlanetEntry))
      (names : list string) :
  (forall n, In n names -> In n (keys planets)) ->
  forall acc, exists added,
    aspectsLoop planets names acc = JS.Return (acc ++ added) /\
    (2 * List.length added <= List.length names * (List.length names - 1))%nat
    /\
    (forall a, In a added ->
       (exists l1 l2 l3,
          names = l1 ++ planet1 a :: l2 ++ planet2 a :: l3) /\
       aspectOfPair planets a).
Proof.
  induction names as [| n rest IH]; intros Hl acc.
  - exists []. cbn [aspectsLoop]. rewrite app_nil_r.
    split; [reflexivity |]. split; [cbn; lia | intros a []].
  - cbn [aspectsLoop].
    assert (forall m, In m rest -> In m (keys planets)) as Hrest
      by (intros m Hm; apply Hl; right; exact Hm).
    destruct (aspectsWith_returns planets n rest
                (Hl n (or_introl eq_refl)) Hrest acc)
      as (add1 & E1 & Len1 & In1).
    rewrite E1. cbn [JS.bind].
    destruct (IH Hrest (acc ++ add1)) as (add2 & E2 & Len2 & In2).
    exists (add1 ++ add2). rewrite E2, <- app_assoc.
    split; [reflexivity |].
    split.
    { rewrite length_app. cbn [List.length].
      rewrite Nat.sub_succ, Nat.sub_0_r.
      destruct (List.length rest) as [| r]; [cbn in *; lia |].
      cbn [Nat.sub] in Len2. rewrite Nat.sub_0_r in Len2. nia. }
    intros a Ha. apply in_app_or in Ha. destruct Ha as [Ha | Ha].
    + destruct (In1 a Ha) as (P1 & P2 & P3).
      split; [| exact P3].
      apply in_split in P2. destruct P2 as (l2 & l3 & ->).
      exists [], l2, l3. rewrite P1. reflexivity.
    + destruct (In2 a Ha) as ((l1 & l2 & l3 & ->) & P3).
      split; [| exact P3].
      exists (n :: l1), l2, l3. reflexivity.
Qed.

(** The whole loop: it returns, and what it returns pairs each key with
    later keys only. *)
Lemma calculateAllAspects_found (planets : list (string * PlanetEntry)) :
  exists found,
    calculateAllAspects planets = JS.Return found /\
    (2 * List.length found <=
     List.length planets * (List.length planets - 1))%nat /\
    (forall a, In a found ->
       (exists l1 l2 l3,
          keys planets = l1 ++ planet1 a :: l2 ++ planet2 a :: l3) /\
       (NoDup (keys planets) -> planet1 a <> planet2 a) /\
       aspectOfPair planets a).
Proof.
  unfold calculateAllAspects.
  destruct (aspectsLoop_returns planets (keys planets) (fun n H => H) [])
    as (found & E & Len & Hin).
  exists found. cbn [app] in E. split; [exact E |].
  split; [unfold keys in Len; rewrite length_map in Len; exact Len |].
  intros a Ha. destruct (Hin a Ha) as ((l1 & l2 & l3 & Ek) & P).
  split; [exists l1, l2, l3; exact Ek |]. split; [| exact P].
  intros Hnd Heq. rewrite Ek in Hnd.
  apply NoDup_remove_2 in Hnd. apply Hnd.
  apply in_or_app. right. apply in_or_app. right. left.
  symmetry. exact Heq.
Qed.

(** The chart [calculateBirthChart] returns, field by field. *)
Lemma calculateBirthChart_chart (b : BirthChart.BirthData) :
  exists chart,
    calculateBirthChart b = JS.Return chart /\
    julianDay chart = BirthChart.julianDay b /\
    houses chart = calculateHouses (julianDay chart)
                     (BirthChart.latitude b) (BirthChart.longitude b) /\
    ascendant chart = frameAscendant (houses chart) /\
    midheaven chart = frameMc (houses chart) /\
    calculateAllAspects (planets chart) = JS.Return (aspects chart) /\
    keys (planets chart) =
      [ "sun"; "moon"; "mercury"; "venus"; "mars"; "jupiter"; "saturn";
        "uranus"; "neptune"; "pluto"; "true_node"; "chiron" ]%string /\
    Forall2 (fun ent ke =>
               calculatePlanetPosition (julianDay chart) (snd ent)
                 = JS.Return (position (snd ke)) /\
               getHousePosition (positionLongitude (position (snd ke)))
                                (cusps (houses chart))
                 = JS.Return (house (snd ke)) /\
               (1 <= house (snd ke) <= 12)%Z /\
               houseName (snd ke) = lookup (house (snd ke)) HOUSES /\
               exists s, houseName (snd ke) = Some s)
            PLANETS.entries (planets chart).
Proof.
  unfold calculateBirthChart. cbv zeta.
  set (jd := BirthChart.julianDay b).
  set (frame := calculateHouses jd (BirthChart.latitude b)
                                (BirthChart.longitude b)).
  assert (forall i, In i houseNumbers ->
                    exists c, lookup i (cusps frame) = Some c) as Hc.
  { destruct (calculateHouses_cusps jd (BirthChart.latitude b)
                (BirthChart.longitude b)) as (a & _ & _ & Ea).
    fold frame in Ea. rewrite Ea. apply houseCusps_complete. }
  destruct (collectPlanets_all jd (cusps frame) PLANETS.entries Hc [])
    as (es & E1 & E2 & E3); [exact planet_keys_NoDup |].
  cbn [app] in E1. rewrite E1.
  destruct (calculateAllAspects_found es) as (found & Ef & _).
  rewrite Ef. cbn [JS.bind]. eexists. split; [reflexivity |].
  cbn [julianDay houses ascendant midheaven planets aspects].
  split; [reflexivity |]. split; [reflexivity |]. split; [reflexivity |].
  split; [reflexivity |]. split; [exact Ef |].
  split; [rewrite E2; reflexivity |].
  revert E3. apply Forall2_impl. intros [n c] [k e]. cbn [snd]. intros Ee.
  destruct (planetEntry_total jd (cusps frame) c Hc)
    as (e' & Ee' & P1 & P2 & P3 & P4).
  rewrite Ee in Ee'. injection Ee' as <-.
  split; [exact P1 |]. split; [exact P2 |]. split; [exact P3 | exact P4].
Qed.

(** X15. [calculateAllAspects] never throws.  Each aspect it reports pairs
    a key of the object with a later key, carries what [calculateAspect]
    finds for the longitudes of the two entries, and there are at most
    [n * (n - 1) / 2] of them for [n] keys; with distinct keys no entry is
    paired with itself. *)
Theorem calculateAllAspects_pairs (planets : list (string * PlanetEntry)) :
  exists found,
    calculateAllAspects planets = JS.Return found /\
    (2 * List.length found <=
     List.length planets * (List.length planets - 1))%nat /\
    (forall a, In a found ->
       (exists l1 l2 l3,
          keys planets = l1 ++ planet1 a :: l2 ++ planet2 a :: l3) /\
       (NoDup (keys planets) -> planet1 a <> planet2 a) /\
       aspectOfPair planets a).
Proof. exact (calculateAllAspects_found planets). Qed.

(** X16. [calculateBirthChart] always returns a chart, and the chart is
    complete: its bodies are the twelve of [PLANETS], under their
    lower-cased names and in that order, none left out; each carries the
    position [calculatePlanetPosition] gives at the chart's Julian Day, a
    house from 1 to 12 found by [getHousePosition] on the chart's own
    cusps, and the name [HOUSES] gives that house.  Its aspects are those of
    [calculateAllAspects] on its bodies, its Ascendant and Midheaven those
    of its house frame. *)
Theorem calculateBirthChart_complete (b : BirthChart.BirthData) :
  exists chart,
    calculateBirthChart b = JS.Return chart /\
    julianDay chart = BirthChart.julianDay b /\
    houses chart = calculateHouses (julianDay chart)
                     (BirthChart.latitude b) (BirthChart.longitude b) /\
    ascendant chart = frameAscendant (houses chart) /\
    midheaven chart = frameMc (houses chart) /\
    calculateAllAspects (planets chart) = JS.Return (aspects chart) /\
    keys (planets chart) =
      [ "sun"; "moon"; "mercury"; "venus"; "mars"; "jupiter"; "saturn";
        "uranus"; "neptune"; "pluto"; "true_node"; "chiron" ]%string /\
    Forall2 (fun ent ke =>
               calculatePlanetPosition (julianDay chart) (snd ent)
                 = JS.Return (position (snd ke)) /\
               getHousePosition (positionLongitude (position (snd ke)))
                                (cusps (houses chart))
                 = JS.Return (house (snd ke)) /\
               (1 <= house (snd ke) <= 12)%Z /\
               houseName (snd ke) = lookup (house (snd ke)) HOUSES /\
               exists s, houseName (snd ke) = Some s)
            PLANETS.entries (planets chart).
Proof. exact (calculateBirthChart_chart b). Qed.

End ChartFacts.


(* ================================================================== *)
(** * Reading a chart *)
(* ================================================================== *)

Lemma lowerChar_upperChar (c : ascii) :
  JSString.lowerChar (JSString.upperChar c) = JSString.lowerChar c.
Proof.
  destruct c as [[] [] [] [] [] [] [] []]; reflexivity.
Qed.

Lemma lowerChar_idempotent (c : ascii) :
  JSString.lowerChar (JSString.lowerChar c) = JSString.lowerChar c.
Proof.
  destruct c as [[] [] [] [] [] [] [] []]; reflexivity.
Qed.

Lemma toLowerCase_toUpperCase (s : string) :
  JSString.toLowerCase (JSString.toUpperCase s) = JSString.toLowerCase s.
Proof.
  induction s as [| c rest IH]; cbn [JSString.toLowerCase JSString.toUpperCase];
    [reflexivity |].
  now rewrite lowerChar_upperChar, IH.
Qed.

Lemma toLowerCase_idempotent (s : string) :
  JSString.toLowerCase (JSString.toLowerCase s) = JSString.toLowerCase s.
Proof.
  induction s as [| c rest IH]; cbn [JSString.toLowerCase]; [reflexivity |].
  now rewrite lowerChar_idempotent, IH.
Qed.

Lemma lookup_not_in {A : Type} (k : Z) (t : list (Z * A)) :
  ~ In k (map fst t) -> lookup k t = None.
Proof.
  induction t as [| [k' v] rest IH]; intros H; cbn [lookup]; [reflexivity |].
  destruct (Z.eqb_spec k' k) as [-> | Hne].
  - exfalso. apply H. left. reflexivity.
  - apply IH. intros Hin. apply H. right. exact Hin.
Qed.

(** Each cusp of the table carries the zodiac placement of its own
    longitude. *)
Lemma houseCusps_zodiac (a : Q) (i : Z) (c : HouseCusp) :
  lookup i (houseCusps a) = Some c ->
  cuspZodiac c = getZodiacPosition (cusp c).
Proof.
  intros Hl. apply lookup_In in Hl.
  unfold houseCusps, houseNumbers in Hl. cbn [map In] in Hl.
  repeat (destruct Hl as [Hl | Hl]; [injection Hl as _ <-; reflexivity |]).
  destruct Hl.
Qed.

Section ChartQueries.

Context {M : JSMath}.

Import NatalChart.

Lemma house_count (l : list (string * PlanetEntry)) :
  (forall k e, In (k, e) l -> (1 <= house e <= 12)%Z) ->
  list_sum (map (fun h => List.length
                            (filter (fun e => Z.eqb (house (snd e)) h) l))
                houseNumbers)
  = List.length l.
Proof.
  induction l as [| [k e] rest IH]; intros H; [reflexivity |].
  assert (forall k' e', In (k', e') rest -> (1 <= house e' <= 12)%Z) as Hr
    by (intros k' e' Hin; apply (H k'); right; exact Hin).
  specialize (IH Hr). pose proof (H k e (or_introl eq_refl)) as Hh.
  unfold houseNumbers, list_sum in *. cbn [map fold_right filter snd] in *.
  assert (house e = 1 \/ house e = 2 \/ house e = 3 \/ house e = 4 \/
          house e = 5 \/ house e = 6 \/ house e = 7 \/ house e = 8 \/
          house e = 9 \/ house e = 10 \/ house e = 11 \/ house e = 12)%Z
    as C by lia.
  repeat (destruct C as [C | C];
          [rewrite C; cbn [Z.eqb Pos.eqb List.length]; lia |]).
  rewrite C. cbn [Z.eqb Pos.eqb List.length]. lia.
Qed.

(** X17. [getPlanetsInHouse] lists bodies of the chart that are in the
    asked house, under their display names; when every body of the chart
    has a house from 1 to 12, the lists of the twelve houses together hold
    each body once. *)
Theorem getPlanetsInHouse_partition (chart : Chart) :
  (forall h n e, In (n, e) (getPlanetsInHouse chart h) ->
     house e = h /\
     exists k, In (k, e) (planets chart) /\ n = formatPlanetName k) /\
  ((forall k e, In (k, e) (planets chart) -> (1 <= house e <= 12)%Z) ->
   list_sum (map (fun h => List.length (getPlanetsInHouse chart h))
                 houseNumbers)
   = List.length (planets chart)).
Proof.
  split.
  - intros h n e Hin. unfold getPlanetsInHouse in Hin.
    apply in_map_iff in Hin. destruct Hin as ([k e'] & [= <- <-] & Hf).
    apply filter_In in Hf. destruct Hf as [Hin Hh]. cbn [snd fst] in *.
    apply Z.eqb_eq in Hh. split; [exact Hh |].
    exists k. split; [exact Hin | reflexivity].
  - intros H. rewrite <- (house_count (planets chart) H).
    unfold getPlanetsInHouse. f_equal. apply map_ext.
    intros h. apply length_map.
Qed.

(** X18. [getAspectsToplanet] returns aspects of the chart in which the
    lower-cased name asked for is one of the two planets, and for a name in
    ASCII it does not mind the case of the name. *)
Theorem getAspectsToplanet_case (chart : Chart) (planetName : string) :
  (forall a, In a (getAspectsToplanet chart planetName) ->
     In a (aspects chart) /\
     (planet1 a = JSString.toLowerCase planetName \/
      planet2 a = JSString.toLowerCase planetName)) /\
  (asciiOnly planetName = true ->
   getAspectsToplanet chart (JSString.toUpperCase planetName)
     = getAspectsToplanet chart planetName /\
   getAspectsToplanet chart (JSString.toLowerCase planetName)
     = getAspectsToplanet chart planetName).
Proof.
  unfold getAspectsToplanet. cbv zeta.
  rewrite toLowerCase_toUpperCase, toLowerCase_idempotent.
  split; [| intros _; split; reflexivity].
  intros a Ha. apply filter_In in Ha. destruct Ha as [Hin Hb].
  split; [exact Hin |].
  apply orb_true_iff in Hb. destruct Hb as [Hb | Hb];
    apply String.eqb_eq in Hb; [left | right]; exact Hb.
Qed.

(** The keys of a computed chart are already in lower case. *)
Lemma chart_key_lower (k : string) :
  In k [ "sun"; "moon"; "mercury"; "venus"; "mars"; "jupiter"; "saturn";
         "uranus"; "neptune"; "pluto"; "true_node"; "chiron" ]%string ->
  JSString.toLowerCase k = k.
Proof.
  cbn [In]. intros H.
  repeat (destruct H as [<- | H]; [reflexivity |]). destruct H.
Qed.

(** The aspects listed under a key of a computed chart, asked for in lower
    or in upper case. *)
Lemma getAspectsToplanet_key (chart : Chart) (a : ChartAspect) (k : string) :
  In a (aspects chart) -> JSString.toLowerCase k = k ->
  planet1 a = k \/ planet2 a = k ->
  In a (getAspectsToplanet chart k) /\
  In a (getAspectsToplanet chart (JSString.toUpperCase k)).
Proof.
  intros Ha L Hk. unfold getAspectsToplanet. cbv zeta.
  rewrite toLowerCase_toUpperCase, L.
  assert (String.eqb (planet1 a) k || String.eqb (planet2 a) k = true) as Hb.
  { apply orb_true_iff. destruct Hk as [<- | <-]; [left | right];
      apply String.eqb_refl. }
  split; apply filter_In; split; assumption.
Qed.

(** X19. In a chart computed by [calculateBirthChart] every aspect pairs
    two different bodies of the chart (never the Ascendant or the
    Midheaven), carries what [calculateAspect] finds between them, and is
    found by [getAspectsToplanet] under the name of either of them, in
    lower or in upper case. *)
Theorem chart_aspects_found (b : BirthChart.BirthData) :
  exists chart,
    calculateBirthChart b = JS.Return chart /\
    forall a, In a (aspects chart) ->
      In (planet1 a) (keys (planets chart)) /\
      In (planet2 a) (keys (planets chart)) /\
      planet1 a <> planet2 a /\
      aspectOfPair (planets chart) a /\
      In a (getAspectsToplanet chart (planet1 a)) /\
      In a (getAspectsToplanet chart (planet2 a)) /\
      In a (getAspectsToplanet chart (JSString.toUpperCase (planet1 a))) /\
      In a (getAspectsToplanet chart (JSString.toUpperCase (planet2 a))).
Proof.
  destruct (calculateBirthChart_chart b)
    as (chart & Eb & _ & _ & _ & _ & Easp & Ekeys & _).
  exists chart. split; [exact Eb |]. intros a Ha.
  destruct (calculateAllAspects_found (planets chart))
    as (found & Ef & _ & Hfound).
  rewrite Easp in Ef. injection Ef as <-.
  destruct (Hfound a Ha) as ((l1 & l2 & l3 & Ek) & Hne & Hpair).
  assert (In (planet1 a) (keys (planets chart))) as H1.
  { rewrite Ek. apply in_or_app. right. left. reflexivity. }
  assert (In (planet2 a) (keys (planets chart))) as H2.
  { rewrite Ek. apply in_or_app. right. right.
    apply in_or_app. right. left. reflexivity. }
  split; [exact H1 |]. split; [exact H2 |].
  split; [apply Hne; rewrite Ekeys; exact planet_keys_NoDup |].
  split; [exact Hpair |].
  assert (JSString.toLowerCase (planet1 a) = planet1 a) as L1
    by (apply chart_key_lower; rewrite <- Ekeys; exact H1).
  assert (JSString.toLowerCase (planet2 a) = planet2 a) as L2
    by (apply chart_key_lower; rewrite <- Ekeys; exact H2).
  destruct (getAspectsToplanet_key chart a (planet1 a) Ha L1
              (or_introl eq_refl)) as [G1 U1].
  destruct (getAspectsToplanet_key chart a (planet2 a) Ha L2
              (or_intror eq_refl)) as [G2 U2].
  repeat (split; [assumption |]). assumption.
Qed.

Lemma signRulers_total (s : string) :
  In s SIGNS ->
  exists p, getKey s signRulers = Some p /\
            In p [ "sun"; "moon"; "mercury"; "venus"; "mars"; "jupiter";
                   "saturn"; "uranus"; "neptune"; "pluto" ]%string.
Proof.
  unfold SIGNS. cbn [In]. intros H.
  repeat (destruct H as [<- | H];
          [eexists; split; [reflexivity | cbn [In]; tauto] |]).
  destruct H.
Qed.

(** X20. In a chart computed by [calculateBirthChart], [getHouseRuler]
    answers for each house 1 to 12 with the sign on the cusp of that house,
    the planet the table [signRulers] gives for that sign (one of the ten
    planets from the Sun to Pluto, never the lunar node or Chiron) and that
    planet's entry in the chart; for any other house number it throws a
    [TypeError]. *)
Theorem getHouseRuler_computed (b : BirthChart.BirthData) :
  exists chart,
    calculateBirthChart b = JS.Return chart /\
    (forall h, In h houseNumbers ->
       exists c s p e,
         lookup h (cusps (houses chart)) = Some c /\
         sign (getZodiacPosition (cusp c)) = Some s /\
         In (s, p) signRulers /\
         p <> "true_node"%string /\ p <> "chiron"%string /\
         getKey p (planets chart) = Some e /\
         getHouseRuler chart h
           = JS.Return {| rulerHouse := h; cuspSign := Some s;
                          rulerPlanet := Some p;
                          rulerPosition := Some e |}) /\
    (forall h, ~ In h houseNumbers ->
       getHouseRuler chart h = JS.Throw JS.TypeError).
Proof.
  destruct (calculateBirthChart_chart b)
    as (chart & Eb & _ & Eh & _ & _ & _ & Ekeys & _).
  exists chart. split; [exact Eb |].
  destruct (calculateHouses_cusps (julianDay chart)
              (BirthChart.latitude b) (BirthChart.longitude b))
    as (asc & _ & _ & Ec).
  rewrite <- Eh in Ec.
  split.
  - intros h Hh.
    destruct (houseCusps_complete asc h Hh) as (c & El).
    pose proof (houseCusps_zodiac asc h c El) as Ez.
    destruct (zodiac_sign_some (cusp c)) as (s & Es & En).
    destruct (signRulers_total s En) as (p & Ep & Hp).
    assert (In p (keys (planets chart))) as Hk.
    { rewrite Ekeys. cbn [In] in *. tauto. }
    destruct (getKey_keys p (planets chart) Hk) as (e & Ee).
    exists c, s, p, e. rewrite Ec.
    split; [exact El |]. split; [exact Es |].
    split; [apply getKey_In; exact Ep |].
    split; [intros ->; cbn [In] in Hp; intuition discriminate |].
    split; [intros ->; cbn [In] in Hp; intuition discriminate |].
    split; [exact Ee |].
    unfold getHouseRuler. rewrite Ec, El, Ez, Es. cbv zeta. cbn [getKeyOf].
    rewrite Ep. cbn [getKeyOf]. rewrite Ee. reflexivity.
  - intros h Hh. unfold getHouseRuler.
    rewrite lookup_not_in; [reflexivity |]. rewrite Ec. exact Hh.
Qed.

End ChartQueries.

Lemma Forall2_In_r {A B : Type} (R : A -> B -> Prop) (l1 : list A)
      (l2 : list B) (y : B) :
  Forall2 R l1 l2 -> In y l2 -> exists x, In x l1 /\ R x y.
Proof.
  induction 1 as [| x y' l1 l2 Hxy _ IH]; intros Hin; [destruct Hin |].
  destruct Hin as [<- | Hin].
  - exists x. split; [left; reflexivity | exact Hxy].
  - destruct (IH Hin) as (x' & Hx' & Hr).
    exists x'. split; [right; exact Hx' | exact Hr].
Qed.

Section ChartQueriesAtWork.

Import NatalChart.

Lemma getPlanetsInHouse_partition_witness :
  exists chart,
    calculateBirthChart (M := approxMath) sampleBirth = JS.Return chart /\
    list_sum (map (fun h => List.length (getPlanetsInHouse chart h))
                  houseNumbers) = 12%nat.
Proof.
  destruct (calculateBirthChart_chart (M := approxMath) sampleBirth)
    as (chart & E & _ & _ & _ & _ & _ & Ek & F).
  exists chart. split; [exact E |].
  rewrite (proj2 (getPlanetsInHouse_partition chart)).
  - rewrite <- (length_map fst). fold (keys (planets chart)).
    rewrite Ek. reflexivity.
  - intros k e Hin.
    destruct (Forall2_In_r _ _ _ _ F Hin) as (x & _ & _ & _ & Hh & _).
    exact Hh.
Defined.

Lemma getAspectsToplanet_case_witness :
  exists chart,
    calculateBirthChart (M := approxMath) sampleBirth = JS.Return chart /\
    getAspectsToplanet chart "SUN" = getAspectsToplanet chart "sun".
Proof.
  destruct (calculateBirthChart_chart (M := approxMath) sampleBirth)
    as (chart & E & _).
  exists chart. split; [exact E |].
  exact (proj1 (proj2 (getAspectsToplanet_case chart "sun") eq_refl)).
Defined.

Lemma getHouseRuler_computed_witness :
  exists chart r,
    calculateBirthChart (M := approxMath) sampleBirth = JS.Return chart /\
    getHouseRuler chart 1 = JS.Return r /\
    getHouseRuler chart 13 = JS.Throw JS.TypeError.
Proof.
  destruct (getHouseRuler_computed (M := approxMath) sampleBirth)
    as (chart & E & H1 & H2).
  destruct (H1 1%Z) as (c & s & p & e & _ & _ & _ & _ & _ & _ & Er);
    [left; reflexivity |].
  exists chart. eexists. split; [exact E |]. split; [exact Er |].
  apply H2. unfold houseNumbers. cbn [In]. lia.
Defined.

End ChartQueriesAtWork.

(* ================================================================== *)
(** * No pair of bodies is missed *)
(* ================================================================== *)

Section AspectsComplete.

Import NatalChart.

Lemma aspectsWith_complete (planets : list (string * PlanetEntry))
      (p1 : string) (later : list string) :
  In p1 (keys planets) ->
  (forall n, In n later -> In n (keys planets)) ->
  forall acc, exists added,
    aspectsWith planets p1 later acc = JS.Return (acc ++ added) /\
    forall n2 e1 e2 x,
      In n2 later ->
      getKey p1 planets = Some e1 -> getKey n2 planets = Some e2 ->
      calculateAspect (positionLongitude (position e1))
                      (positionLongitude (position e2)) = Some x ->
      exists a, In a added /\ planet1 a = p1 /\ planet2 a = n2 /\
                aspect a = x.
Proof.
  intros H1. induction later as [| n rest IH]; intros Hl acc.
  - exists []. cbn [aspectsWith]. rewrite app_nil_r.
    split; [reflexivity |]. intros n2 e1 e2 x [].
  - cbn [aspectsWith].
    destruct (getKey_keys _ _ H1) as (e1 & E1). rewrite E1.
    destruct (getKey_keys n planets (Hl n (or_introl eq_refl))) as (e2 & E2).
    rewrite E2.
    assert (forall m, In m rest -> In m (keys planets)) as Hrest
      by (intros m Hm; apply Hl; right; exact Hm).
    destruct (calculateAspect _ _) as [a |] eqn:Ea.
    + match goal with
      | |- context [aspectsWith planets p1 rest (acc ++ [?x])] =>
          destruct (IH Hrest (acc ++ [x])) as (added & Er & Hc);
          exists (x :: added)
      end.
      rewrite Er, <- app_assoc. split; [reflexivity |].
      intros n2 e1' e2' y Hn G1 G2 Hy.
      assert (e1' = e1) as -> by congruence.
      destruct Hn as [<- | Hn].
      * assert (e2' = e2) as -> by congruence.
        rewrite Ea in Hy. injection Hy as <-.
        eexists. split; [left; reflexivity |].
        cbn [planet1 planet2 aspect]. repeat split.
      * destruct (Hc n2 e1 e2' y Hn E1 G2 Hy) as (b & Hb & P).
        exists b. split; [right; exact Hb | exact P].
    + destruct (IH Hrest acc) as (added & Er & Hc).
      exists added. split; [exact Er |].
      intros n2 e1' e2' y Hn G1 G2 Hy.
      assert (e1' = e1) as -> by congruence.
      destruct Hn as [<- | Hn].
      * assert (e2' = e2) as -> by congruence.
        rewrite Ea in Hy. discriminate Hy.
      * exact (Hc n2 e1 e2' y Hn E1 G2 Hy).
Qed.

Lemma aspectsLoop_complete (planets : list (string * PlanetEntry))
      (names : list string) :
  (forall n, In n names -> In n (keys planets)) ->
  forall acc, exists added,
    aspectsLoop planets names acc = JS.Return (acc ++ added) /\
    forall l1 n1 l2 n2 l3 e1 e2 x,
      names = l1 ++ n1 :: l2 ++ n2 :: l3 ->
      getKey n1 planets = Some e1 -> getKey n2 planets = Some e2 ->
      calculateAspect (positionLongitude (position e1))
                      (positionLongitude (position e2)) = Some x ->
      exists a, In a added /\ planet1 a = n1 /\ planet2 a = n2 /\
                aspect a = x.
Proof.
  induction names as [| n rest IH]; intros Hl acc.
  - exists []. cbn [aspectsLoop]. rewrite app_nil_r.
    split; [reflexivity |].
    intros l1 n1 l2 n2 l3 e1 e2 x E. destruct l1; discriminate E.
  - cbn [aspectsLoop].
    assert (forall m, In m rest -> In m (keys planets)) as Hrest
      by (intros m Hm; apply Hl; right; exact Hm).
    destruct (aspectsWith_complete planets n rest
                (Hl n (or_introl eq_refl)) Hrest acc)
      as (added1 & E1 & C1).
    rewrite E1. cbn [JS.bind].
    destruct (IH Hrest (acc ++ added1)) as (added2 & E2 & C2).
    exists (added1 ++ added2). rewrite E2, <- app_assoc.
    split; [reflexivity |].
    intros l1 n1 l2 n2 l3 e1 e2 x E G1 G2 Hx.
    destruct l1 as [| m l1'].
    + cbn [app] in E. injection E as <- ->.
      destruct (C1 n2 e1 e2 x) as (a & Ha & P); try assumption.
      { apply in_or_app. right. left. reflexivity. }
      exists a. split; [apply in_or_app; left; exact Ha | exact P].
    + cbn [app] in E. injection E as _ ->.
      destruct (C2 l1' n1 l2 n2 l3 e1 e2 x eq_refl G1 G2 Hx)
        as (a & Ha & P).
      exists a. split; [apply in_or_app; right; exact Ha | exact P].
Qed.

(** X21. [calculateAllAspects] misses no pair: whenever a key of the object
    stands before another one and [calculateAspect] finds an aspect between
    the longitudes of their entries, the returned list holds an entry for
    that pair, in that order, with that aspect. *)
Theorem calculateAllAspects_complete
        (planets : list (string * PlanetEntry)) :
  exists found,
    calculateAllAspects planets = JS.Return found /\
    forall l1 n1 l2 n2 l3 e1 e2 x,
      keys planets = l1 ++ n1 :: l2 ++ n2 :: l3 ->
      getKey n1 planets = Some e1 -> getKey n2 planets = Some e2 ->
      calculateAspect (positionLongitude (position e1))
                      (positionLongitude (position e2)) = Some x ->
      exists a, In a found /\ planet1 a = n1 /\ planet2 a = n2 /\
                aspect a = x.
Proof.
  unfold calculateAllAspects.
  destruct (aspectsLoop_complete planets (keys planets) (fun n H => H) [])
    as (found & E & C).
  exists found. split; [exact E | exact C].
Qed.

End AspectsComplete.

(* ================================================================== *)
(** * The transit sampler *)
(* ================================================================== *)

Lemma getMonthName_named (m : Z) :
  (1 <= m <= 12)%Z ->
  exists s, Transits.getMonthName m = Some s /\ s <> ""%string.
Proof.
  intros H.
  assert (m = 1 \/ m = 2 \/ m = 3 \/ m = 4 \/ m = 5 \/ m = 6 \/ m = 7 \/
          m = 8 \/ m = 9 \/ m = 10 \/ m = 11 \/ m = 12)%Z as C by lia.
  repeat (destruct C as [-> | C];
          [eexists; split; [reflexivity | discriminate] |]).
  subst m. eexists. split; [reflexivity | discriminate].
Qed.

(** Month [k] months after January of year [y]: the later key is the later
    day, even from the 15th of the one to the 1st of the other. *)
Lemma dayNumber_months_lt (y k k' : Z) :
  (0 <= k)%Z -> (k < k')%Z ->
  (dayNumber (y + k / 12) (k mod 12 + 1) 15
   < dayNumber (y + k' / 12) (k' mod 12 + 1) 1)%Z.
Proof.
  intros H0 Hlt.
  pose proof (daysInMonth_bounds (y + k / 12) (k mod 12 + 1)) as Hb.
  assert (k / 12 < k' / 12 \/
          (k / 12 = k' / 12 /\ k mod 12 < k' mod 12))%Z as [Hy | [Ey Hm]]
    by (Z.div_mod_to_equations; lia).
  - apply dayNumber_year_lt; try lia; Z.div_mod_to_equations; lia.
  - rewrite <- Ey. apply dayNumber_month_lt; try lia;
      Z.div_mod_to_equations; lia.
Qed.

Section TransitSampler.

Context {M : JSMath}.

Import Transits.

Lemma collectTransits_all (jd : Q) (entries : list (string * Z)) :
  forall acc,
    NoDup (keys acc ++
           map (fun e => JSString.toLowerCase (fst e)) entries) ->
    exists ps,
      collectTransits jd entries acc = acc ++ ps /\
      keys ps = map (fun e => JSString.toLowerCase (fst e)) entries /\
      Forall2 (fun ent kp => calculatePlanetPosition jd (snd ent)
                             = JS.Return (snd kp)) entries ps.
Proof.
  induction entries as [| [n c] rest IH]; intros acc Hnd.
  - exists []. cbn [collectTransits]. rewrite app_nil_r.
    split; [reflexivity |]. split; [reflexivity | constructor].
  - cbn [collectTransits].
    destruct (calculatePlanetPosition_cases jd c) as (b & Ep & _).
    rewrite Ep.
    cbn [map fst] in Hnd.
    assert (~ In (JSString.toLowerCase n) (keys acc)) as Hfresh.
    { apply NoDup_remove_2 in Hnd. intros Hin. apply Hnd.
      apply in_or_app. left. exact Hin. }
    rewrite (setKey_fresh _ _ acc Hfresh).
    match goal with
    | |- context [collectTransits jd rest (acc ++ [?x])] =>
        destruct (IH (acc ++ [x])) as (ps & E1 & E2 & E3);
        [| exists (x :: ps)]
    end.
    { unfold keys. rewrite map_app. cbn [map fst]. rewrite <- app_assoc.
      exact Hnd. }
    rewrite E1, <- app_assoc. split; [reflexivity |].
    cbn [keys map fst]. split; [f_equal; exact E2 |].
    constructor; [exact Ep | exact E3].
Qed.

(** The sample [calculateTransits] returns, field by field. *)
Lemma calculateTransits_sample (y m d : Q) :
  let t := calculateTransits y m d in
  date t = (y, m, d) /\
  julianDay t = dateToJulianDay y m d 12 /\
  keys (planets t) =
    [ "sun"; "moon"; "mercury"; "venus"; "mars"; "jupiter"; "saturn";
      "uranus"; "neptune"; "pluto"; "true_node"; "chiron" ]%string /\
  Forall2 (fun ent kp => calculatePlanetPosition (julianDay t) (snd ent)
                         = JS.Return (snd kp))
          PLANETS.entries (planets t).
Proof.
  unfold calculateTransits. cbv zeta. cbn [date julianDay planets].
  destruct (collectTransits_all (dateToJulianDay y m d 12) PLANETS.entries [])
    as (ps & E1 & E2 & E3); [exact planet_keys_NoDup |].
  cbn [app] in E1. rewrite E1.
  split; [reflexivity |]. split; [reflexivity |].
  split; [rewrite E2; reflexivity | exact E3].
Qed.

(** X22. [calculateTransits] samples the sky at noon of the day asked for:
    the Julian Day is that of 12 h, and the sample holds the twelve bodies
    of [PLANETS] under their lower-cased names and in that order, each
    with the position [calculatePlanetPosition] gives at that Julian Day;
    the [catch] branch never leaves one out. *)
Theorem calculateTransits_complete (y m d : Q) :
  let t := calculateTransits y m d in
  date t = (y, m, d) /\
  julianDay t = dateToJulianDay y m d 12 /\
  keys (planets t) =
    [ "sun"; "moon"; "mercury"; "venus"; "mars"; "jupiter"; "saturn";
      "uranus"; "neptune"; "pluto"; "true_node"; "chiron" ]%string /\
  Forall2 (fun ent kp => calculatePlanetPosition (julianDay t) (snd ent)
                         = JS.Return (snd kp))
          PLANETS.entries (planets t).
Proof. exact (calculateTransits_sample y m d). Qed.

(** The loop of [calculate12MonthTransits], entry by entry. *)
Lemma monthsLoop_entries (n : nat) :
  forall (i y m : Z) (acc : list MonthlyTransit),
    (1 <= m <= 12)%Z ->
    exists l,
      monthsLoop n i y m acc = acc ++ l /\
      List.length l = n /\
      forall k, (k < n)%nat ->
        exists e,
          nth_error l k = Some e /\
          monthIndex e = (i + Z.of_nat k)%Z /\
          month e = ((m - 1 + Z.of_nat k) mod 12 + 1)%Z /\
          year e = (y + (m - 1 + Z.of_nat k) / 12)%Z /\
          monthName e = getMonthName (month e) /\
          transitsStart e
            = calculateTransits (inject_Z (year e)) (inject_Z (month e)) 1 /\
          transitsMid e
            = calculateTransits (inject_Z (year e)) (inject_Z (month e)) 15.
Proof.
  induction n as [| n IH]; intros i y m acc Hm.
  - exists []. cbn [monthsLoop]. rewrite app_nil_r.
    split; [reflexivity |]. split; [reflexivity |]. intros k Hk. lia.
  - cbn [monthsLoop]. cbv zeta.
    set (m' := if (12 <? m + 1)%Z then 1%Z else (m + 1)%Z).
    set (y' := if (12 <? m + 1)%Z then (y + 1)%Z else y).
    assert ((let '(month, year) :=
               if (12 <? m + 1)%Z then (1%Z, (y + 1)%Z) else ((m + 1)%Z, y)
             in (month, year)) = (m', y')) as Epair
      by (subst m' y'; destruct (12 <? m + 1)%Z; reflexivity).
    assert ((1 <= m' <= 12)%Z /\
            forall k : Z, (0 <= k)%Z ->
              ((m' - 1 + k) mod 12 = (m - 1 + (k + 1)) mod 12 /\
               y' + (m' - 1 + k) / 12 = y + (m - 1 + (k + 1)) / 12)%Z)
      as [Hm' Hstep].
    { subst m' y'. destruct (Z.ltb_spec 12 (m + 1)) as [L | L].
      - split; [lia |]. intros k Hk. assert (m = 12%Z) as -> by lia.
        split; Z.div_mod_to_equations; lia.
      - split; [lia |]. intros k Hk.
        replace (m + 1 - 1 + k)%Z with (m - 1 + (k + 1))%Z by lia.
        split; reflexivity. }
    match goal with
    | |- context [acc ++ [?x]] => set (entry := x)
    end.
    destruct (IH (i + 1)%Z y' m' (acc ++ [entry]) Hm')
      as (l & El & Hlen & Hent).
    exists (entry :: l). split.
    + rewrite <- app_assoc in El. cbn [app] in El. rewrite <- El.
      subst m' y'. destruct (12 <? m + 1)%Z; reflexivity.
    + split; [cbn [List.length]; rewrite Hlen; reflexivity |].
      intros [| k] Hk.
      * exists entry. cbn [nth_error]. split; [reflexivity |].
        subst entry. cbn [monthIndex month year monthName
                          transitsStart transitsMid].
        change (Z.of_nat 0) with 0%Z. rewrite !Z.add_0_r.
        assert (((m - 1) mod 12 + 1 = m)%Z /\ ((m - 1) / 12 = 0)%Z)
          as [-> Ey] by (Z.div_mod_to_equations; lia).
        rewrite Ey, Z.add_0_r. repeat split.
      * destruct (Hent k) as (e & E1 & E2 & E3 & E4 & E5); [lia |].
        exists e. cbn [nth_error]. split; [exact E1 |].
        destruct (Hstep (Z.of_nat k)) as [S1 S2]; [lia |].
        replace (Z.of_nat (S k)) with (Z.of_nat k + 1)%Z by lia.
        rewrite <- S1, <- S2.
        split; [lia |]. split; [exact E3 |]. split; [exact E4 | exact E5].
Qed.

(** X23. For a start month from 1 to 12, [calculate12MonthTransits] returns
    twelve entries, one for each of the twelve months from the start month
    on, rolling over into the next year after December, each with the name
    of its month.  Each entry samples the sky at noon on the 1st and on the
    15th of its month: two whole Julian Days, 14 apart, and every entry
    lies wholly before the next ones. *)
Theorem calculate12MonthTransits_schedule (startYear startMonth : Z) :
  (1 <= startMonth <= 12)%Z ->
  let ms := calculate12MonthTransits startYear startMonth in
  List.length ms = 12%nat /\
  (forall k, (k < 12)%nat ->
     exists e,
       nth_error ms k = Some e /\
       monthIndex e = Z.of_nat k /\
       month e = ((startMonth - 1 + Z.of_nat k) mod 12 + 1)%Z /\
       year e = (startYear + (startMonth - 1 + Z.of_nat k) / 12)%Z /\
       monthName e = getMonthName (month e) /\
       (exists s, monthName e = Some s /\ s <> ""%string) /\
       transitsStart e
         = calculateTransits (inject_Z (year e)) (inject_Z (month e)) 1 /\
       transitsMid e
         = calculateTransits (inject_Z (year e)) (inject_Z (month e)) 15 /\
       julianDay (transitsStart e)
         == inject_Z (dayNumber (year e) (month e) 1 - 1524) /\
       julianDay (transitsMid e) == julianDay (transitsStart e) + 14) /\
  (forall j k e e', (j < k)%nat ->
     nth_error ms j = Some e -> nth_error ms k = Some e' ->
     julianDay (transitsMid e) < julianDay (transitsStart e')).
Proof.
  intros Hm ms.
  destruct (monthsLoop_entries 12 0 startYear startMonth [] Hm)
    as (l & El & Hlen & Hent).
  cbn [app] in El. fold (calculate12MonthTransits startYear startMonth) in El.
  fold ms in El. rewrite El. clear El ms.
  assert (forall y m d, julianDay (calculateTransits (inject_Z y)
                                     (inject_Z m) (inject_Z d))
                        == inject_Z (dayNumber y m d - 1524)) as Hjd.
  { intros y m d. unfold calculateTransits. cbv zeta. cbn [julianDay].
    apply dateToJulianDay_noon_whole. }
  split; [exact Hlen |]. split.
  - intros k Hk.
    destruct (Hent k Hk) as (e & E1 & E2 & E3 & E4 & E5 & E6 & E7).
    exists e. split; [exact E1 |]. split; [rewrite E2; lia |].
    split; [exact E3 |]. split; [exact E4 |]. split; [exact E5 |].
    split; [rewrite E5; apply getMonthName_named; rewrite E3;
            Z.div_mod_to_equations; lia |].
    split; [exact E6 |]. split; [exact E7 |].
    rewrite E6, E7.
    change 1 with (inject_Z 1). change 15 with (inject_Z 15).
    rewrite !Hjd.
    split; [reflexivity |].
    rewrite (dayNumber_day _ _ 15), (dayNumber_day _ _ 1).
    change 14 with (inject_Z 14). rewrite <- inject_Z_plus.
    apply inject_Z_injective. lia.
  - intros j k e e' Hjk Ej Ek.
    assert ((k < 12)%nat) as Hk
      by (rewrite <- Hlen; apply nth_error_Some; rewrite Ek; discriminate).
    destruct (Hent j) as (e0 & F1 & _ & F3 & F4 & _ & _ & F7); [lia |].
    destruct (Hent k Hk) as (e1 & G1 & _ & G3 & G4 & _ & G6 & _).
    rewrite Ej in F1. injection F1 as <-.
    rewrite Ek in G1. injection G1 as <-.
    rewrite F7, G6.
    change 1 with (inject_Z 1). change 15 with (inject_Z 15).
    rewrite !Hjd, F3, F4, G3, G4. rewrite <- Zlt_Qlt.
    apply Z.sub_lt_mono_r. apply dayNumber_months_lt; lia.
Qed.

End TransitSampler.

Section TransitSamplerAtWork.

Import Transits.

Lemma calculate12MonthTransits_schedule_witness :
  exists e,
    nth_error (calculate12MonthTransits (M := approxMath) 2024 11) 2
      = Some e /\
    month e = 1%Z /\ year e = 2025%Z /\ monthName e = Some "January"%string.
Proof.
  destruct (calculate12MonthTransits_schedule (M := approxMath) 2024 11)
    as (_ & H & _); [lia |].
  destruct (H 2%nat) as (e & E1 & _ & E3 & E4 & E5 & _); [lia |].
  exists e. split; [exact E1 |]. split; [exact E3 |]. split; [exact E4 |].
  rewrite E5, E3. reflexivity.
Defined.

End TransitSamplerAtWork.

(* ================================================================== *)
(** * Transits against a natal chart *)
(* ================================================================== *)

Lemma includes_In (l : list string) (s : string) :
  JSString.includes l s = true <-> In s l.
Proof.
  unfold JSString.includes. rewrite existsb_exists. split.
  - intros (x & Hx & E). apply String.eqb_eq in E. subst x. exact Hx.
  - intros H. exists s. split; [exact H | apply String.eqb_refl].
Qed.

(** Counting the entries whose key passes a test is counting the keys
    that pass it. *)
Lemma filter_keys_length {A : Type} (f : string -> bool)
      (o : list (string * A)) :
  List.length (filter (fun kv => f (fst kv)) o)
  = List.length (filter f (keys o)).
Proof.
  induction o as [| [k v] rest IH]; [reflexivity |].
  cbn [filter keys map fst].
  destruct (f k); cbn [List.length]; [f_equal |]; exact IH.
Qed.

(** Of a list without repetition, no more elements pass the test [includes]
    than the list tested against has. *)
Lemma includes_count {A : Type} (among : list string)
      (o : list (string * A)) :
  NoDup (keys o) ->
  (List.length (filter (fun kv => JSString.includes among (fst kv)) o)
   <= List.length among)%nat.
Proof.
  intros Hnd. rewrite (filter_keys_length (JSString.includes among)).
  apply NoDup_incl_length.
  - apply NoDup_filter. exact Hnd.
  - intros x Hx. apply filter_In in Hx. apply includes_In, Hx.
Qed.

Section TransitAnalysis.

Import Transits.

Lemma natalLoop_added (tp : string) (pos : Position)
      (natal : list (string * NatalChart.PlanetEntry)) :
  forall acc, exists added,
    natalLoop tp pos natal acc = acc ++ added /\
    (List.length added <= List.length natal)%nat /\
    (List.length (filter isSignificant added) <=
     if JSString.includes significantTransitPlanets tp
     then List.length
            (filter (fun kv => JSString.includes significantNatalPoints
                                 (fst kv)) natal)
     else 0)%nat /\
    (forall a, In a added ->
       transitPlanet a = tp /\ transitPosition a = Some pos /\
       exists e, In (natalPlanet a, e) natal /\
                 natalPosition a = Some e /\
                 calculateAspect (positionLongitude pos)
                   (positionLongitude (NatalChart.position e))
                   = Some (aspect a)) /\
    (forall np e x, In (np, e) natal ->
       calculateAspect (positionLongitude pos)
         (positionLongitude (NatalChart.position e)) = Some x ->
       exists a, In a added /\ transitPlanet a = tp /\
                 natalPlanet a = np /\ transitPosition a = Some pos /\
                 natalPosition a = Some e /\ aspect a = x).
Proof.
  induction natal as [| [np e] rest IH]; intros acc.
  - exists []. cbn [natalLoop]. rewrite app_nil_r.
    split; [reflexivity |]. split; [apply Nat.le_refl |].
    split; [cbn [filter List.length];
            destruct (JSString.includes significantTransitPlanets tp);
            apply Nat.le_refl |].
    split; [intros a [] | intros ? ? ? []].
  - cbn [natalLoop].
    destruct (calculateAspect _ _) as [x |] eqn:Ex.
    + match goal with
      | |- context [natalLoop tp pos rest (acc ++ [?r])] =>
          destruct (IH (acc ++ [r])) as (added & E & L1 & L2 & S & C);
          exists (r :: added)
      end.
      rewrite E, <- app_assoc. split; [reflexivity |].
      split; [cbn [List.length]; lia |]. split.
      { cbn [filter fst]. unfold isSignificant at 1.
        cbn [transitPlanet natalPlanet].
        destruct (JSString.includes significantTransitPlanets tp);
          cbn [andb]; [| exact L2].
        destruct (JSString.includes significantNatalPoints np);
          cbn [List.length]; lia. }
      split.
      * intros a [<- | Ha].
        -- cbn [transitPlanet transitPosition natalPlanet natalPosition
                aspect].
           split; [reflexivity |]. split; [reflexivity |].
           exists e. split; [left; reflexivity |].
           split; [reflexivity | exact Ex].
        -- destruct (S a Ha) as (P1 & P2 & e' & Q1 & Q2).
           split; [exact P1 |]. split; [exact P2 |].
           exists e'. split; [right; exact Q1 | exact Q2].
      * intros np' e' y [[= <- <-] | Hin] Hy.
        -- rewrite Ex in Hy. injection Hy as <-.
           eexists. split; [left; reflexivity |].
           cbn [transitPlanet transitPosition natalPlanet natalPosition
                aspect]. repeat split.
        -- destruct (C np' e' y Hin Hy) as (a & Ha & P).
           exists a. split; [right; exact Ha | exact P].
    + destruct (IH acc) as (added & E & L1 & L2 & S & C).
      exists added. split; [exact E |].
      split; [cbn [List.length]; lia |]. split.
      { cbn [filter fst].
        destruct (JSString.includes significantTransitPlanets tp);
          [| exact L2].
        destruct (JSString.includes significantNatalPoints np);
          cbn [List.length]; lia. }
      split.
      * intros a Ha. destruct (S a Ha) as (P1 & P2 & e' & Q1 & Q2).
        split; [exact P1 |]. split; [exact P2 |].
        exists e'. split; [right; exact Q1 | exact Q2].
      * intros np' e' y [[= <- <-] | Hin] Hy.
        -- rewrite Ex in Hy. discriminate Hy.
        -- exact (C np' e' y Hin Hy).
Qed.

Lemma anglePush_added (tp : string) (pos : Position)
      (point : ZodiacPosition) (label title : string) :
  forall acc, exists added,
    anglePush tp pos point label title acc = acc ++ added /\
    (List.length added <= 1)%nat /\
    (List.length (filter isSignificant added) <=
     if JSString.includes significantTransitPlanets tp then 1 else 0)%nat /\
    (forall a, In a added ->
       transitPlanet a = tp /\ natalPlanet a = label /\
       transitPosition a = None /\ natalPosition a = None /\
       calculateAspect (positionLongitude pos) (zlongitude point)
         = Some (aspect a)) /\
    (forall x, calculateAspect (positionLongitude pos) (zlongitude point)
               = Some x ->
       exists a, In a added /\ transitPlanet a = tp /\
                 natalPlanet a = label /\ aspect a = x).
Proof.
  intros acc. unfold anglePush.
  destruct (calculateAspect _ _) as [x |] eqn:Ex.
  - eexists [_]. split; [reflexivity |]. split; [apply Nat.le_refl |].
    split.
    { cbn [filter]. unfold isSignificant. cbn [transitPlanet natalPlanet].
      destruct (JSString.includes significantTransitPlanets tp);
        cbn [andb List.length]; [| lia].
      destruct (JSString.includes significantNatalPoints label);
        cbn [List.length]; lia. }
    split.
    + intros a [<- | []].
      cbn [transitPlanet transitPosition natalPlanet natalPosition aspect].
      repeat split.
    + intros y [= <-]. eexists. split; [left; reflexivity |].
      cbn [transitPlanet natalPlanet aspect]. repeat split.
  - exists []. rewrite app_nil_r. split; [reflexivity |].
    split; [cbn [List.length]; lia |].
    split; [cbn [filter List.length];
            destruct (JSString.includes significantTransitPlanets tp); lia |].
    split; [intros a [] | intros y Hy; discriminate Hy].
Qed.

Lemma transitAspectOf_cons (natalChart : NatalChart.Chart)
      (t : string * Position) (transits : list (string * Position))
      (a : TransitAspect) :
  transitAspectOf natalChart transits a ->
  transitAspectOf natalChart (t :: transits) a.
Proof.
  intros (pos & Hin & H). exists pos. split; [right; exact Hin | exact H].
Qed.

Lemma transitLoop_added (natalChart : NatalChart.Chart)
      (transits : list (string * Position)) :
  forall acc, exists added,
    transitLoop natalChart transits acc = acc ++ added /\
    (List.length added <=
     List.length transits *
     (List.length (NatalChart.planets natalChart) + 2))%nat /\
    (List.length (filter isSignificant added) <=
     List.length
       (filter (fun kv => JSString.includes significantTransitPlanets
                            (fst kv)) transits) *
     (List.length
        (filter (fun kv => JSString.includes significantNatalPoints
                             (fst kv)) (NatalChart.planets natalChart))
      + 2))%nat /\
    (forall a, In a added -> transitAspectOf natalChart transits a) /\
    (forall tp pos np e x,
       In (tp, pos) transits ->
       In (np, e) (NatalChart.planets natalChart) ->
       calculateAspect (positionLongitude pos)
         (positionLongitude (NatalChart.position e)) = Some x ->
       exists a, In a added /\ transitPlanet a = tp /\
                 natalPlanet a = np /\ transitPosition a = Some pos /\
                 natalPosition a = Some e /\ aspect a = x) /\
    (forall tp pos x,
       In (tp, pos) transits ->
       (calculateAspect (positionLongitude pos)
          (zlongitude (NatalChart.ascendant natalChart)) = Some x ->
        exists a, In a added /\ transitPlanet a = tp /\
                  natalPlanet a = "ascendant"%string /\ aspect a = x) /\
       (calculateAspect (positionLongitude pos)
          (zlongitude (NatalChart.midheaven natalChart)) = Some x ->
        exists a, In a added /\ transitPlanet a = tp /\
                  natalPlanet a = "midheaven"%string /\ aspect a = x)).
Proof.
  induction transits as [| [tp pos] rest IH]; intros acc.
  - exists []. cbn [transitLoop]. rewrite app_nil_r.
    split; [reflexivity |]. split; [cbn [List.length]; lia |].
    split; [cbn [filter List.length]; lia |].
    split; [intros a [] |]. split; [intros ? ? ? ? ? [] |].
    intros ? ? ? [].
  - cbn [transitLoop]. cbv zeta.
    destruct (natalLoop_added tp pos (NatalChart.planets natalChart) acc)
      as (a1 & E1 & L1 & F1 & S1 & C1).
    rewrite E1.
    destruct (anglePush_added tp pos (NatalChart.ascendant natalChart)
                "ascendant" "Ascendant" (acc ++ a1))
      as (a2 & E2 & L2 & F2 & S2 & C2).
    rewrite E2.
    destruct (anglePush_added tp pos (NatalChart.midheaven natalChart)
                "midheaven" "Midheaven" ((acc ++ a1) ++ a2))
      as (a3 & E3 & L3 & F3 & S3 & C3).
    rewrite E3.
    destruct (IH (((acc ++ a1) ++ a2) ++ a3))
      as (a4 & E4 & L4 & F4 & S4 & C4 & C5).
    rewrite E4.
    exists (a1 ++ a2 ++ a3 ++ a4).
    split; [rewrite <- !app_assoc; reflexivity |].
    split; [rewrite !length_app; cbn [List.length]; lia |].
    split.
    { rewrite !filter_app, !length_app. cbn [filter fst].
      destruct (JSString.includes significantTransitPlanets tp);
        cbn [List.length]; lia. }
    split.
    { intros a Ha.
      apply in_app_or in Ha. destruct Ha as [Ha | Ha].
      { destruct (S1 a Ha) as (P1 & P2 & e & Q1 & Q2 & Q3).
        exists pos. split; [left; rewrite P1; reflexivity |].
        left. split; [exact P2 |]. exists e.
        split; [exact Q1 |]. split; [exact Q2 | exact Q3]. }
      apply in_app_or in Ha. destruct Ha as [Ha | Ha].
      { destruct (S2 a Ha) as (P1 & P2 & P3 & P4 & P5).
        exists pos. split; [left; rewrite P1; reflexivity |].
        right. left. repeat (split; [assumption |]). assumption. }
      apply in_app_or in Ha. destruct Ha as [Ha | Ha].
      { destruct (S3 a Ha) as (P1 & P2 & P3 & P4 & P5).
        exists pos. split; [left; rewrite P1; reflexivity |].
        right. right. repeat (split; [assumption |]). assumption. }
      apply transitAspectOf_cons. exact (S4 a Ha). }
    split.
    { intros tp' pos' np e x [[= <- <-] | Hin] Hn Hx.
      - destruct (C1 np e x Hn Hx) as (a & Ha & P).
        exists a. split; [apply in_or_app; left; exact Ha | exact P].
      - destruct (C4 tp' pos' np e x Hin Hn Hx) as (a & Ha & P).
        exists a. split; [| exact P].
        apply in_or_app. right. apply in_or_app. right.
        apply in_or_app. right. exact Ha. }
    intros tp' pos' x [[= <- <-] | Hin].
    + split; intros Hx.
      * destruct (C2 x Hx) as (a & Ha & P).
        exists a. split; [| exact P].
        apply in_or_app. right. apply in_or_app. left. exact Ha.
      * destruct (C3 x Hx) as (a & Ha & P).
        exists a. split; [| exact P].
        apply in_or_app. right. apply in_or_app. right.
        apply in_or_app. left. exact Ha.
    + destruct (C5 tp' pos' x Hin) as [A1 A2].
      split; intros Hx; [destruct (A1 Hx) as (a & Ha & P)
                        | destruct (A2 Hx) as (a & Ha & P)];
        exists a; (split; [| exact P]);
        apply in_or_app; right; apply in_or_app; right;
        apply in_or_app; right; exact Ha.
Qed.

(** X24. [analyzeTransitsToNatal] reports exactly the aspects there are.
    Every entry is the aspect [calculateAspect] finds between a transiting
    body and a natal body (with both positions attached), the Ascendant or
    the Midheaven (without positions); every such aspect has its entry;
    and there are at most [t * (n + 2)] entries for [t] transiting and [n]
    natal bodies. *)
Theorem analyzeTransitsToNatal_sound_complete
        (natalChart : NatalChart.Chart) (transits : TransitSample) :
  let found := analyzeTransitsToNatal natalChart transits in
  (List.length found <=
   List.length (planets transits) *
   (List.length (NatalChart.planets natalChart) + 2))%nat /\
  (forall a, In a found ->
     transitAspectOf natalChart (planets transits) a) /\
  (forall tp pos np e x,
     In (tp, pos) (planets transits) ->
     In (np, e) (NatalChart.planets natalChart) ->
     calculateAspect (positionLongitude pos)
       (positionLongitude (NatalChart.position e)) = Some x ->
     exists a, In a found /\ transitPlanet a = tp /\
               natalPlanet a = np /\ transitPosition a = Some pos /\
               natalPosition a = Some e /\ aspect a = x) /\
  (forall tp pos x,
     In (tp, pos) (planets transits) ->
     (calculateAspect (positionLongitude pos)
        (zlongitude (NatalChart.ascendant natalChart)) = Some x ->
      exists a, In a found /\ transitPlanet a = tp /\
                natalPlanet a = "ascendant"%string /\ aspect a = x) /\
     (calculateAspect (positionLongitude pos)
        (zlongitude (NatalChart.midheaven natalChart)) = Some x ->
      exists a, In a found /\ transitPlanet a = tp /\
                natalPlanet a = "midheaven"%string /\ aspect a = x)).
Proof.
  intros found. subst found. unfold analyzeTransitsToNatal.
  destruct (transitLoop_added natalChart (planets transits) [])
    as (added & E & L & _ & S & C1 & C2).
  cbn [app] in E. rewrite E.
  split; [exact L |]. split; [exact S |]. split; [exact C1 | exact C2].
Qed.

(** X25. [getSignificantTransits] keeps, in their order, exactly the
    entries whose transiting body is one of Jupiter, Saturn, Uranus,
    Neptune and Pluto and whose natal point is one of the Sun, the Moon,
    Mercury, Venus, Mars, the Ascendant and the Midheaven; filtering twice
    changes nothing.  Of the transits to a natal chart at most 45 are
    significant (an object has each key once, which the association lists
    are asked for here). *)
Theorem getSignificantTransits_selects :
  (forall l a,
     In a (getSignificantTransits l) <->
     In a l /\ In (transitPlanet a) significantTransitPlanets /\
     In (natalPlanet a) significantNatalPoints) /\
  (forall l, getSignificantTransits (getSignificantTransits l)
             = getSignificantTransits l) /\
  (forall natalChart transits,
     NoDup (keys (planets transits)) ->
     NoDup (keys (NatalChart.planets natalChart)) ->
     (List.length (getSignificantTransits
                     (analyzeTransitsToNatal natalChart transits))
      <= 45)%nat).
Proof.
  split; [| split].
  - intros l a. unfold getSignificantTransits. rewrite filter_In.
    rewrite andb_true_iff, !includes_In. reflexivity.
  - intros l. unfold getSignificantTransits.
    induction l as [| a rest IH]; [reflexivity |].
    cbn [filter]. fold (isSignificant a).
    destruct (isSignificant a) eqn:Ea; [| exact IH].
    cbn [filter]. fold (isSignificant a). rewrite Ea. f_equal. exact IH.
  - intros natalChart transits HT HN.
    unfold getSignificantTransits, analyzeTransitsToNatal.
    destruct (transitLoop_added natalChart (planets transits) [])
      as (added & E & _ & F & _).
    cbn [app] in E. rewrite E.
    pose proof (includes_count significantTransitPlanets _ HT) as B1.
    pose proof (includes_count significantNatalPoints _ HN) as B2.
    cbn [significantTransitPlanets significantNatalPoints List.length]
      in B1, B2.
    change (fun a => JSString.includes significantTransitPlanets
                       (transitPlanet a) &&
                     JSString.includes significantNatalPoints
                       (natalPlanet a)) with isSignificant.
    etransitivity; [exact F |].
    etransitivity; [apply Nat.mul_le_mono; [exact B1 |];
                    apply Nat.add_le_mono_r; exact B2 |].
    apply Nat.le_refl.
Qed.

End TransitAnalysis.

Section ComputedTransits.

Context {M : JSMath}.

Import Transits.

(** X26. For a chart computed by [calculateBirthChart] and a sky sampled
    by [calculateTransits], [analyzeTransitsToNatal] reports at most 168
    aspects, twelve transiting bodies against twelve natal bodies and two
    angles, and [getSignificantTransits] keeps at most 35 of them, five
    slow planets against five personal planets and two angles. *)
Theorem significant_transits_bound (b : BirthChart.BirthData) (y m d : Q) :
  exists chart,
    NatalChart.calculateBirthChart b = JS.Return chart /\
    let found := analyzeTransitsToNatal chart (calculateTransits y m d) in
    (List.length found <= 168)%nat /\
    (List.length (getSignificantTransits found) <= 35)%nat.
Proof.
  destruct (calculateBirthChart_chart b)
    as (chart & Eb & _ & _ & _ & _ & _ & Ekeys & _).
  exists chart. split; [exact Eb |]. cbv zeta.
  destruct (calculateTransits_sample y m d) as (_ & _ & Tkeys & _).
  unfold getSignificantTransits, analyzeTransitsToNatal.
  destruct (transitLoop_added chart (planets (calculateTransits y m d)) [])
    as (added & E & L & F & _).
  cbn [app] in E. rewrite E.
  change (fun a => JSString.includes significantTransitPlanets
                     (transitPlanet a) &&
                   JSString.includes significantNatalPoints
                     (natalPlanet a)) with isSignificant.
  rewrite (filter_keys_length
             (JSString.includes significantTransitPlanets)) in F.
  rewrite (filter_keys_length
             (JSString.includes significantNatalPoints)) in F.
  rewrite Tkeys, Ekeys in F.
  rewrite <- (length_map fst (planets _)) in L.
  rewrite <- (length_map fst (NatalChart.planets _)) in L.
  fold (keys (planets (calculateTransits y m d))) in L.
  fold (keys (NatalChart.planets chart)) in L.
  rewrite Tkeys, Ekeys in L.
  split; [exact L | exact F].
Qed.

Lemma placementsLoop_all (cusps : list (Z * HouseCusp))
      (transits : list (string * Position)) :
  (forall i, In i houseNumbers -> exists c, lookup i cusps = Some c) ->
  forall acc,
    NoDup (keys acc ++ keys transits) ->
    exists ps,
      placementsLoop cusps transits acc = JS.Return (acc ++ ps) /\
      keys ps = keys transits /\
      Forall2 (fun kp kh =>
                 position (snd kh) = snd kp /\
                 getHousePosition (positionLongitude (snd kp)) cusps
                   = JS.Return (house (snd kh)) /\
                 (1 <= house (snd kh) <= 12)%Z /\
                 houseName (snd kh) = lookup (house (snd kh)) HOUSES /\
                 exists s, houseName (snd kh) = Some s)
              transits ps.
Proof.
  intros Hc. induction transits as [| [k pos] rest IH]; intros acc Hnd.
  - exists []. cbn [placementsLoop]. rewrite app_nil_r.
    split; [reflexivity |]. split; [reflexivity | constructor].
  - cbn [placementsLoop].
    destruct (getHousePosition_complete (positionLongitude pos) cusps Hc)
      as (h & Eh & Hh).
    rewrite Eh. cbn [JS.bind].
    cbn [keys map fst] in Hnd.
    assert (~ In k (keys acc)) as Hfresh.
    { apply NoDup_remove_2 in Hnd. intros Hin. apply Hnd.
      apply in_or_app. left. exact Hin. }
    rewrite (setKey_fresh _ _ acc Hfresh).
    match goal with
    | |- context [placementsLoop cusps rest (acc ++ [?x])] =>
        destruct (IH (acc ++ [x])) as (ps & E1 & E2 & E3);
        [| exists (x :: ps)]
    end.
    { unfold keys. rewrite map_app. cbn [map fst]. rewrite <- app_assoc.
      exact Hnd. }
    rewrite E1, <- app_assoc. split; [reflexivity |].
    cbn [keys map fst]. split; [f_equal; exact E2 |].
    constructor; [| exact E3].
    cbn [snd position house houseName].
    split; [reflexivity |]. split; [exact Eh |]. split; [exact Hh |].
    split; [reflexivity | exact (lookup_HOUSES h Hh)].
Qed.

(** X27. [getTransitHousePlacements] places every transiting body: with
    all twelve cusps in the natal chart it returns an object with the keys
    of the sample, in their order, each with its position, the house from
    1 to 12 that [getHousePosition] finds on the natal cusps, and the name
    of that house.  When a cusp is missing, the [TypeError] of
    [getHousePosition] comes through as soon as there is a body to place;
    with no body to place the result is the empty object. *)
Theorem getTransitHousePlacements_total
        (natalChart : NatalChart.Chart) (transits : TransitSample) :
  ((forall i, In i houseNumbers ->
      exists c, lookup i (cusps (NatalChart.houses natalChart)) = Some c) ->
   NoDup (keys (planets transits)) ->
   exists ps,
     getTransitHousePlacements natalChart transits = JS.Return ps /\
     keys ps = keys (planets transits) /\
     Forall2 (fun kp kh =>
                position (snd kh) = snd kp /\
                getHousePosition (positionLongitude (snd kp))
                                 (cusps (NatalChart.houses natalChart))
                  = JS.Return (house (snd kh)) /\
                (1 <= house (snd kh) <= 12)%Z /\
                houseName (snd kh) = lookup (house (snd kh)) HOUSES /\
                exists s, houseName (snd kh) = Some s)
             (planets transits) ps) /\
  ((exists i, In i houseNumbers /\
              lookup i (cusps (NatalChart.houses natalChart)) = None) ->
   planets transits <> [] ->
   getTransitHousePlacements natalChart transits = JS.Throw JS.TypeError) /\
  (planets transits = [] ->
   getTransitHousePlacements natalChart transits = JS.Return []).
Proof.
  unfold getTransitHousePlacements. split; [| split].
  - intros Hc Hnd.
    destruct (placementsLoop_all _ (planets transits) Hc [] Hnd)
      as (ps & E & P).
    exists ps. split; [exact E | exact P].
  - intros (i & Hi & Hl) Hne.
    destruct (planets transits) as [| [k pos] rest]; [contradiction |].
    cbn [placementsLoop]. unfold getHousePosition.
    rewrite (cuspsArray_missing _ houseNumbers i Hi Hl). reflexivity.
  - intros ->. reflexivity.
Qed.

End ComputedTransits.

Section TransitAnalysisAtWork.

Import Transits.

Lemma getTransitHousePlacements_total_witness :
  exists chart ps,
    NatalChart.calculateBirthChart (M := approxMath) sampleBirth
      = JS.Return chart /\
    getTransitHousePlacements chart
      (calculateTransits (M := approxMath) 2025 1 1) = JS.Return ps /\
    List.length ps = 12%nat.
Proof.
  destruct (calculateBirthChart_chart (M := approxMath) sampleBirth)
    as (chart & Eb & _ & Eh & _).
  destruct (calculateTransits_sample (M := approxMath) 2025 1 1)
    as (_ & _ & Tkeys & _).
  destruct (proj1 (getTransitHousePlacements_total chart
                     (calculateTransits (M := approxMath) 2025 1 1)))
    as (ps & E & Ek & _).
  - destruct (calculateHouses_cusps (M := approxMath)
                (NatalChart.julianDay chart)
                (BirthChart.latitude sampleBirth)
                (BirthChart.longitude sampleBirth)) as (a & _ & _ & Ea).
    rewrite Eh, Ea. apply houseCusps_complete.
  - rewrite Tkeys. exact planet_keys_NoDup.
  - exists chart, ps. split; [exact Eb |]. split; [exact E |].
    rewrite <- (length_map fst). fold (keys ps).
    rewrite Ek, Tkeys. reflexivity.
Defined.

Lemma getSignificantTransits_selects_witness :
  exists chart,
    NatalChart.calculateBirthChart (M := approxMath) sampleBirth
      = JS.Return chart /\
    (List.length
       (getSignificantTransits
          (analyzeTransitsToNatal chart
             (calculateTransits (M := approxMath) 2025 1 1))) <= 45)%nat.
Proof.
  destruct (calculateBirthChart_chart (M := approxMath) sampleBirth)
    as (chart & Eb & _ & _ & _ & _ & _ & Ekeys & _).
  destruct (calculateTransits_sample (M := approxMath) 2025 1 1)
    as (_ & _ & Tkeys & _).
  exists chart. split; [exact Eb |].
  apply (proj2 (proj2 getSignificantTransits_selects)).
  - rewrite Tkeys. exact planet_keys_NoDup.
  - rewrite Ekeys. exact planet_keys_NoDup.
Defined.

End TransitAnalysisAtWork.

(* ================================================================== *)
(** * Clock times *)
(* ================================================================== *)

(** A clock time in seconds. *)
Lemma timeToDecimal_seconds (h m s : Z) :
  3600 * timeToDecimal (inject_Z h) (inject_Z m) (inject_Z s)
  == inject_Z (3600 * h + 60 * m + s).
Proof.
  unfold timeToDecimal. rewrite !inject_Z_plus, !inject_Z_mult.
  change (inject_Z 3600) with 3600. change (inject_Z 60) with 60. field.
Qed.

(** X28. On clock times (whole hours, minutes from 0 to 59 and seconds
    from 0 to 59) [timeToDecimal] keeps the order, so that different times
    get different decimal hours, and a time of day from 0:00:00 to
    23:59:59 lands in [[0, 24)]. *)
Theorem timeToDecimal_order (h1 m1 s1 h2 m2 s2 : Z) :
  (0 <= m1 < 60)%Z -> (0 <= s1 < 60)%Z ->
  (0 <= m2 < 60)%Z -> (0 <= s2 < 60)%Z ->
  let t1 := timeToDecimal (inject_Z h1) (inject_Z m1) (inject_Z s1) in
  let t2 := timeToDecimal (inject_Z h2) (inject_Z m2) (inject_Z s2) in
  (t1 < t2 <->
   (h1 < h2 \/ (h1 = h2 /\ (m1 < m2 \/ (m1 = m2 /\ s1 < s2))))%Z) /\
  (t1 == t2 <-> h1 = h2 /\ m1 = m2 /\ s1 = s2) /\
  ((0 <= h1 <= 23)%Z -> 0 <= t1 /\ t1 < 24).
Proof.
  intros Hm1 Hs1 Hm2 Hs2 t1 t2.
  pose proof (timeToDecimal_seconds h1 m1 s1) as E1.
  pose proof (timeToDecimal_seconds h2 m2 s2) as E2.
  fold t1 in E1. fold t2 in E2. clearbody t1 t2.
  set (n1 := (3600 * h1 + 60 * m1 + s1)%Z) in *.
  set (n2 := (3600 * h2 + 60 * m2 + s2)%Z) in *.
  assert (t1 < t2 <-> (n1 < n2)%Z) as Hlt.
  { rewrite Zlt_Qlt. split; intros H; lra. }
  assert (t1 == t2 <-> n1 = n2) as Heq.
  { split; intros H.
    - apply inject_Z_injective. lra.
    - rewrite <- inject_Z_injective in H. lra. }
  split; [rewrite Hlt; subst n1 n2; lia |].
  split; [rewrite Heq; subst n1 n2; lia |].
  intros Hh.
  assert (inject_Z 0 <= inject_Z n1 /\ inject_Z n1 < inject_Z 86400)
    as [B0 B1]
    by (rewrite <- Zle_Qle, <- Zlt_Qlt; subst n1; lia).
  change (inject_Z 0) with 0 in B0. change (inject_Z 86400) with 86400 in B1.
  split; lra.
Qed.

Lemma timeToDecimal_order_witness :
  timeToDecimal 14 30 0 < timeToDecimal 14 30 1 /\
  0 <= timeToDecimal 14 30 0 /\ timeToDecimal 14 30 0 < 24.
Proof.
  pose proof (timeToDecimal_order 14 30 0 14 30 1) as H.
  cbv zeta in H.
  destruct H as (Hlt & _ & Hr); try lia.
  split; [apply Hlt; lia | apply Hr; lia].
Defined.
(* ================================================================== *)
(** * Rounding to a double: the laws *)
(* ================================================================== *)

Section Binary64Laws.

Import Binary64.

Lemma roundHalfEven_floor (u : Q) :
  (Qfloor u <= roundHalfEven u <= Qfloor u + 1)%Z.
Proof.
  unfold roundHalfEven.
  destruct (Qcompare _ _); [destruct (Z.even _) | |]; lia.
Qed.

Lemma roundHalfEven_Z (k : Z) : roundHalfEven (inject_Z k) = k.
Proof.
  unfold roundHalfEven. rewrite Qfloor_Z.
  destruct (Qcompare_spec (inject_Z k - inject_Z k) (1 # 2)) as [A | A | A];
    [exfalso; lra | reflexivity | exfalso; lra].
Qed.

Lemma roundHalfEven_comp (u v : Q) :
  u == v -> roundHalfEven u = roundHalfEven v.
Proof.
  intros E. unfold roundHalfEven. rewrite (Qfloor_comp _ _ E).
  assert (Qcompare (u - inject_Z (Qfloor v)) (1 # 2)
          = Qcompare (v - inject_Z (Qfloor v)) (1 # 2)) as ->
    by (apply Qcompare_comp; [rewrite E |]; reflexivity).
  reflexivity.
Qed.

Lemma roundHalfEven_mono (u v : Q) :
  u <= v -> (roundHalfEven u <= roundHalfEven v)%Z.
Proof.
  intros H. pose proof (Qfloor_resp_le _ _ H) as Hf.
  destruct (Z.eq_dec (Qfloor u) (Qfloor v)) as [E | N].
  - unfold roundHalfEven. rewrite E.
    destruct (Qcompare_spec (u - inject_Z (Qfloor v)) (1 # 2)) as [A | A | A],
             (Qcompare_spec (v - inject_Z (Qfloor v)) (1 # 2)) as [B | B | B];
      try (destruct (Z.even (Qfloor v))); try lia; exfalso; lra.
  - pose proof (roundHalfEven_floor u). pose proof (roundHalfEven_floor v).
    lia.
Qed.

Lemma quantum_pos (t : Q) : (0 < quantum t)%Z.
Proof. unfold quantum. apply Z.pow_pos_nonneg; lia. Qed.

Lemma roundUnits_comp (s t : Q) : s == t -> roundUnits s = roundUnits t.
Proof.
  intros E. unfold roundUnits, quantum. rewrite (Qfloor_comp _ _ E).
  f_equal. apply roundHalfEven_comp. now rewrite E.
Qed.

Lemma roundUnits_nonneg (t : Q) : 0 <= t -> (0 <= roundUnits t)%Z.
Proof.
  intros H. unfold roundUnits. pose proof (quantum_pos t) as Hq.
  apply Z.mul_nonneg_nonneg; [| lia].
  rewrite <- (roundHalfEven_Z 0) at 1.
  apply roundHalfEven_mono. change (inject_Z 0) with 0.
  apply Qle_shift_div_l; [| lra].
  change 0 with (inject_Z 0). rewrite <- Zlt_Qlt. exact Hq.
Qed.

Lemma inject_Z_pos (z : Z) : (0 < z)%Z -> 0 < inject_Z z.
Proof. intros H. change 0 with (inject_Z 0). now rewrite <- Zlt_Qlt. Qed.

(** Below [2 ^ (e + 53)] units the rounded value does not pass it; from
    [2 ^ (e + 52)] units on it does not fall below. *)
Lemma roundUnits_below (s : Q) :
  0 <= s ->
  (roundUnits s <= 2 ^ (Z.max 0 (Z.log2 (Qfloor s) - 52) + 53))%Z.
Proof.
  intros H0. unfold roundUnits, quantum.
  set (e := Z.max 0 (Z.log2 (Qfloor s) - 52)).
  assert ((0 <= Qfloor s)%Z) as Hf
    by (rewrite <- (Qfloor_Z 0); now apply Qfloor_resp_le).
  assert ((Qfloor s + 1 <= 2 ^ (e + 53))%Z) as Hlt.
  { destruct (Z.eq_dec (Qfloor s) 0) as [-> | N].
    - assert ((2 ^ 1 <= 2 ^ (e + 53))%Z)
        by (apply Z.pow_le_mono_r; lia). lia.
    - destruct (Z.log2_spec (Qfloor s)) as [_ L]; [lia |].
      assert ((2 ^ Z.succ (Z.log2 (Qfloor s)) <= 2 ^ (e + 53))%Z)
        by (apply Z.pow_le_mono_r; lia). lia. }
  assert ((0 < 2 ^ e)%Z) as Hq by (apply Z.pow_pos_nonneg; lia).
  rewrite Z.pow_add_r by lia. rewrite (Z.mul_comm (2 ^ e)).
  apply Z.mul_le_mono_nonneg_r; [lia |].
  rewrite <- (roundHalfEven_Z (2 ^ 53)).
  apply roundHalfEven_mono.
  apply Qle_shift_div_r; [now apply inject_Z_pos |].
  rewrite <- inject_Z_mult.
  pose proof (Qlt_floor s) as Hs.
  assert (inject_Z (Qfloor s + 1) <= inject_Z (2 ^ 53 * 2 ^ e)) as Hle.
  { rewrite <- Zle_Qle. rewrite Z.pow_add_r in Hlt by lia. lia. }
  lra.
Qed.

Lemma roundUnits_above (t : Q) :
  (0 < Z.log2 (Qfloor t) - 52)%Z ->
  (2 ^ (Z.log2 (Qfloor t) - 52 + 52) <= roundUnits t)%Z.
Proof.
  intros He. unfold roundUnits, quantum.
  rewrite Z.max_r by lia.
  assert ((0 < Qfloor t)%Z) as Hf.
  { destruct (Z.le_gt_cases (Qfloor t) 0) as [L | L]; [| exact L].
    rewrite (Z.log2_nonpos _ L) in He. lia. }
  set (e := (Z.log2 (Qfloor t) - 52)%Z) in *.
  destruct (Z.log2_spec (Qfloor t) Hf) as [L _].
  replace (Z.log2 (Qfloor t)) with (e + 52)%Z in L by (subst e; lia).
  assert ((0 < 2 ^ e)%Z) as Hq by (apply Z.pow_pos_nonneg; lia).
  rewrite Z.pow_add_r by lia. rewrite (Z.mul_comm (2 ^ e)).
  apply Z.mul_le_mono_nonneg_r; [lia |].
  rewrite <- (roundHalfEven_Z (2 ^ 52)) at 1.
  apply roundHalfEven_mono.
  apply Qle_shift_div_l; [now apply inject_Z_pos |].
  rewrite <- inject_Z_mult.
  pose proof (Qfloor_le t) as Ht.
  assert (inject_Z (2 ^ 52 * 2 ^ e) <= inject_Z (Qfloor t)) as Hle.
  { rewrite <- Zle_Qle. rewrite Z.pow_add_r in L by lia. lia. }
  lra.
Qed.

Lemma roundUnits_mono (s t : Q) :
  0 <= s -> s <= t -> (roundUnits s <= roundUnits t)%Z.
Proof.
  intros H0 H.
  assert ((0 <= Qfloor s)%Z) as Hfs
    by (rewrite <- (Qfloor_Z 0); now apply Qfloor_resp_le).
  pose proof (Qfloor_resp_le _ _ H) as Hf.
  pose proof (Z.log2_le_mono _ _ Hf) as Hl.
  destruct (Z.eq_dec (Z.max 0 (Z.log2 (Qfloor s) - 52))
                     (Z.max 0 (Z.log2 (Qfloor t) - 52))) as [E | N].
  - unfold roundUnits, quantum. rewrite E.
    set (q := (2 ^ Z.max 0 (Z.log2 (Qfloor t) - 52))%Z).
    assert ((0 < q)%Z) as Hq by (apply Z.pow_pos_nonneg; lia).
    apply Z.mul_le_mono_nonneg_r; [lia |].
    apply roundHalfEven_mono.
    apply Qmult_le_compat_r; [exact H |].
    apply Qlt_le_weak, Qinv_lt_0_compat. now apply inject_Z_pos.
  - assert ((0 < Z.log2 (Qfloor t) - 52)%Z) as He by lia.
    pose proof (roundUnits_below s H0) as Hb.
    pose proof (roundUnits_above t He) as Ha.
    assert ((2 ^ (Z.max 0 (Z.log2 (Qfloor s) - 52) + 53)
             <= 2 ^ (Z.log2 (Qfloor t) - 52 + 52))%Z)
      by (apply Z.pow_le_mono_r; lia).
    lia.
Qed.

Lemma scale_pos : 0 < inject_Z scale.
Proof. apply inject_Z_pos. unfold scale. apply Z.pow_pos_nonneg; lia. Qed.

(** The rounding of a magnitude, and [rnd64] by cases on the sign. *)
Lemma rnd64_magnitude_nonneg (a : Q) :
  0 <= a -> 0 <= inject_Z (roundUnits (a * inject_Z scale)) / inject_Z scale.
Proof.
  intros H. pose proof scale_pos as Hs.
  apply Qle_shift_div_l; [exact Hs |].
  rewrite Qmult_0_l. change 0 with (inject_Z 0). rewrite <- Zle_Qle.
  apply roundUnits_nonneg. apply Qmult_le_0_compat; lra.
Qed.

Lemma rnd64_cases (q : Q) :
  (0 <= q /\
   rnd64 q == inject_Z (roundUnits (q * inject_Z scale)) / inject_Z scale) \/
  (q < 0 /\
   rnd64 q == - (inject_Z (roundUnits (- q * inject_Z scale))
                 / inject_Z scale)).
Proof.
  unfold rnd64. destruct (Qle_bool 0 q) eqn:E.
  - left. apply Qle_bool_iff in E. split; [exact E |].
    rewrite Qred_correct.
    rewrite (roundUnits_comp _ (q * inject_Z scale)); [reflexivity |].
    now rewrite (Qabs_pos q E).
  - right.
    assert (q < 0) as Hq.
    { apply Qnot_le_lt. intros C. apply Qle_bool_iff in C. congruence. }
    split; [exact Hq |]. rewrite Qred_correct.
    rewrite (roundUnits_comp _ (- q * inject_Z scale)); [reflexivity |].
    rewrite (Qabs_neg q); [reflexivity | lra].
Qed.

Lemma rnd64_magnitude_mono (a b : Q) :
  0 <= a -> a <= b ->
  inject_Z (roundUnits (a * inject_Z scale)) / inject_Z scale
  <= inject_Z (roundUnits (b * inject_Z scale)) / inject_Z scale.
Proof.
  intros H0 H. pose proof scale_pos as Hs.
  apply Qmult_le_compat_r;
    [| apply Qlt_le_weak, Qinv_lt_0_compat; exact Hs].
  rewrite <- Zle_Qle. apply roundUnits_mono.
  - apply Qmult_le_0_compat; lra.
  - apply Qmult_le_compat_r; lra.
Qed.

(** Rounding keeps the order. *)
Lemma rnd64_mono (x y : Q) : x <= y -> rnd64 x <= rnd64 y.
Proof.
  intros H.
  destruct (rnd64_cases x) as [[Hx Ex] | [Hx Ex]],
           (rnd64_cases y) as [[Hy Ey] | [Hy Ey]];
    rewrite Ex, Ey.
  - now apply rnd64_magnitude_mono.
  - exfalso. lra.
  - pose proof (rnd64_magnitude_nonneg (- x)).
    pose proof (rnd64_magnitude_nonneg y). lra.
  - apply Qopp_le_compat. apply rnd64_magnitude_mono; lra.
Qed.

Lemma rnd64_comp (x y : Q) : x == y -> rnd64 x == rnd64 y.
Proof.
  intros E. unfold rnd64.
  assert (Qle_bool 0 x = Qle_bool 0 y) as ->.
  { destruct (Qle_bool 0 y) eqn:B.
    - apply Qle_bool_iff. apply Qle_bool_iff in B. now rewrite E.
    - destruct (Qle_bool 0 x) eqn:A; [| reflexivity].
      apply Qle_bool_iff in A. rewrite E in A. apply Qle_bool_iff in A.
      congruence. }
  assert (roundUnits (Qabs x * inject_Z scale)
          = roundUnits (Qabs y * inject_Z scale)) as ->
    by (apply roundUnits_comp; now rewrite E).
  reflexivity.
Qed.

(** A number [k / 2^e] with [|k| < 2^53] and [e <= 1074] is a double, and
    rounding leaves it as it is. *)
Lemma rnd64_exact (k e : Z) :
  (Z.abs k < 2 ^ 53)%Z -> (0 <= e <= 1074)%Z ->
  rnd64 (inject_Z k / inject_Z (2 ^ e)) == inject_Z k / inject_Z (2 ^ e).
Proof.
  intros Hk He.
  assert ((0 < 2 ^ e)%Z) as Hp by (apply Z.pow_pos_nonneg; lia).
  pose proof (inject_Z_pos _ Hp) as Hpq. pose proof scale_pos as Hs.
  set (q := inject_Z k / inject_Z (2 ^ e)).
  assert (Qabs q == inject_Z (Z.abs k) / inject_Z (2 ^ e)) as Ea.
  { subst q. unfold Qdiv. rewrite Qabs_Qmult.
    rewrite (Qabs_pos (/ inject_Z (2 ^ e)))
      by (apply Qlt_le_weak, Qinv_lt_0_compat; exact Hpq).
    apply Qmult_comp; [| reflexivity].
    unfold Qabs, inject_Z. reflexivity. }
  set (n := (Z.abs k * 2 ^ (1074 - e))%Z).
  assert (Qabs q * inject_Z scale == inject_Z n) as En.
  { rewrite Ea. subst n. unfold scale.
    replace 1074%Z with ((1074 - e) + e)%Z at 1 by lia.
    rewrite Z.pow_add_r by lia. rewrite !inject_Z_mult. field.
    intros C. rewrite C in Hpq. lra. }
  assert (roundUnits (inject_Z n) = n) as Er.
  { unfold roundUnits, quantum. rewrite Qfloor_Z.
    set (E := Z.max 0 (Z.log2 n - 52)).
    assert ((E <= 1074 - e)%Z) as HE.
    { subst E. destruct (Z.eq_dec k 0) as [-> | Nk].
      - subst n. change (Z.abs 0) with 0%Z. rewrite Z.mul_0_l.
        change (Z.log2 0) with 0%Z. lia.
      - subst n. rewrite Z.log2_mul_pow2 by lia.
        assert ((Z.log2 (Z.abs k) < 53)%Z)
          by (apply Z.log2_lt_pow2; lia).
        lia. }
    assert ((0 <= E)%Z) as HE0 by (subst E; lia).
    assert (n = (Z.abs k * 2 ^ (1074 - e - E)) * 2 ^ E)%Z as Hn.
    { subst n. rewrite <- Z.mul_assoc, <- Z.pow_add_r by lia.
      f_equal. f_equal. lia. }
    assert ((0 < 2 ^ E)%Z) as HpE by (apply Z.pow_pos_nonneg; lia).
    rewrite (roundHalfEven_comp _ (inject_Z (Z.abs k * 2 ^ (1074 - e - E)))).
    - rewrite roundHalfEven_Z. symmetry. exact Hn.
    - rewrite Hn at 1. rewrite inject_Z_mult. field.
      pose proof (inject_Z_pos _ HpE). intros C. lra. }
  destruct (Qlt_le_dec q 0) as [Hq | Hq].
  - destruct (rnd64_cases q) as [[Hq' _] | [_ Eq]]; [exfalso; lra |].
    rewrite Eq. rewrite (Qabs_neg q) in En by lra.
    rewrite (roundUnits_comp _ _ En), Er, <- En. field. lra.
  - destruct (rnd64_cases q) as [[_ Eq] | [Hq' _]]; [| exfalso; lra].
    rewrite Eq. rewrite (Qabs_pos q Hq) in En.
    rewrite (roundUnits_comp _ _ En), Er, <- En. field. lra.
Qed.

End Binary64Laws.

Lemma binary64_roundsToDoubles : roundsToDoubles binary64.
Proof.
  split; [exact rnd64_mono | exact rnd64_exact].
Qed.

(* ================================================================== *)
(** * Arithmetic with a rounding that keeps the order and the doubles *)
(* ================================================================== *)

Section RoundedArithmetic.

Context {Rd : Rounding}.

Hypothesis Hrnd : roundsToDoubles Rd.

Lemma rnd_mono (x y : Q) : x <= y -> rnd x <= rnd y.
Proof. exact (proj1 Hrnd x y). Qed.

Lemma rnd_comp (x y : Q) : x == y -> rnd x == rnd y.
Proof.
  intros E. apply Qle_antisym; apply rnd_mono; rewrite E; apply Qle_refl.
Qed.

(** A number equal to some [k / 2^e] with [|k| < 2^53] is not changed. *)
Lemma rnd_dyadic (q : Q) (k e : Z) :
  q == inject_Z k / inject_Z (2 ^ e) ->
  (Z.abs k < 2 ^ 53)%Z -> (0 <= e <= 1074)%Z -> rnd q == q.
Proof.
  intros E Hk He. rewrite (rnd_comp _ _ E), E. exact (proj2 Hrnd k e Hk He).
Qed.

Lemma rnd_Z (q : Q) (k : Z) :
  q == inject_Z k -> (Z.abs k < 2 ^ 53)%Z -> rnd q == inject_Z k.
Proof.
  intros E Hk. rewrite <- E. apply (rnd_dyadic q k 0); [| exact Hk | lia].
  rewrite E. change (inject_Z (2 ^ 0)) with 1. field.
Qed.

(** Up to five hundred million a rounded number is within [2^-24] of the
    number itself: the multiples of [2^-24] are doubles there. *)
Lemma rnd_near (v : Q) :
  - 500000000 <= v -> v <= 500000000 ->
  v - (1 # 16777216) <= rnd v /\ rnd v <= v + (1 # 16777216).
Proof.
  intros L U.
  set (k := Qfloor (v * 16777216)).
  pose proof (Qfloor_le (v * 16777216)) as F0.
  pose proof (Qlt_floor (v * 16777216)) as F1.
  fold k in F0, F1. rewrite inject_Z_plus in F1.
  change (inject_Z 1) with 1 in F1.
  assert (inject_Z (- 8388608000000000 - 1) < inject_Z k /\
          inject_Z k <= inject_Z 8388608000000000) as [K0 K1].
  { change (inject_Z (- 8388608000000000 - 1)) with (- 8388608000000001).
    change (inject_Z 8388608000000000) with 8388608000000000.
    split; lra. }
  rewrite <- Zlt_Qlt in K0. rewrite <- Zle_Qle in K1.
  assert (rnd (inject_Z k / inject_Z (2 ^ 24))
          == inject_Z k / inject_Z (2 ^ 24)) as Elo
    by (apply (proj2 Hrnd); lia).
  assert (rnd (inject_Z (k + 1) / inject_Z (2 ^ 24))
          == inject_Z (k + 1) / inject_Z (2 ^ 24)) as Ehi
    by (apply (proj2 Hrnd); lia).
  change (inject_Z (2 ^ 24)) with 16777216 in Elo, Ehi.
  assert (inject_Z k / 16777216 <= v) as Hlo
    by (apply Qle_shift_div_r; lra).
  assert (v <= inject_Z (k + 1) / 16777216) as Hhi.
  { apply Qle_shift_div_l; [lra |]. rewrite inject_Z_plus.
    change (inject_Z 1) with 1. lra. }
  pose proof (rnd_mono _ _ Hlo) as M0. pose proof (rnd_mono _ _ Hhi) as M1.
  rewrite Elo in M0. rewrite Ehi in M1.
  assert (inject_Z (k + 1) / 16777216
          == inject_Z k / 16777216 + (1 # 16777216)) as Eg.
  { rewrite inject_Z_plus. change (inject_Z 1) with 1. field. }
  rewrite Eg in M1, Hhi.
  set (lo := inject_Z k / 16777216) in *. clearbody lo.
  split; lra.
Qed.





(* ------------------------------------------------------------------ *)
(** ** The Julian Day, operator by operator *)

Local Instance rnd_proper : Proper (Qeq ==> Qeq) rnd.
Proof. intros x y E. now apply rnd_comp. Qed.

Local Instance rounded_add_proper : Proper (Qeq ==> Qeq ==> Qeq) Rounded.add.
Proof. intros a b E c d F. unfold Rounded.add. now rewrite E, F. Qed.

Local Instance rounded_sub_proper : Proper (Qeq ==> Qeq ==> Qeq) Rounded.sub.
Proof. intros a b E c d F. unfold Rounded.sub. now rewrite E, F. Qed.

Local Instance rounded_mul_proper : Proper (Qeq ==> Qeq ==> Qeq) Rounded.mul.
Proof. intros a b E c d F. unfold Rounded.mul. now rewrite E, F. Qed.

Local Instance rounded_div_proper : Proper (Qeq ==> Qeq ==> Qeq) Rounded.div.
Proof. intros a b E c d F. unfold Rounded.div. now rewrite E, F. Qed.

Local Instance floor_proper : Proper (Qeq ==> Qeq) JS.floor.
Proof. intros x y E. unfold JS.floor. now rewrite (Qfloor_comp _ _ E). Qed.

(** Sums and differences of whole numbers are exact. *)
Lemma rounded_add_Z (a b : Z) :
  (Z.abs (a + b) < 2 ^ 53)%Z ->
  Rounded.add (inject_Z a) (inject_Z b) == inject_Z (a + b).
Proof.
  intros H. unfold Rounded.add. apply rnd_Z; [| exact H].
  now rewrite inject_Z_plus.
Qed.

Lemma rounded_sub_Z (a b : Z) :
  (Z.abs (a - b) < 2 ^ 53)%Z ->
  Rounded.sub (inject_Z a) (inject_Z b) == inject_Z (a - b).
Proof.
  intros H. unfold Rounded.sub. apply rnd_Z; [| exact H].
  unfold Z.sub. now rewrite inject_Z_plus, inject_Z_opp.
Qed.

(** [Math.floor(year / 100)]: the quotient is rounded, but never up to the
    next whole number. *)
Lemma rounded_century (y : Z) :
  (- 2000000 <= y <= 2000000)%Z ->
  JS.floor (Rounded.div (inject_Z y) 100) == inject_Z (y / 100).
Proof.
  intros Hy. unfold JS.floor, Rounded.div.
  set (a := (y / 100)%Z).
  assert ((100 * a <= y <= 100 * a + 99)%Z) as Ha
    by (subst a; Z.div_mod_to_equations; lia).
  assert (inject_Z a <= inject_Z y / 100) as Lo.
  { apply Qle_shift_div_l; [lra |].
    change 100 with (inject_Z 100). rewrite <- inject_Z_mult, <- Zle_Qle.
    lia. }
  assert (inject_Z y / 100
          <= inject_Z (128 * (a + 1) - 1) / inject_Z (2 ^ 7)) as Hi.
  { apply Qle_shift_div_r; [lra |].
    assert (inject_Z y <= inject_Z (100 * a + 99)) as H1
      by (rewrite <- Zle_Qle; lia).
    rewrite inject_Z_plus, inject_Z_mult in H1.
    unfold Z.sub. rewrite inject_Z_plus, inject_Z_mult, inject_Z_plus.
    change (inject_Z 100) with 100 in H1. change (inject_Z 99) with 99 in H1.
    change (inject_Z 128) with 128. change (inject_Z 1) with 1.
    change (inject_Z (- (1))) with (-1). change (inject_Z (2 ^ 7)) with 128.
    set (qa := inject_Z a) in *. clearbody qa.
    assert ((128 * (qa + 1) + -1) / 128 * 100
            == 100 * qa + 100 - (100 # 128)) as -> by field.
    lra. }
  apply rnd_mono in Lo, Hi.
  rewrite (rnd_Z (inject_Z a) a) in Lo by (reflexivity || lia).
  rewrite (proj2 Hrnd) in Hi by lia.
  f_equal. apply inject_Z_injective.
  rewrite (Qfloor_unique _ a); [reflexivity | exact Lo |].
  eapply Qle_lt_trans; [exact Hi |].
  apply Qlt_shift_div_r; [reflexivity |].
  rewrite <- inject_Z_mult, <- Zlt_Qlt. change (2 ^ 7)%Z with 128%Z. lia.
Qed.

(** [2 - A + Math.floor(A / 4)] is exact. *)
Lemma rounded_century_term (a : Z) :
  (- 30000 <= a <= 30000)%Z ->
  Rounded.add (Rounded.sub 2 (inject_Z a))
              (JS.floor (Rounded.div (inject_Z a) 4))
  == inject_Z (2 - a + a / 4).
Proof.
  intros Ha.
  assert (JS.floor (Rounded.div (inject_Z a) 4) == inject_Z (a / 4)) as ->.
  { assert (Rounded.div (inject_Z a) 4 == inject_Z a / inject_Z 4) as E.
    { unfold Rounded.div. apply (rnd_dyadic _ a 2); [reflexivity | lia | lia]. }
    rewrite (floor_ratio _ a 4 E). reflexivity. }
  change 2 with (inject_Z 2).
  rewrite rounded_sub_Z by lia.
  apply rounded_add_Z. Z.div_mod_to_equations. lia.
Qed.

(** [Math.floor(365.25 * (year + 4716))] is exact: quarters are doubles. *)
Lemma rounded_year_term (y : Z) :
  (- 2000000 <= y <= 2000000)%Z ->
  JS.floor (Rounded.mul (Rounded.lit 365.25)
                        (Rounded.add (inject_Z y) 4716))
  == inject_Z ((36525 * (y + 4716)) / 100).
Proof.
  intros Hy.
  assert (Rounded.lit 365.25 == 365.25) as ->
    by (unfold Rounded.lit; apply (rnd_dyadic _ 1461 2);
        [reflexivity | lia | lia]).
  change 4716 with (inject_Z 4716).
  rewrite rounded_add_Z by lia.
  assert (Rounded.mul 365.25 (inject_Z (y + 4716))
          == inject_Z (1461 * (y + 4716)) / inject_Z 4) as E.
  { unfold Rounded.mul.
    assert (365.25 * inject_Z (y + 4716)
            == inject_Z (1461 * (y + 4716)) / inject_Z (2 ^ 2)) as E'.
    { rewrite inject_Z_mult. change (inject_Z (2 ^ 2)) with 4.
      change (inject_Z 1461) with 1461. field. }
    rewrite (rnd_dyadic _ _ _ E') by lia. exact E'. }
  rewrite (floor_ratio _ _ _ E).
  replace (36525 * (y + 4716))%Z with (25 * (1461 * (y + 4716)))%Z by lia.
  change 100%Z with (25 * 4)%Z.
  now rewrite Z.div_mul_cancel_l by lia.
Qed.

(** [Math.floor(30.6001 * (month + 1))]: the literal and the product are
    both rounded, by far too little to reach a whole number. *)
Lemma rounded_month_term (m : Z) :
  (3 <= m <= 14)%Z ->
  JS.floor (Rounded.mul (Rounded.lit 30.6001)
                        (Rounded.add (inject_Z m) 1))
  == inject_Z ((306001 * (m + 1)) / 10000).
Proof.
  intros Hm.
  change (Rounded.add (inject_Z m) 1)
    with (Rounded.add (inject_Z m) (inject_Z 1)).
  rewrite rounded_add_Z by lia.
  unfold Rounded.lit, Rounded.mul, JS.floor.
  destruct (rnd_near 30.6001) as [C0 C1]; [lra | lra |].
  set (c := rnd 30.6001) in *. clearbody c.
  assert (forall n k : Z,
            inject_Z k + (1 # 1000000) <= c * inject_Z n ->
            c * inject_Z n <= inject_Z k + 1 - (1 # 1000000) ->
            - 100000 <= c * inject_Z n -> c * inject_Z n <= 100000 ->
            Qfloor (rnd (c * inject_Z n)) = k) as Hfl.
  { intros n k L U B0 B1.
    destruct (rnd_near (c * inject_Z n)) as [N0 N1]; [lra | lra |].
    apply Qfloor_unique; [lra |].
    rewrite inject_Z_plus. change (inject_Z 1) with 1. lra. }
  assert (m = 3 \/ m = 4 \/ m = 5 \/ m = 6 \/ m = 7 \/ m = 8 \/ m = 9 \/
          m = 10 \/ m = 11 \/ m = 12 \/ m = 13 \/ m = 14)%Z as Cm by lia.
  assert (forall n k n' k' : Z,
            n = n' -> k = k' -> Qfloor (rnd (c * inject_Z n')) = k' ->
            inject_Z (Qfloor (rnd (c * inject_Z n))) == inject_Z k) as Hin
    by (intros n k n' k' -> -> ->; reflexivity).
  repeat (destruct Cm as [Cm | Cm];
          [rewrite Cm;
           eapply Hin; [vm_compute; reflexivity | vm_compute; reflexivity |];
           apply Hfl; unfold inject_Z; lra |]).
  rewrite Cm.
  eapply Hin; [vm_compute; reflexivity | vm_compute; reflexivity |].
  apply Hfl; unfold inject_Z; lra.
Qed.

Lemma dayNumber_split (y m d : Z) :
  (dayNumber y m d - centuryTerm y m
   = (36525 * ((if (m <=? 2) then y - 1 else y) + 4716)) / 100
     + (306001 * ((if (m <=? 2) then m + 12 else m) + 1)) / 10000 + d)%Z.
Proof.
  unfold centuryTerm. destruct (Z.leb_spec m 2) as [L | L].
  - rewrite dayNumber_early by exact L. lia.
  - rewrite dayNumber_late by exact L. lia.
Qed.

Lemma dayNumber_bound (y m d : Z) :
  (- 1000000 <= y <= 1000000)%Z -> (1 <= m <= 12)%Z -> (1 <= d <= 31)%Z ->
  (- 400000000 <= dayNumber y m d - centuryTerm y m <= 400000000)%Z /\
  (- 400000000 <= dayNumber y m d <= 400000000)%Z /\
  (- 30000 <= centuryTerm y m <= 30000)%Z.
Proof.
  intros Hy Hm Hd. rewrite dayNumber_split.
  assert (dayNumber y m d
          = dayNumber y m d - centuryTerm y m + centuryTerm y m)%Z as ->
    by lia.
  rewrite dayNumber_split. unfold centuryTerm.
  destruct (Z.leb_spec m 2) as [L | L]; Z.div_mod_to_equations; lia.
Qed.

(** The Julian Day as the doubles compute it: the whole days are exact,
    and four operations round: the division of the hour, and the three
    additions that follow it. *)
Lemma rounded_dateToJulianDay_steps (y m d : Z) (h : Q) :
  (- 1000000 <= y <= 1000000)%Z -> (1 <= m <= 12)%Z -> (1 <= d <= 31)%Z ->
  Rounded.dateToJulianDay (inject_Z y) (inject_Z m) (inject_Z d) h
  == rnd (rnd (rnd (inject_Z (dayNumber y m d - centuryTerm y m)
                    + rnd (h / 24))
               + inject_Z (centuryTerm y m))
          - 1524.5).
Proof.
  intros Hy Hm Hd.
  destruct (dayNumber_bound y m d Hy Hm Hd) as (_ & _ & Hc).
  rewrite dayNumber_split. unfold centuryTerm in *.
  unfold Rounded.dateToJulianDay.
  assert (Qle_bool (inject_Z m) 2 = (m <=? 2)%Z) as ->.
  { destruct (Z.leb_spec m 2) as [L | L].
    - apply Qle_bool_iff. change 2 with (inject_Z 2). now rewrite <- Zle_Qle.
    - apply leb_gt. change 2 with (inject_Z 2). now rewrite <- Zlt_Qlt. }
  assert (Rounded.lit 1524.5 == 1524.5) as E5
    by (unfold Rounded.lit; apply (rnd_dyadic _ 3049 1);
        [reflexivity | lia | lia]).
  destruct (Z.leb_spec m 2) as [L | L]; cbv beta iota zeta.
  - assert (Rounded.sub (inject_Z y) 1 == inject_Z (y - 1)) as ->
      by (apply (rounded_sub_Z y 1); lia).
    assert (Rounded.add (inject_Z m) 12 == inject_Z (m + 12)) as ->
      by (apply (rounded_add_Z m 12); lia).
    rewrite (rounded_century (y - 1)) by lia.
    rewrite (rounded_century_term ((y - 1) / 100))
      by (Z.div_mod_to_equations; lia).
    rewrite (rounded_year_term (y - 1)) by lia.
    rewrite (rounded_month_term (m + 12)) by lia.
    rewrite rounded_add_Z by (Z.div_mod_to_equations; lia).
    rewrite rounded_add_Z by (Z.div_mod_to_equations; lia).
    rewrite E5. reflexivity.
  - rewrite (rounded_century y) by lia.
    rewrite (rounded_century_term (y / 100))
      by (Z.div_mod_to_equations; lia).
    rewrite (rounded_year_term y) by lia.
    rewrite (rounded_month_term m) by lia.
    rewrite rounded_add_Z by (Z.div_mod_to_equations; lia).
    rewrite rounded_add_Z by (Z.div_mod_to_equations; lia).
    rewrite E5. reflexivity.
Qed.

Lemma rnd_unit_interval (x : Q) : 0 <= x -> x <= 1 -> 0 <= rnd x /\ rnd x <= 1.
Proof.
  intros H0 H1. apply rnd_mono in H0, H1.
  rewrite (rnd_Z 0 0) in H0 by (reflexivity || lia).
  rewrite (rnd_Z 1 1) in H1 by (reflexivity || lia).
  split; assumption.
Qed.

(** The rounded Julian Day stays in the day it belongs to... *)
Lemma rounded_julianDay_window (y m d : Z) (h : Q) :
  (- 1000000 <= y <= 1000000)%Z -> (1 <= m <= 12)%Z -> (1 <= d <= 31)%Z ->
  0 <= h -> h <= 24 ->
  inject_Z (dayNumber y m d) - 1524.5
  <= Rounded.dateToJulianDay (inject_Z y) (inject_Z m) (inject_Z d) h /\
  Rounded.dateToJulianDay (inject_Z y) (inject_Z m) (inject_Z d) h
  <= inject_Z (dayNumber y m d) - 1523.5.
Proof.
  intros Hy Hm Hd H0 H1.
  rewrite rounded_dateToJulianDay_steps by assumption.
  destruct (dayNumber_bound y m d Hy Hm Hd) as (B1 & B2 & B3).
  set (n := (dayNumber y m d - centuryTerm y m)%Z) in *.
  set (c := centuryTerm y m) in *.
  assert (dayNumber y m d = n + c)%Z as -> by (subst n; lia).
  destruct (rnd_unit_interval (h / 24)) as [R0 R1];
    [apply Qle_shift_div_l; lra | apply Qle_shift_div_r; lra |].
  set (r := rnd (h / 24)) in *. clearbody r.
  assert (inject_Z n <= rnd (inject_Z n + r) /\
          rnd (inject_Z n + r) <= inject_Z (n + 1)) as [S0 S1].
  { split.
    - rewrite <- (rnd_Z (inject_Z n) n) at 1 by (reflexivity || lia).
      apply rnd_mono. lra.
    - rewrite <- (rnd_Z (inject_Z (n + 1)) (n + 1)) by (reflexivity || lia).
      apply rnd_mono. rewrite inject_Z_plus. change (inject_Z 1) with 1. lra. }
  set (s1 := rnd (inject_Z n + r)) in *. clearbody s1.
  assert (inject_Z (n + c) <= rnd (s1 + inject_Z c) /\
          rnd (s1 + inject_Z c) <= inject_Z (n + c + 1)) as [T0 T1].
  { split.
    - rewrite <- (rnd_Z (inject_Z (n + c)) (n + c)) at 1
        by (reflexivity || lia).
      apply rnd_mono. rewrite inject_Z_plus. lra.
    - rewrite <- (rnd_Z (inject_Z (n + c + 1)) (n + c + 1))
        by (reflexivity || lia).
      apply rnd_mono. rewrite !inject_Z_plus in *.
      change (inject_Z 1) with 1 in *. lra. }
  set (s2 := rnd (s1 + inject_Z c)) in *. clearbody s2.
  assert (rnd (inject_Z (n + c) - 1524.5) == inject_Z (n + c) - 1524.5) as E0.
  { apply (rnd_dyadic _ (2 * (n + c) - 3049) 1); [| lia | lia].
    unfold Z.sub. rewrite ?inject_Z_plus, ?inject_Z_mult, ?inject_Z_plus.
    change (inject_Z 2) with 2. change (inject_Z (- (3049))) with (-3049).
    change (inject_Z (2 ^ 1)) with 2. change (inject_Z 1) with 1. field. }
  assert (rnd (inject_Z (n + c + 1) - 1524.5)
          == inject_Z (n + c + 1) - 1524.5) as E1.
  { apply (rnd_dyadic _ (2 * (n + c + 1) - 3049) 1); [| lia | lia].
    unfold Z.sub. rewrite ?inject_Z_plus, ?inject_Z_mult, ?inject_Z_plus.
    change (inject_Z 2) with 2. change (inject_Z (- (3049))) with (-3049).
    change (inject_Z (2 ^ 1)) with 2. change (inject_Z 1) with 1. field. }
  split.
  - rewrite <- E0. apply rnd_mono. lra.
  - assert (inject_Z (n + c) - 1523.5 == inject_Z (n + c + 1) - 1524.5) as ->
      by (rewrite (inject_Z_plus (n + c) 1); change (inject_Z 1) with 1; lra).
    rewrite <- E1. apply rnd_mono. lra.
Qed.

(** ... it does not decrease with the hour... *)
Lemma rounded_julianDay_hour_mono (y m d : Z) (h1 h2 : Q) :
  (- 1000000 <= y <= 1000000)%Z -> (1 <= m <= 12)%Z -> (1 <= d <= 31)%Z ->
  h1 <= h2 ->
  Rounded.dateToJulianDay (inject_Z y) (inject_Z m) (inject_Z d) h1
  <= Rounded.dateToJulianDay (inject_Z y) (inject_Z m) (inject_Z d) h2.
Proof.
  intros Hy Hm Hd H.
  rewrite !rounded_dateToJulianDay_steps by assumption.
  apply rnd_mono, Qplus_le_compat; [| apply Qle_refl].
  apply rnd_mono, Qplus_le_compat; [| apply Qle_refl].
  apply rnd_mono, Qplus_le_compat; [apply Qle_refl |].
  apply rnd_mono. apply Qmult_le_compat_r; [exact H | discriminate].
Qed.

(** ... and it is within [2^-22] day, a fiftieth of a second, of the
    Julian Day of exact arithmetic. *)
Lemma rounded_julianDay_near (y m d : Z) (h : Q) :
  (- 1000000 <= y <= 1000000)%Z -> (1 <= m <= 12)%Z -> (1 <= d <= 31)%Z ->
  0 <= h -> h <= 24 ->
  let exact := dateToJulianDay (inject_Z y) (inject_Z m) (inject_Z d) h in
  exact - (1 # 4194304)
  <= Rounded.dateToJulianDay (inject_Z y) (inject_Z m) (inject_Z d) h /\
  Rounded.dateToJulianDay (inject_Z y) (inject_Z m) (inject_Z d) h
  <= exact + (1 # 4194304).
Proof.
  intros Hy Hm Hd H0 H1 exact. subst exact.
  rewrite dateToJulianDay_dayNumber.
  rewrite rounded_dateToJulianDay_steps by assumption.
  destruct (dayNumber_bound y m d Hy Hm Hd) as (B1 & B2 & B3).
  set (n := (dayNumber y m d - centuryTerm y m)%Z) in *.
  set (c := centuryTerm y m) in *.
  assert (dayNumber y m d = n + c)%Z as -> by (subst n; lia).
  rewrite inject_Z_plus.
  assert (inject_Z (- 400000000) <= inject_Z n /\
          inject_Z n <= inject_Z 400000000 /\
          inject_Z (- 30000) <= inject_Z c /\
          inject_Z c <= inject_Z 30000) as (N0 & N1 & C0 & C1)
    by (rewrite <- !Zle_Qle; lia).
  change (inject_Z (- 400000000)) with (- 400000000) in N0.
  change (inject_Z 400000000) with 400000000 in N1.
  change (inject_Z (- 30000)) with (- 30000) in C0.
  change (inject_Z 30000) with 30000 in C1.
  set (qn := inject_Z n) in *. set (qc := inject_Z c) in *.
  clearbody qn qc.
  assert (0 <= h / 24 /\ h / 24 <= 1) as [D0 D1]
    by (split; [apply Qle_shift_div_l | apply Qle_shift_div_r]; lra).
  set (x := h / 24) in *. clearbody x.
  destruct (rnd_near x) as [R0 R1]; [lra | lra |].
  set (r := rnd x) in *. clearbody r.
  destruct (rnd_near (qn + r)) as [S0 S1]; [lra | lra |].
  set (s1 := rnd (qn + r)) in *. clearbody s1.
  destruct (rnd_near (s1 + qc)) as [T0 T1]; [lra | lra |].
  set (s2 := rnd (s1 + qc)) in *. clearbody s2.
  destruct (rnd_near (s2 - 1524.5)) as [U0 U1]; [lra | lra |].
  split; lra.
Qed.

Lemma validCivil_ranges (c : Civil) :
  validCivil c ->
  (1 <= c_month c <= 12)%Z /\ (1 <= c_day c <= 31)%Z /\
  0 <= c_hour c /\ c_hour c <= 24.
Proof.
  intros (Hm & Hd & Hh0 & Hh1).
  pose proof (daysInMonth_bounds (c_year c) (c_month c)).
  split; [exact Hm |]. split; [lia |]. split; lra.
Qed.

(** An earlier date has the smaller day number. *)
Lemma dayNumber_date_lt (t1 t2 : Civil) :
  validCivil t1 -> validCivil t2 -> civil_lt t1 t2 ->
  c_hour t2 <= c_hour t1 ->
  (dayNumber (c_year t1) (c_month t1) (c_day t1) + 1
   <= dayNumber (c_year t2) (c_month t2) (c_day t2))%Z.
Proof.
  intros (Hm1 & Hd1 & _) (Hm2 & Hd2 & _) Hlt Hh.
  destruct t1 as [y1 m1 d1 h1], t2 as [y2 m2 d2 h2].
  unfold civil_lt in Hlt. cbn [c_year c_month c_day c_hour] in *.
  destruct Hlt as [Hy | [Ey [Hm | [Em [Hd | [Ed Hlt]]]]]].
  - pose proof (dayNumber_year_lt y1 y2 m1 m2 d1 d2). lia.
  - subst y2. pose proof (dayNumber_month_lt y1 m1 m2 d1 d2). lia.
  - subst y2 m2. rewrite (dayNumber_day y1 m1 d1), (dayNumber_day y1 m1 d2).
    lia.
  - exfalso. lra.
Qed.

(** C5, as amended.  With every operator rounded to a double, the Julian
    Day of a valid proleptic Gregorian civil instant (year within a
    million of 0) is within [2^-22] day, a fiftieth of a second, of the
    Julian Day of exact arithmetic.  In chronological order it never
    decreases, across month and year boundaries too; it increases strictly
    from an instant to one at least a second later, and from a date to a
    later date at the same time of day.  (Closer instants can get the same
    double.) *)
Theorem dateToJulianDay_rounded_order (t1 t2 : Civil) :
  validCivil t1 -> validCivil t2 ->
  (- 1000000 <= c_year t1 <= 1000000)%Z ->
  (- 1000000 <= c_year t2 <= 1000000)%Z ->
  (julianDayOf t1 - (1 # 4194304) <= roundedJulianDayOf t1 /\
   roundedJulianDayOf t1 <= julianDayOf t1 + (1 # 4194304)) /\
  (civil_lt t1 t2 -> roundedJulianDayOf t1 <= roundedJulianDayOf t2) /\
  ((1 # 86400) <= julianDayOf t2 - julianDayOf t1 ->
   roundedJulianDayOf t1 < roundedJulianDayOf t2) /\
  (civil_lt t1 t2 -> c_hour t1 == c_hour t2 ->
   roundedJulianDayOf t1 < roundedJulianDayOf t2).
Proof.
  intros V1 V2 Y1 Y2.
  destruct (validCivil_ranges t1 V1) as (M1 & D1 & H10 & H11).
  destruct (validCivil_ranges t2 V2) as (M2 & D2 & H20 & H21).
  pose proof (rounded_julianDay_near (c_year t1) (c_month t1) (c_day t1)
                (c_hour t1) Y1 M1 D1 H10 H11) as N1.
  pose proof (rounded_julianDay_near (c_year t2) (c_month t2) (c_day t2)
                (c_hour t2) Y2 M2 D2 H20 H21) as N2.
  cbv zeta in N1, N2.
  fold (julianDayOf t1) in N1. fold (roundedJulianDayOf t1) in N1.
  fold (julianDayOf t2) in N2. fold (roundedJulianDayOf t2) in N2.
  assert ((1 # 86400) <= julianDayOf t2 - julianDayOf t1 ->
          roundedJulianDayOf t1 < roundedJulianDayOf t2) as Strict
    by (intros Hs; lra).
  split; [exact N1 |]. split; [| split; [exact Strict |]].
  - intros Hlt.
    destruct (Qlt_le_dec (c_hour t1) (c_hour t2)) as [Hh | Hh].
    + (* an earlier hour: compare on the same or an earlier date *)
      assert (dayNumber (c_year t1) (c_month t1) (c_day t1)
              <= dayNumber (c_year t2) (c_month t2) (c_day t2))%Z as Hd.
      { destruct V1 as (Hm1 & Hd1 & _), V2 as (Hm2 & Hd2 & _).
        destruct t1 as [y1 m1 d1 h1], t2 as [y2 m2 d2 h2].
        unfold civil_lt in Hlt. cbn [c_year c_month c_day c_hour] in *.
        destruct Hlt as [Hy | [Ey [Hm | [Em [Hd | [Ed _]]]]]].
        - pose proof (dayNumber_year_lt y1 y2 m1 m2 d1 d2). lia.
        - subst y2. pose proof (dayNumber_month_lt y1 m1 m2 d1 d2). lia.
        - subst y2 m2.
          rewrite (dayNumber_day y1 m1 d1), (dayNumber_day y1 m1 d2). lia.
        - subst y2 m2 d2. lia. }
      apply Z.le_lteq in Hd. destruct Hd as [Hd | Hd].
      * destruct (rounded_julianDay_window (c_year t1) (c_month t1)
                    (c_day t1) (c_hour t1) Y1 M1 D1 H10 H11) as [_ W1].
        destruct (rounded_julianDay_window (c_year t2) (c_month t2)
                    (c_day t2) (c_hour t2) Y2 M2 D2 H20 H21) as [W2 _].
        fold (roundedJulianDayOf t1) in W1.
        fold (roundedJulianDayOf t2) in W2.
        assert (inject_Z (dayNumber (c_year t1) (c_month t1) (c_day t1) + 1)
                <= inject_Z (dayNumber (c_year t2) (c_month t2) (c_day t2)))
          as Hq by (rewrite <- Zle_Qle; lia).
        rewrite inject_Z_plus in Hq. change (inject_Z 1) with 1 in Hq. lra.
      * (* the same day number: the same date *)
        assert (c_year t1 = c_year t2 /\ c_month t1 = c_month t2 /\
                c_day t1 = c_day t2) as (Ey & Em & Ed).
        { destruct V1 as (Hm1 & Hd1 & _), V2 as (Hm2 & Hd2 & _).
          destruct t1 as [y1 m1 d1 h1], t2 as [y2 m2 d2 h2].
          unfold civil_lt in Hlt. cbn [c_year c_month c_day c_hour] in *.
          destruct Hlt as [Hy | [Ey [Hm | [Em [Hd' | [Ed _]]]]]].
          - pose proof (dayNumber_year_lt y1 y2 m1 m2 d1 d2). lia.
          - subst y2. pose proof (dayNumber_month_lt y1 m1 m2 d1 d2). lia.
          - subst y2 m2.
            rewrite (dayNumber_day y1 m1 d1), (dayNumber_day y1 m1 d2) in Hd.
            lia.
          - repeat split; assumption. }
        unfold roundedJulianDayOf. rewrite <- Ey, <- Em, <- Ed.
        apply rounded_julianDay_hour_mono; try assumption.
        now apply Qlt_le_weak.
    + pose proof (dayNumber_date_lt t1 t2 V1 V2 Hlt Hh) as Hd.
      destruct (rounded_julianDay_window (c_year t1) (c_month t1)
                  (c_day t1) (c_hour t1) Y1 M1 D1 H10 H11) as [_ W1].
      destruct (rounded_julianDay_window (c_year t2) (c_month t2)
                  (c_day t2) (c_hour t2) Y2 M2 D2 H20 H21) as [W2 _].
      fold (roundedJulianDayOf t1) in W1. fold (roundedJulianDayOf t2) in W2.
      rewrite Zle_Qle, inject_Z_plus in Hd.
      change (inject_Z 1) with 1 in Hd. lra.
  - intros Hlt Eh. apply Strict.
    assert (c_hour t2 <= c_hour t1) as Hh by (rewrite Eh; apply Qle_refl).
    pose proof (dayNumber_date_lt t1 t2 V1 V2 Hlt Hh) as Hd.
    unfold julianDayOf. rewrite !dateToJulianDay_dayNumber.
    rewrite Zle_Qle, inject_Z_plus in Hd.
    change (inject_Z 1) with 1 in Hd. rewrite Eh.
    set (x := c_hour t2 / 24). clearbody x. lra.
Qed.

(** At midnight and at noon nothing is rounded. *)
Lemma rounded_julianDay_exact_hours (y m d : Z) (h : Q) :
  (- 1000000 <= y <= 1000000)%Z -> (1 <= m <= 12)%Z -> (1 <= d <= 31)%Z ->
  h == 0 \/ h == 12 ->
  Rounded.dateToJulianDay (inject_Z y) (inject_Z m) (inject_Z d) h
  == dateToJulianDay (inject_Z y) (inject_Z m) (inject_Z d) h.
Proof.
  intros Hy Hm Hd Hh.
  rewrite dateToJulianDay_dayNumber.
  rewrite rounded_dateToJulianDay_steps by assumption.
  destruct (dayNumber_bound y m d Hy Hm Hd) as (B1 & B2 & B3).
  set (n := (dayNumber y m d - centuryTerm y m)%Z) in *.
  set (c := centuryTerm y m) in *.
  assert (dayNumber y m d = n + c)%Z as -> by (subst n; lia).
  assert (exists j : Z, (0 <= j <= 1)%Z /\ h / 24 == inject_Z j / inject_Z (2 ^ 1))
    as (j & Hj & Ej).
  { destruct Hh as [E | E]; [exists 0%Z | exists 1%Z];
      (split; [lia | rewrite E; reflexivity]). }
  rewrite Ej.
  rewrite (proj2 Hrnd j 1%Z) by lia.
  assert (inject_Z n + inject_Z j / inject_Z (2 ^ 1)
          == inject_Z (2 * n + j) / inject_Z (2 ^ 1)) as ->.
  { rewrite inject_Z_plus, inject_Z_mult. change (inject_Z 2) with 2.
    change (inject_Z (2 ^ 1)) with 2. field. }
  rewrite (proj2 Hrnd (2 * n + j)%Z 1%Z) by lia.
  assert (inject_Z (2 * n + j) / inject_Z (2 ^ 1) + inject_Z c
          == inject_Z (2 * (n + c) + j) / inject_Z (2 ^ 1)) as ->.
  { rewrite !inject_Z_plus, !inject_Z_mult, inject_Z_plus.
    change (inject_Z 2) with 2. change (inject_Z (2 ^ 1)) with 2. field. }
  rewrite (proj2 Hrnd (2 * (n + c) + j)%Z 1%Z) by lia.
  assert (inject_Z (2 * (n + c) + j) / inject_Z (2 ^ 1) - 1524.5
          == inject_Z (2 * (n + c) + j - 3049) / inject_Z (2 ^ 1)) as ->.
  { unfold Z.sub. rewrite !inject_Z_plus, !inject_Z_mult, inject_Z_plus.
    change (inject_Z 2) with 2. change (inject_Z (2 ^ 1)) with 2.
    change (inject_Z (- (3049))) with (-3049). field. }
  rewrite (proj2 Hrnd (2 * (n + c) + j - 3049)%Z 1%Z) by lia.
  unfold Z.sub. rewrite !inject_Z_plus, !inject_Z_mult, !inject_Z_plus.
  change (inject_Z 2) with 2. change (inject_Z (2 ^ 1)) with 2.
  change (inject_Z (- (3049))) with (-3049). field.
Qed.

(** X11. With every operator rounded to a double, the same time on the
    following calendar day (the next day of the month, the 1st of the next
    month after the month's last day, leap days counted, or 1 January
    after 31 December) is a valid instant with a strictly greater Julian
    Day: greater by 1 to within [2^-21] day, and by exactly 1 at midnight
    and at noon, where nothing is rounded. *)
Theorem dateToJulianDay_next_day (c : Civil) :
  validCivil c -> (- 1000000 <= c_year c < 1000000)%Z ->
  validCivil (nextDay c) /\
  roundedJulianDayOf c < roundedJulianDayOf (nextDay c) /\
  roundedJulianDayOf c + 1 - (1 # 2097152)
  <= roundedJulianDayOf (nextDay c) /\
  roundedJulianDayOf (nextDay c)
  <= roundedJulianDayOf c + 1 + (1 # 2097152) /\
  (c_hour c == 0 \/ c_hour c == 12 ->
   roundedJulianDayOf (nextDay c) == roundedJulianDayOf c + 1).
Proof.
  intros V Hy. pose proof (nextDay_valid c V) as V'.
  assert (c_hour (nextDay c) = c_hour c) as Eh.
  { unfold nextDay. destruct (_ <? _)%Z; [reflexivity |].
    destruct (_ <? _)%Z; reflexivity. }
  assert ((- 1000000 <= c_year (nextDay c) <= 1000000)%Z) as Hy'.
  { unfold nextDay. destruct (_ <? _)%Z; [cbn [c_year]; lia |].
    destruct (_ <? _)%Z; cbn [c_year]; lia. }
  assert ((- 1000000 <= c_year c <= 1000000)%Z) as Hy0 by lia.
  destruct (validCivil_ranges c V) as (M & D & H0 & H1).
  destruct (validCivil_ranges _ V') as (M' & D' & H0' & H1').
  assert (julianDayOf (nextDay c) == julianDayOf c + 1) as Ex.
  { unfold julianDayOf. rewrite !dateToJulianDay_dayNumber.
    rewrite (nextDay_dayNumber c V), inject_Z_plus, Eh.
    change (inject_Z 1) with 1. lra. }
  pose proof (rounded_julianDay_near _ _ _ _ Hy0 M D H0 H1) as N.
  pose proof (rounded_julianDay_near _ _ _ _ Hy' M' D' H0' H1') as N'.
  cbv zeta in N, N'.
  fold (julianDayOf c) in N. fold (roundedJulianDayOf c) in N.
  fold (julianDayOf (nextDay c)) in N'.
  fold (roundedJulianDayOf (nextDay c)) in N'.
  split; [exact V' |]. split; [lra |]. split; [lra |]. split; [lra |].
  intros Hh. unfold roundedJulianDayOf.
  rewrite (rounded_julianDay_exact_hours _ _ _ (c_hour c)) by assumption.
  rewrite (rounded_julianDay_exact_hours _ _ _ (c_hour (nextDay c)))
    by (try assumption; rewrite Eh; exact Hh).
  exact Ex.
Qed.

End RoundedArithmetic.




Lemma dateToJulianDay_rounded_order_witness :
  roundedJulianDayOf (Rd := binary64)
    {| c_year := 2024; c_month := 2; c_day := 29; c_hour := 23.5 |}
  < roundedJulianDayOf (Rd := binary64)
      {| c_year := 2024; c_month := 3; c_day := 1; c_hour := 0 |}.
Proof.
  destruct (dateToJulianDay_rounded_order (Rd := binary64)
              binary64_roundsToDoubles
              {| c_year := 2024; c_month := 2; c_day := 29; c_hour := 23.5 |}
              {| c_year := 2024; c_month := 3; c_day := 1; c_hour := 0 |})
    as (_ & _ & Hs & _).
  - unfold validCivil. cbn. split; [lia |]. split; [lia |]. split; lra.
  - unfold validCivil. cbn. split; [lia |]. split; [lia |]. split; lra.
  - cbn. lia.
  - cbn. lia.
  - apply Hs. apply Qle_bool_imp_le. vm_compute. reflexivity.
Defined.

(** C5 as the specification words it fails on doubles: midnight of
    1 January 2024 and the instant [2^-30] hour (3.4 microseconds) later
    are in chronological order and get the same Julian Day. *)
Lemma dateToJulianDay_collision :
  let t1 := {| c_year := 2024; c_month := 1; c_day := 1; c_hour := 0 |} in
  let t2 := {| c_year := 2024; c_month := 1; c_day := 1;
               c_hour := 1 # 2 ^ 30 |} in
  validCivil t1 /\ validCivil t2 /\ civil_lt t1 t2 /\
  roundedJulianDayOf (Rd := binary64) t1 == 2460310.5 /\
  roundedJulianDayOf (Rd := binary64) t2 == 2460310.5 /\
  ~ roundedJulianDayOf (Rd := binary64) t1
    < roundedJulianDayOf (Rd := binary64) t2.
Proof.
  cbv zeta.
  assert (roundedJulianDayOf (Rd := binary64)
            {| c_year := 2024; c_month := 1; c_day := 1; c_hour := 0 |}
          == 2460310.5) as E1 by (vm_compute; reflexivity).
  assert (roundedJulianDayOf (Rd := binary64)
            {| c_year := 2024; c_month := 1; c_day := 1;
               c_hour := 1 # 2 ^ 30 |}
          == 2460310.5) as E2 by (vm_compute; reflexivity).
  rewrite E1, E2.
  split; [unfold validCivil; cbn; split; [lia |]; split; [lia |];
          split; lra |].
  split; [unfold validCivil; cbn; split; [lia |]; split; [lia |];
          split; [discriminate | reflexivity] |].
  split; [unfold civil_lt; cbn; right; split; [reflexivity |]; right;
          split; [reflexivity |]; right; split; reflexivity |].
  split; [reflexivity |]. split; [reflexivity |]. intros C. lra.
Qed.

Lemma dateToJulianDay_next_day_witness :
  roundedJulianDayOf (Rd := binary64)
    (nextDay {| c_year := 2024; c_month := 2; c_day := 29; c_hour := 12 |})
  == roundedJulianDayOf (Rd := binary64)
       {| c_year := 2024; c_month := 2; c_day := 29; c_hour := 12 |} + 1.
Proof.
  destruct (dateToJulianDay_next_day (Rd := binary64)
              binary64_roundsToDoubles
              {| c_year := 2024; c_month := 2; c_day := 29; c_hour := 12 |})
    as (_ & _ & _ & _ & He).
  - unfold validCivil. cbn. split; [lia |]. split; [lia |]. split; lra.
  - cbn. lia.
  - apply He. right. reflexivity.
Defined.

(* ================================================================== *)
(** * The zodiac decomposition on doubles *)
(* ================================================================== *)

Section Binary64Grid.

Import Binary64.

(** The rounding of a number of at least [2^a] is a whole multiple of
    [2^(a - 52)]. *)
Lemma rnd64_grid_in (q : Q) (a : Z) :
  (0 <= a <= 52)%Z -> inject_Z (2 ^ a) <= q ->
  exists j : Z, rnd64 q == inject_Z j / inject_Z (2 ^ (52 - a)).
Proof.
  intros Ha Hq.
  assert ((0 < 2 ^ a)%Z) as Hpa by (apply Z.pow_pos_nonneg; lia).
  pose proof (inject_Z_pos _ Hpa) as Hpaq. pose proof scale_pos as Hs.
  destruct (rnd64_cases q) as [[_ E] | [C _]]; [| exfalso; lra].
  unfold roundUnits, quantum in E.
  set (t := q * inject_Z scale) in *.
  assert ((2 ^ (a + 1074) <= Qfloor t)%Z) as Hf.
  { rewrite <- (Qfloor_Z (2 ^ (a + 1074))). apply Qfloor_resp_le.
    subst t. rewrite Z.pow_add_r by lia. rewrite inject_Z_mult.
    fold scale. apply Qmult_le_compat_r; lra. }
  assert ((0 < 2 ^ (a + 1074))%Z) as Hp by (apply Z.pow_pos_nonneg; lia).
  assert ((a + 1074 <= Z.log2 (Qfloor t))%Z) as Hl
    by (apply Z.log2_le_pow2; lia).
  set (e := Z.max 0 (Z.log2 (Qfloor t) - 52)) in *.
  set (m := roundHalfEven (t / inject_Z (2 ^ e))) in *.
  exists (m * 2 ^ (e - (a + 1022)))%Z.
  rewrite E.
  assert ((2 ^ e = 2 ^ (e - (a + 1022)) * 2 ^ (a + 1022))%Z) as ->
    by (rewrite <- Z.pow_add_r by lia; f_equal; lia).
  assert ((scale = 2 ^ (52 - a) * 2 ^ (a + 1022))%Z) as ->
    by (unfold scale; rewrite <- Z.pow_add_r by lia; f_equal; lia).
  assert (0 < inject_Z (2 ^ (52 - a))) as P1
    by (apply inject_Z_pos, Z.pow_pos_nonneg; lia).
  assert (0 < inject_Z (2 ^ (a + 1022))) as P2
    by (apply inject_Z_pos, Z.pow_pos_nonneg; lia).
  rewrite !inject_Z_mult. field. split; intros C; lra.
Qed.

(** A double of at least [2^a] is a whole multiple of [2^(a - 52)]. *)
Lemma rnd64_grid (q : Q) (a : Z) :
  (0 <= a <= 52)%Z -> inject_Z (2 ^ a) <= rnd64 q ->
  exists j : Z, rnd64 q == inject_Z j / inject_Z (2 ^ (52 - a)).
Proof.
  intros Ha Hq.
  destruct (Qlt_le_dec q (inject_Z (2 ^ a))) as [L | L];
    [| now apply rnd64_grid_in].
  exists (2 ^ 52)%Z.
  assert ((0 < 2 ^ a)%Z) as Hpa by (apply Z.pow_pos_nonneg; lia).
  assert ((2 ^ a < 2 ^ 53)%Z) as Hlt by (apply Z.pow_lt_mono_r; lia).
  assert (rnd64 (inject_Z (2 ^ a)) == inject_Z (2 ^ a)) as Ex.
  { pose proof (rnd64_exact (2 ^ a) 0) as X.
    change (inject_Z (2 ^ 0)) with 1 in X.
    rewrite (rnd64_comp _ (inject_Z (2 ^ a) / 1)) by field.
    rewrite X; [field | lia | lia]. }
  assert (rnd64 q <= rnd64 (inject_Z (2 ^ a))) as M
    by (apply rnd64_mono; lra).
  assert (0 < inject_Z (2 ^ (52 - a))) as P1
    by (apply inject_Z_pos, Z.pow_pos_nonneg; lia).
  assert ((2 ^ 52 = 2 ^ a * 2 ^ (52 - a))%Z) as ->
    by (rewrite <- Z.pow_add_r by lia; f_equal; lia).
  rewrite inject_Z_mult.
  assert (inject_Z (2 ^ a) * inject_Z (2 ^ (52 - a)) / inject_Z (2 ^ (52 - a))
          == inject_Z (2 ^ a)) as -> by (field; intros C; lra).
  lra.
Qed.

End Binary64Grid.

Section ZodiacOnDoubles.

Import Binary64.

(** The sum [(l % 360) + 360] as a double, and what [% 360] leaves of
    it. *)
Lemma wrapped_range (q : Q) :
  - 360 < q -> q < 360 ->
  0 <= rnd64 (q + 360) /\ rnd64 (q + 360) <= 720 /\
  0 <= rnd64 (q + 360) %% 360 /\ rnd64 (q + 360) %% 360 < 360.
Proof.
  intros L U.
  assert (rnd64 0 == 0) as E0 by (vm_compute; reflexivity).
  assert (rnd64 720 == 720) as E1 by (vm_compute; reflexivity).
  assert (0 <= q + 360) as A by lra.
  assert (q + 360 <= 720) as B by lra.
  apply rnd64_mono in A, B. rewrite E0 in A. rewrite E1 in B.
  split; [exact A |]. split; [exact B |].
  apply rem_nonneg; [lra | exact A].
Qed.

Lemma wrapped_grid (q : Q) (a : Z) :
  - 360 < q -> q < 360 -> (0 <= a <= 8)%Z ->
  inject_Z (2 ^ a) <= rnd64 (q + 360) %% 360 ->
  exists j : Z,
    rnd64 (q + 360) %% 360 == inject_Z j / inject_Z (2 ^ (52 - a)).
Proof.
  intros L U Ha Hq.
  destruct (wrapped_range q L U) as (V0 & V1 & _).
  assert ((0 < 2 ^ a)%Z) as Hpa by (apply Z.pow_pos_nonneg; lia).
  pose proof (inject_Z_pos _ Hpa) as Hpaq.
  destruct (Qlt_le_dec (rnd64 (q + 360)) 360) as [C | C].
  - pose proof (rem_small _ 360 V0 C) as Er. rewrite Er in Hq.
    destruct (rnd64_grid (q + 360) a) as (j & Ej); [lia | exact Hq |].
    exists j. rewrite Er. exact Ej.
  - destruct (Qlt_le_dec (rnd64 (q + 360)) 720) as [D | D].
    + assert (rnd64 (q + 360) %% 360 == rnd64 (q + 360) - 360 * inject_Z 1)
        as Er.
      { apply rem_window; [lra | lra | |].
        - change (inject_Z 1) with 1. lra.
        - change (inject_Z (1 + 1)) with 2. lra. }
      change (inject_Z 1) with 1 in Er.
      destruct (rnd64_grid (q + 360) 8) as (j & Ej);
        [lia | change (inject_Z (2 ^ 8)) with 256; lra |].
      exists ((j - 360 * 2 ^ 44) * 2 ^ (8 - a))%Z.
      rewrite Er, Ej.
      assert ((2 ^ (52 - a) = 2 ^ (52 - 8) * 2 ^ (8 - a))%Z) as ->
        by (rewrite <- Z.pow_add_r by lia; f_equal; lia).
      assert (0 < inject_Z (2 ^ (8 - a))) as P1
        by (apply inject_Z_pos, Z.pow_pos_nonneg; lia).
      assert (0 < inject_Z (2 ^ (52 - 8))) as P2
        by (apply inject_Z_pos, Z.pow_pos_nonneg; lia).
      unfold Z.sub at 2.
      rewrite !inject_Z_mult, inject_Z_plus, inject_Z_opp, inject_Z_mult.
      change (inject_Z (2 ^ 44)) with (inject_Z (2 ^ (52 - 8))).
      change (inject_Z 360) with 360.
      field. split; intros N; lra.
    + exfalso.
      assert (rnd64 (q + 360) %% 360 == rnd64 (q + 360) - 360 * inject_Z 2)
        as Er.
      { apply rem_window; [lra | lra | |].
        - change (inject_Z 2) with 2. lra.
        - change (inject_Z (2 + 1)) with 3. lra. }
      change (inject_Z 2) with 2 in Er. lra.
Qed.

(** Below a multiple of 30 a double on the grid of its size stays far
    enough from it for the quotient by 30 to round below the whole
    number. *)
Lemma sector_upper (nl : Q) (k a : Z) :
  (0 <= a <= 52)%Z ->
  (exists j : Z, nl == inject_Z j / inject_Z (2 ^ (52 - a))) ->
  nl < 30 * inject_Z k ->
  Qle_bool (inject_Z k)
           (rnd64 ((30 * inject_Z k - 1 / inject_Z (2 ^ (52 - a))) / 30))
  = false ->
  rnd64 (nl / 30) < inject_Z k.
Proof.
  intros Ha (j & Ej) Hlt Hev. apply leb_gt in Hev.
  set (P := (2 ^ (52 - a))%Z) in *.
  assert ((0 < P)%Z) as HP by (apply Z.pow_pos_nonneg; lia).
  pose proof (inject_Z_pos _ HP) as HPq.
  assert (inject_Z j == nl * inject_Z P) as Ej'
    by (rewrite Ej; field; intros N; lra).
  assert (nl * inject_Z P < 30 * inject_Z k * inject_Z P) as Hm
    by (apply Qmult_lt_compat_r; assumption).
  assert (inject_Z j < inject_Z (30 * k * P)) as Hz.
  { rewrite !inject_Z_mult. change (inject_Z 30) with 30. lra. }
  rewrite <- Zlt_Qlt in Hz.
  assert (inject_Z (j + 1) <= inject_Z (30 * k * P)) as Hz'
    by (rewrite <- Zle_Qle; lia).
  rewrite inject_Z_plus, !inject_Z_mult in Hz'.
  change (inject_Z 30) with 30 in Hz'. change (inject_Z 1) with 1 in Hz'.
  assert (nl <= 30 * inject_Z k - 1 / inject_Z P) as Hle.
  { assert (30 * inject_Z k - 1 / inject_Z P
            == (30 * inject_Z k * inject_Z P - 1) / inject_Z P) as ->
      by (field; intros N; lra).
    rewrite Ej. unfold Qdiv. apply Qmult_le_compat_r; [lra |].
    apply Qlt_le_weak, Qinv_lt_0_compat. exact HPq. }
  eapply Qle_lt_trans; [| exact Hev].
  apply rnd64_mono. unfold Qdiv. apply Qmult_le_compat_r; [exact Hle |].
  discriminate.
Qed.

(** The sign index is the sector of the longitude: dividing a double of
    [[0, 360)] by 30 never rounds up to the next whole number. *)
Lemma sector_stable (nl : Q) :
  0 <= nl -> nl < 360 ->
  (forall a : Z, (0 <= a <= 8)%Z -> inject_Z (2 ^ a) <= nl ->
     exists j : Z, nl == inject_Z j / inject_Z (2 ^ (52 - a))) ->
  Qfloor (rnd64 (nl / 30)) = Qfloor (nl / 30).
Proof.
  intros H0 H1 G.
  pose proof (Qfloor_le (nl / 30)) as F0.
  pose proof (Qlt_floor (nl / 30)) as F1.
  set (s := Qfloor (nl / 30)) in *.
  assert (30 * inject_Z s <= nl) as L.
  { assert (nl == 30 * (nl / 30)) as E by field. lra. }
  assert (nl < 30 * inject_Z (s + 1)) as U.
  { assert (nl == 30 * (nl / 30)) as E by field. lra. }
  assert (inject_Z (- 1) < inject_Z s /\ inject_Z s < inject_Z 12) as [S0 S1].
  { rewrite inject_Z_plus in U. change (inject_Z 1) with 1 in U.
    change (inject_Z (- 1)) with (- 1). change (inject_Z 12) with 12.
    split; lra. }
  rewrite <- Zlt_Qlt in S0, S1.
  clearbody s. apply Qfloor_unique.
  - assert (rnd64 (inject_Z s) == inject_Z s) as E.
    { apply (rnd_Z (Rd := binary64) binary64_roundsToDoubles);
        [reflexivity | lia]. }
    rewrite <- E. now apply rnd64_mono.
  - assert (s = 0 \/ s = 1 \/ s = 2 \/ s = 3 \/ s = 4 \/ s = 5 \/ s = 6 \/
            s = 7 \/ s = 8 \/ s = 9 \/ s = 10 \/ s = 11)%Z as C by lia.
    assert (forall k a : Z,
              (0 <= a <= 8)%Z -> inject_Z (2 ^ a) <= nl ->
              nl < 30 * inject_Z k ->
              Qle_bool (inject_Z k)
                (rnd64 ((30 * inject_Z k - 1 / inject_Z (2 ^ (52 - a))) / 30))
              = false ->
              rnd64 (nl / 30) < inject_Z k) as Up.
    { intros k a Ha Hg Hk Hev.
      apply (sector_upper nl k a); [lia | now apply G | exact Hk | exact Hev]. }
    destruct C as [-> | C].
    { destruct (Qlt_le_dec nl 16) as [Sm | Bg].
      - assert (rnd64 (3 # 4) == 3 # 4) as E by (vm_compute; reflexivity).
        assert (nl / 30 <= 3 # 4) as Q by (apply Qle_shift_div_r; lra).
        apply rnd64_mono in Q. rewrite E in Q.
        change (inject_Z (0 + 1)) with 1. lra.
      - apply (Up 1%Z 4%Z); [lia | exact Bg | exact U |].
        vm_compute. reflexivity. }
    unfold inject_Z in L, U. cbn in U.
    destruct C as [-> | C];
      [apply (Up 2%Z 4%Z);
       [lia | change (inject_Z (2 ^ 4)) with 16; lra | exact U
        | vm_compute; reflexivity] |].
    destruct C as [-> | C];
      [apply (Up 3%Z 5%Z);
       [lia | change (inject_Z (2 ^ 5)) with 32; lra | exact U
        | vm_compute; reflexivity] |].
    destruct C as [-> | C];
      [apply (Up 4%Z 6%Z);
       [lia | change (inject_Z (2 ^ 6)) with 64; lra | exact U
        | vm_compute; reflexivity] |].
    destruct C as [-> | C];
      [apply (Up 5%Z 6%Z);
       [lia | change (inject_Z (2 ^ 6)) with 64; lra | exact U
        | vm_compute; reflexivity] |].
    destruct C as [-> | C];
      [apply (Up 6%Z 7%Z);
       [lia | change (inject_Z (2 ^ 7)) with 128; lra | exact U
        | vm_compute; reflexivity] |].
    destruct C as [-> | C];
      [apply (Up 7%Z 7%Z);
       [lia | change (inject_Z (2 ^ 7)) with 128; lra | exact U
        | vm_compute; reflexivity] |].
    destruct C as [-> | C];
      [apply (Up 8%Z 7%Z);
       [lia | change (inject_Z (2 ^ 7)) with 128; lra | exact U
        | vm_compute; reflexivity] |].
    destruct C as [-> | C];
      [apply (Up 9%Z 7%Z);
       [lia | change (inject_Z (2 ^ 7)) with 128; lra | exact U
        | vm_compute; reflexivity] |].
    destruct C as [-> | C];
      [apply (Up 10%Z 8%Z);
       [lia | change (inject_Z (2 ^ 8)) with 256; lra | exact U
        | vm_compute; reflexivity] |].
    destruct C as [-> | ->].
    + apply (Up 11%Z 8%Z);
        [lia | change (inject_Z (2 ^ 8)) with 256; lra | exact U
         | vm_compute; reflexivity].
    + apply (Up 12%Z 8%Z);
        [lia | change (inject_Z (2 ^ 8)) with 256; lra | exact U
         | vm_compute; reflexivity].
Qed.

End ZodiacOnDoubles.

(** C6, as amended.  On doubles, for every longitude the zodiac
    decomposition rebuilds the longitude of the record it returns:
    [signIndex * 30 + degree + minutes / 60] differs from it by less than
    0.02 degrees.  That longitude lies in [[0, 360)], is the input less a
    whole number of turns up to the rounding of one sum, and the sign index
    is its sector of 30 degrees; so the rebuilt longitude is within 0.02
    degrees of the input less a whole number of turns. *)
Theorem zodiac_round_trip (l : Q) :
  let z := Rounded.getZodiacPosition (Rd := binary64) l in
  let rebuilt := inject_Z (signIndex z) * 30 + inject_Z (degree z)
                 + inject_Z (minutes z) / 60 in
  0 <= zlongitude z /\ zlongitude z < 360 /\
  signIndex z = Qfloor (zlongitude z / 30) /\
  (0 <= signIndex z <= 11)%Z /\
  Qabs (rebuilt - zlongitude z) < 0.02 /\
  exists k : Z,
    Qabs (zlongitude z - (l - 360 * inject_Z k)) <= 1 # 16777216 /\
    Qabs (rebuilt - (l - 360 * inject_Z k)) < 0.02.
Proof.
  intros z rebuilt. subst rebuilt z.
  unfold Rounded.getZodiacPosition. cbv zeta.
  cbn [zlongitude signIndex degree minutes].
  unfold Rounded.add, Rounded.sub, Rounded.mul, Rounded.div.
  change (@rnd binary64) with Binary64.rnd64.
  pose proof binary64_roundsToDoubles as Hb.
  assert (- 360 < l %% 360 /\ l %% 360 < 360) as [Q0 Q1].
  { destruct (Qlt_le_dec l 0) as [N | N].
    - destruct (rem_nonpos l 360) as [A B]; [lra | lra |]. split; lra.
    - destruct (rem_nonneg l 360) as [A B]; [lra | exact N |]. split; lra. }
  assert (exists k : Z,
            Qabs (Binary64.rnd64 (l %% 360 + 360) %% 360
                  - (l - 360 * inject_Z k)) <= 1 # 16777216) as (k & Ek).
  { destruct (rnd_near (Rd := binary64) Hb (l %% 360 + 360)) as [A B];
      [lra | lra |].
    change (@rnd binary64) with Binary64.rnd64 in A, B.
    exists (JS.trunc (l / 360) - 1
            + JS.trunc (Binary64.rnd64 (l %% 360 + 360) / 360))%Z.
    unfold JS.rem at 1.
    set (v := Binary64.rnd64 (l %% 360 + 360)) in *.
    unfold JS.rem in A, B |- *. unfold Z.sub.
    rewrite !inject_Z_plus, inject_Z_opp. change (inject_Z 1) with 1.
    set (n1 := inject_Z (JS.trunc (l / 360))) in *.
    set (n2 := inject_Z (JS.trunc (v / 360))) in *.
    clearbody v n1 n2. apply Qabs_Qle_condition. split; lra. }
  destruct (wrapped_range _ Q0 Q1) as (_ & _ & R0 & R1).
  pose proof (sector_stable _ R0 R1
                (fun a Ha Hg => wrapped_grid _ a Q0 Q1 Ha Hg)) as Es.
  set (nl := Binary64.rnd64 (l %% 360 + 360) %% 360) in *.
  rewrite Es.
  pose proof (Qfloor_le (nl / 30)) as F0.
  pose proof (Qlt_floor (nl / 30)) as F1.
  assert (0 <= nl / 30) as Hq by (apply Qle_shift_div_l; lra).
  assert (nl %% 30 == nl - 30 * inject_Z (Qfloor (nl / 30))) as Ed.
  { unfold JS.rem. now rewrite trunc_nonneg. }
  destruct (rem_nonneg nl 30) as [D0 D1]; [lra | exact R0 |].
  set (s := Qfloor (nl / 30)) in *.
  assert (inject_Z (- 1) < inject_Z s /\ inject_Z s < inject_Z 12) as [S0 S1].
  { rewrite inject_Z_plus in F1. change (inject_Z 1) with 1 in F1.
    change (inject_Z (- 1)) with (- 1). change (inject_Z 12) with 12.
    assert (nl == 30 * (nl / 30)) as E by field.
    split; lra. }
  rewrite <- Zlt_Qlt in S0, S1.
  set (dis := nl %% 30) in *.
  pose proof (Qfloor_le dis) as G0. pose proof (Qlt_floor dis) as G1.
  rewrite inject_Z_plus in G1. change (inject_Z 1) with 1 in G1.
  set (d := inject_Z (Qfloor dis)) in *.
  destruct (rnd_near (Rd := binary64) Hb (dis - d)) as [A1 B1];
    [lra | lra |].
  change (@rnd binary64) with Binary64.rnd64 in A1, B1.
  set (fr := Binary64.rnd64 (dis - d)) in *.
  destruct (rnd_near (Rd := binary64) Hb (fr * 60)) as [A2 B2];
    [lra | lra |].
  change (@rnd binary64) with Binary64.rnd64 in A2, B2.
  pose proof (Qfloor_le (Binary64.rnd64 (fr * 60))) as M0.
  pose proof (Qlt_floor (Binary64.rnd64 (fr * 60))) as M1.
  rewrite inject_Z_plus in M1. change (inject_Z 1) with 1 in M1.
  set (m60 := Binary64.rnd64 (fr * 60)) in *.
  set (mi := inject_Z (Qfloor m60)) in *.
  assert (mi / 60 == mi * (1 # 60)) as Em by field.
  assert (Qabs (inject_Z s * 30 + d + mi / 60 - nl) < 0.02) as Hr.
  { rewrite Em. clearbody mi m60 fr d dis.
    apply Qabs_Qlt_condition. split; lra. }
  split; [exact R0 |]. split; [exact R1 |]. split; [reflexivity |].
  split; [lia |]. split; [exact Hr |].
  exists k. split; [exact Ek |].
  apply Qabs_Qle_condition in Ek. destruct Ek as [K0 K1].
  rewrite Em. clearbody mi m60 fr d dis.
  apply Qabs_Qlt_condition. split; lra.
Qed.

(** C6 as the specification words it fails on doubles: for the double
    [-2^-60] the sum with 360 rounds to 360, the record is that of
    longitude 0, and the rebuilt longitude 0 is a whole turn away from the
    input normalised into [[0, 360)], exactly or by [normalizeAngle]. *)
Lemma zodiac_round_trip_wraps :
  let l := - (1 # 2 ^ 60) in
  let z := Rounded.getZodiacPosition (Rd := binary64) l in
  let rebuilt := inject_Z (signIndex z) * 30 + inject_Z (degree z)
                 + inject_Z (minutes z) / 60 in
  normalizeAngle l == 360 - (1 # 2 ^ 60) /\
  Rounded.normalizeAngle (Rd := binary64) l == 360 /\
  zlongitude z == 0 /\ rebuilt == 0 /\
  ~ Qabs (rebuilt - normalizeAngle l) < 0.02 /\
  ~ Qabs (rebuilt - Rounded.normalizeAngle (Rd := binary64) l) < 0.02.
Proof.
  cbv zeta.
  assert (normalizeAngle (- (1 # 2 ^ 60)) == 360 - (1 # 2 ^ 60)) as E1
    by (vm_compute; reflexivity).
  assert (Rounded.normalizeAngle (Rd := binary64) (- (1 # 2 ^ 60)) == 360)
    as E2 by (vm_compute; reflexivity).
  assert (zlongitude (Rounded.getZodiacPosition (Rd := binary64)
                        (- (1 # 2 ^ 60))) == 0) as E3
    by (vm_compute; reflexivity).
  assert (inject_Z (signIndex (Rounded.getZodiacPosition (Rd := binary64)
                                 (- (1 # 2 ^ 60)))) * 30
          + inject_Z (degree (Rounded.getZodiacPosition (Rd := binary64)
                                (- (1 # 2 ^ 60))))
          + inject_Z (minutes (Rounded.getZodiacPosition (Rd := binary64)
                                 (- (1 # 2 ^ 60)))) / 60 == 0) as E4
    by (vm_compute; reflexivity).
  rewrite E4, E2, E1.
  split; [reflexivity |]. split; [reflexivity |]. split; [exact E3 |].
  split; [reflexivity |].
  split; intros C; apply Qabs_Qlt_condition in C; destruct C as [C _];
    revert C; apply Qle_not_lt; apply Qle_bool_imp_le; vm_compute;
    reflexivity.
Qed.

(** X1. With every operator rounded to a double, [normalizeAngle] changes
    an angle by a whole number of turns, up to the rounding of the one sum
    it makes ([2^-24] degree at most); an angle that is not negative is
    changed by whole turns exactly. *)
Theorem normalizeAngle_keeps_angle {Rd : Rounding}
        (Hrnd : roundsToDoubles Rd) (x : Q) :
  exists k : Z,
    Qabs (Rounded.normalizeAngle x - (x - 360 * inject_Z k))
    <= 1 # 16777216 /\
    (0 <= x -> Rounded.normalizeAngle x == x - 360 * inject_Z k).
Proof.
  unfold Rounded.normalizeAngle, Rounded.add. cbv zeta.
  destruct (JS.ltb (x %% 360) 0) eqn:E.
  - assert (x < 0) as Hx.
    { apply Qnot_le_lt. intros C.
      destruct (rem_nonneg x 360) as [R0 _]; [lra | exact C |].
      apply ltb_ge in R0. congruence. }
    destruct (rem_nonpos x 360) as [R0 R1]; [lra | lra |].
    destruct (rnd_near Hrnd (x %% 360 + 360)) as [A B]; [lra | lra |].
    exists (JS.trunc (x / 360) - 1)%Z. split; [| intros C; exfalso; lra].
    unfold JS.rem in A, B |- *. unfold Z.sub.
    rewrite inject_Z_plus, inject_Z_opp. change (inject_Z 1) with 1.
    set (n := inject_Z (JS.trunc (x / 360))) in *.
    set (v := rnd (x - 360 * n + 360)) in *. clearbody v n.
    apply Qabs_Qle_condition. split; lra.
  - exists (JS.trunc (x / 360)).
    assert (x %% 360 - (x - 360 * inject_Z (JS.trunc (x / 360))) == 0) as Z0
      by (unfold JS.rem; ring).
    split; [| intros _; unfold JS.rem; reflexivity].
    rewrite Z0. discriminate.
Qed.

Lemma normalizeAngle_keeps_angle_witness :
  exists k : Z,
    Qabs (Rounded.normalizeAngle (Rd := binary64) (- 10)
          - (- 10 - 360 * inject_Z k)) <= 1 # 16777216.
Proof.
  destruct (normalizeAngle_keeps_angle binary64_roundsToDoubles (- 10))
    as (k & H & _).
  exists k. exact H.
Defined.

(* ================================================================== *)
(** * Whole turns and the zodiac placement *)
(* ================================================================== *)

(** Whole multiples of [m] added to [x] leave [x % m] as it is, as long as
    the sum has the sign of [x]. *)
Lemma rem_shift_nonneg (x m : Q) (n : Z) :
  0 < m -> 0 <= x -> 0 <= x + m * inject_Z n ->
  (x + m * inject_Z n) %% m == x %% m.
Proof.
  intros Hm Hx Hx'. unfold JS.rem.
  assert (0 <= x / m) as Hq by (apply Qle_shift_div_l; lra).
  assert ((x + m * inject_Z n) / m == x / m + inject_Z n) as Eq
    by (field; lra).
  assert (0 <= (x + m * inject_Z n) / m) as Hq'
    by (apply Qle_shift_div_l; lra).
  rewrite !trunc_nonneg by assumption.
  pose proof (Qfloor_le (x / m)) as F0. pose proof (Qlt_floor (x / m)) as F1.
  rewrite inject_Z_plus in F1. change (inject_Z 1) with 1 in F1.
  assert (Qfloor ((x + m * inject_Z n) / m) = (Qfloor (x / m) + n)%Z) as ->.
  { apply Qfloor_unique.
    - rewrite inject_Z_plus, Eq. lra.
    - rewrite !inject_Z_plus, Eq. change (inject_Z 1) with 1. lra. }
  rewrite inject_Z_plus. ring.
Qed.

Lemma rem_opp (x m : Q) : (- x) %% m == - (x %% m).
Proof.
  unfold JS.rem.
  assert (JS.trunc (- x / m) = (- JS.trunc (x / m))%Z) as ->.
  { rewrite <- trunc_opp. apply trunc_comp. unfold Qdiv. ring. }
  rewrite inject_Z_opp. ring.
Qed.

Lemma rem_shift_nonpos (x m : Q) (n : Z) :
  0 < m -> x <= 0 -> x + m * inject_Z n <= 0 ->
  (x + m * inject_Z n) %% m == x %% m.
Proof.
  intros Hm Hx Hx'.
  assert (x + m * inject_Z n == - (- x + m * inject_Z (- n))) as E1
    by (rewrite inject_Z_opp; ring).
  assert (x == - - x) as E2 by ring.
  transitivity ((- (- x + m * inject_Z (- n))) %% m);
    [apply rem_comp; [exact E1 | reflexivity] |].
  transitivity ((- - x) %% m);
    [| apply rem_comp; [symmetry; exact E2 | reflexivity]].
  rewrite (rem_opp (- x + m * inject_Z (- n))), (rem_opp (- x)).
  apply Qopp_comp. apply rem_shift_nonneg; [exact Hm | lra |].
  rewrite inject_Z_opp. lra.
Qed.

(** X3. With every operator rounded to a double, two longitudes a whole
    number of turns apart get the same zodiac placement when they are on
    the same side of zero: the same sign, sign index, degree, minutes and
    formatted text, and the same normalised longitude.  (On either side of
    zero the remainders differ by 360 and the sum with 360 can round
    differently.) *)
Theorem getZodiacPosition_periodic {Rd : Rounding}
        (Hrnd : roundsToDoubles Rd) (l : Q) (n : Z) :
  (0 <= l /\ 0 <= l + 360 * inject_Z n) \/
  (l <= 0 /\ l + 360 * inject_Z n <= 0) ->
  let z := Rounded.getZodiacPosition l in
  let z' := Rounded.getZodiacPosition (l + 360 * inject_Z n) in
  sign z' = sign z /\ signIndex z' = signIndex z /\
  degree z' = degree z /\ minutes z' = minutes z /\
  formatted z' = formatted z /\ zlongitude z' == zlongitude z.
Proof.
  intros Hs z z'. subst z z'. unfold Rounded.getZodiacPosition. cbv zeta.
  cbn [sign signIndex degree minutes formatted zlongitude].
  assert ((l + 360 * inject_Z n) %% 360 == l %% 360) as Er.
  { destruct Hs as [[A B] | [A B]].
    - apply rem_shift_nonneg; [lra | exact A | exact B].
    - apply rem_shift_nonpos; [lra | exact A | exact B]. }
  assert (Rounded.add ((l + 360 * inject_Z n) %% 360) 360 %% 360
          == Rounded.add (l %% 360) 360 %% 360) as En.
  { apply rem_comp; [| reflexivity]. unfold Rounded.add.
    apply (rnd_comp Hrnd). now rewrite Er. }
  set (nl' := Rounded.add ((l + 360 * inject_Z n) %% 360) 360 %% 360) in *.
  set (nl := Rounded.add (l %% 360) 360 %% 360) in *.
  assert (Qfloor (Rounded.div nl' 30) = Qfloor (Rounded.div nl 30)) as Es.
  { apply Qfloor_comp. unfold Rounded.div. apply (rnd_comp Hrnd).
    now rewrite En. }
  assert (nl' %% 30 == nl %% 30) as Ed by (now rewrite En).
  assert (Qfloor (nl' %% 30) = Qfloor (nl %% 30)) as Eg
    by (now apply Qfloor_comp).
  assert (Qfloor (Rounded.mul
                    (Rounded.sub (nl' %% 30)
                                 (inject_Z (Qfloor (nl' %% 30)))) 60)
          = Qfloor (Rounded.mul
                      (Rounded.sub (nl %% 30)
                                   (inject_Z (Qfloor (nl %% 30)))) 60))
    as Em.
  { apply Qfloor_comp. unfold Rounded.mul, Rounded.sub.
    apply (rnd_comp Hrnd). apply Qmult_comp; [| reflexivity].
    apply (rnd_comp Hrnd). rewrite Eg, Ed. reflexivity. }
  rewrite Em, Es, Eg.
  split; [reflexivity |]. split; [reflexivity |]. split; [reflexivity |].
  split; [reflexivity |]. split; [reflexivity |]. exact En.
Qed.

Lemma getZodiacPosition_periodic_witness :
  signIndex (Rounded.getZodiacPosition (Rd := binary64)
               (10 + 360 * inject_Z 1))
  = signIndex (Rounded.getZodiacPosition (Rd := binary64) 10).
Proof.
  destruct (getZodiacPosition_periodic binary64_roundsToDoubles 10 1)
    as (_ & Hs & _).
  - left. split; [discriminate |]. vm_compute. discriminate.
  - exact Hs.
Defined.
